(** * Inverse window factorisation and Gabor dual drivers of LTFAT

    A shallow embedding of [src/iwfac.c] and [src/gabdual.c].  The C code
    works on raw arrays of [LTFAT_REAL] lanes (a complex sample is two
    consecutive lanes), on heap objects obtained from [ltfat_malloc] /
    [ltfat_calloc] and on an FFTW plan; all of that is kept: the model is
    an error-and-state monad over a heap of tagged blocks, array accesses
    are bounds checked and integer division by zero is a fault.

    [ltfatInt] values are integers ([Z]).  What the functions compute is
    stated with unbounded integers; for [iwfac_execute], whose indices are
    sums and products of [ltfatInt] values, the loops are also modelled at
    the width of the type, with signed overflow, undefined in C, as a
    fault.  [LTFAT_REAL] is a parameter:
    the statements about indices, statuses and resources hold for every
    scalar type, the model runs on rational numbers, and the round trip
    with [wfac] is stated over the real numbers. *)

From Stdlib Require Import ZArith Lia List QArith Reals Lra.
From stdpp Require Import base tactics option list numbers gmap.

Local Open Scope Z_scope.

(** ** Status codes and compile-time regime *)

(** Modelled from the spec: the status enumeration of the error header
    (absent from src); the constructor names are the ones used in src and
    the remaining ones are the spec's [NullArg], [AllocationFailed],
    [PlanCreation] and [InternalFailure]. *)
Inductive ltfat_status : Set :=
| LTFATERR_SUCCESS
| LTFATERR_NOTPOSARG
| LTFATERR_BADARG
| LTFATERR_NOTAFRAME
| LTFATERR_NULLPOINTER
| LTFATERR_NOMEM
| LTFATERR_INITFAILED
| LTFATERR_CANNOTHAPPEN.

#[global] Instance ltfat_status_eq_dec : EqDecision ltfat_status.
Proof. solve_decision. Defined.

(** Modelled from the spec: the test made by the [CHECKSTATUS] macro
    (absent from src): every status but [Success] is a failure. *)
Definition is_error (st : ltfat_status) : bool :=
  match st with LTFATERR_SUCCESS => false | _ => true end.

(** [LTFAT_COMPLEXTYPE] undefined / defined: the type [LTFAT_TYPE] of the
    time-domain window. *)
Inductive scalar_regime : Set := RealType | ComplexType.

(** Number of [LTFAT_REAL] lanes of one [LTFAT_TYPE] sample. *)
Definition lanes (t : scalar_regime) : Z :=
  match t with RealType => 1 | ComplexType => 2 end.

Inductive fftw_sign : Set := FFTW_FORWARD | FFTW_BACKWARD.

Definition FFTW_MEASURE : Z := 0.

(** ** Integer helpers *)

(** Modelled from the spec: the GCD helper (absent from src), by its
    abstract contract. *)
Definition ltfat_gcd (a b : Z) : Z := Z.gcd a b.

(** Modelled from the spec: the LCM helper (absent from src), by its
    abstract contract. *)
Definition ltfat_lcm (a b : Z) : Z := Z.lcm a b.

(** Modelled from the spec: the non-negative modulus [positiverem]
    (absent from src), written with C's truncating remainder. *)
Definition positiverem (a b : Z) : Z :=
  let c := Z.rem a b in if c <? 0 then c + b else c.

(** The lattice accepted by [iwfac_init]: the three [CHECK]s on [a], [M]
    and [L]. *)
Record lattice (L a M : Z) : Prop := {
  lat_a_pos : 0 < a;
  lat_M_pos : 0 < M;
  lat_L_pos : 0 < L;
  lat_div : Z.rem L (ltfat_lcm a M) = 0
}.

(** The derived parameters, as [iwfac_init] computes them. *)
Definition lat_c (a M : Z) : Z := ltfat_gcd a M.
Definition lat_p (a M : Z) : Z := Z.quot a (lat_c a M).
Definition lat_q (a M : Z) : Z := Z.quot M (lat_c a M).
Definition lat_b (L M : Z) : Z := Z.quot L M.
Definition lat_d (L a M : Z) : Z := Z.quot (lat_b L M) (lat_p a M).

(** The residue and the output index of iteration [(r, w, l, k, s)], as the
    write loop of [iwfac_execute] computes them. *)
Definition iwfac_rem (a M L p l k s : Z) : Z :=
  Z.rem (positiverem (k * M - l * a) L + s * p * M) L.
Definition out_index (a M L p r w l k s : Z) : Z :=
  r + iwfac_rem a M L p l k s + L * w.

(** [for (i = lo; i < hi; i++)] and [for (s = 0; s < hi; s += 2)], as the
    lists of values the loop variable takes. *)
Definition range (lo hi : Z) : list Z := seqZ lo (hi - lo).
Definition range2 (hi : Z) : list Z := (λ i, 2 * i) <$> seqZ 0 ((hi + 1) `div` 2).

(** The residues one [(r, w)] pair goes through, in loop order. *)
Definition residues (L a M : Z) : list Z :=
  range 0 (lat_q a M) ≫= λ l, range 0 (lat_p a M) ≫= λ k,
  range 0 (lat_d L a M) ≫= λ s, [iwfac_rem a M L (lat_p a M) l k s].

(** ** The scalar type and the external collaborators *)

(** [LTFAT_REAL] with the operations the code applies to it. *)
Class RealOps (real : Type) := {
  rmul : real → real → real;
  rdiv : real → real → real;
  rsqrt : real → real;
  rofZ : Z → real;
  runinit : real   (* content of memory that was never written *)
}.

(** Modelled from the spec: the FFT library (absent from src), taken as a
    parameter: what executing a length-[n] plan of the given direction does
    to [2 n] interleaved lanes. *)
Class FftBackend (real : Type) := {
  fftw_dft : fftw_sign → Z → list real → list real
}.

(** Modelled from the spec: the factor-domain routines and window adapters
    that live in other files of the library (absent from src), taken as
    parameters.  Each one maps the content of its input array to a status
    and the content it leaves in its output array. *)
Class Collaborators (real : Type) := {
  wfac_ext : Z → Z → Z → Z → list real → ltfat_status * list real;
  wfacreal_ext : Z → Z → Z → Z → list real → ltfat_status * list real;
  gabdual_fac_ext : Z → Z → Z → Z → list real → ltfat_status * list real;
  gabdualreal_fac_ext : Z → Z → Z → Z → list real → ltfat_status * list real;
  iwfacreal_ext : Z → Z → Z → Z → list real → ltfat_status * list real;
  fir2long_ext : scalar_regime → Z → Z → list real → ltfat_status * list real;
  long2fir_ext : scalar_regime → Z → Z → list real → ltfat_status * list real
}.

(** ** Heap *)

Definition loc := positive.
(** A C pointer to the start of an object; [None] is [NULL]. *)
Definition ptr := option loc.

Section Model.
Context {real : Type} `{!RealOps real, !FftBackend real, !Collaborators real}.

(** [struct iwfac_plan]. *)
Record iwfac_plan := {
  plan_b : Z;
  plan_c : Z;
  plan_p : Z;
  plan_q : Z;
  plan_d : Z;
  plan_a : Z;
  plan_M : Z;
  plan_L : Z;
  plan_scaling : real;
  plan_sbuf : ptr;
  plan_p_before : ptr
}.

Inductive block :=
| Lanes (v : list real)            (* an array of LTFAT_REAL *)
| PlanObj (pl : iwfac_plan)        (* a struct iwfac_plan *)
| FftwPlan (sign : fftw_sign) (n : Z) (buf : loc)   (* an FFTW plan, in place on buf *)
| Handle (p : ptr).                (* a variable of type iwfac_plan* *)

Inductive event :=
| EvMalloc (l : loc) (n : Z)       (* ltfat_malloc of n lanes *)
| EvCalloc (l : loc)               (* ltfat_calloc of one plan struct *)
| EvFree (l : loc)
| EvPlanCreate (l : loc)
| EvPlanDestroy (l : loc).

Record state := {
  mem : gmap loc block;
  oracle : list bool;     (* outcomes of the next acquisitions; none left: success *)
  trace : list event      (* acquisitions and releases so far, oldest first *)
}.

Inductive outcome (A : Type) :=
| Done (a : A) (σ : state)
| Fault.                  (* undefined behaviour: bad access, division by zero *)
Arguments Done {A} a σ.
Arguments Fault {A}.

Definition run (A : Type) : Type := state → outcome A.

Definition ret {A} (a : A) : run A := λ σ, Done a σ.
Definition bind {A B} (m : run A) (k : A → run B) : run B :=
  λ σ, match m σ with Done a σ' => k a σ' | Fault => Fault end.
Definition fault {A} : run A := λ _, Fault.

Notation "'let*' x := m 'in' k" := (bind m (λ x, k))
  (at level 10, x name, m at level 100, k at level 200).
Notation "m ;; k" := (bind m (λ _, k))
  (at level 100, k at level 200, right associativity).

Definition set_mem (m : gmap loc block) (σ : state) : state :=
  {| mem := m; oracle := oracle σ; trace := trace σ |}.
Definition log (e : event) (σ : state) : state :=
  {| mem := mem σ; oracle := oracle σ; trace := trace σ ++ [e] |}.

(** Consume one outcome of the oracle. *)
Definition acquire : run bool := λ σ,
  match oracle σ with
  | [] => Done true σ
  | b :: o => Done b {| mem := mem σ; oracle := o; trace := trace σ |}
  end.

Definition new_block (b : block) (ev : loc → event) : run loc := λ σ,
  let l := fresh (dom (mem σ)) in
  Done l (log (ev l) (set_mem (<[l := b]> (mem σ)) σ)).

(** Modelled from the spec: [ltfat_malloc] (absent from src), an array of
    [n] lanes of unspecified content, or [NULL] when the acquisition fails. *)
Definition ltfat_malloc (n : Z) : run ptr :=
  let* ok := acquire in
  if ok then
    let* l := new_block (Lanes (replicate (Z.to_nat n) runinit)) (λ l, EvMalloc l n) in
    ret (Some l)
  else ret None.

Definition zero_plan : iwfac_plan :=
  {| plan_b := 0; plan_c := 0; plan_p := 0; plan_q := 0; plan_d := 0;
     plan_a := 0; plan_M := 0; plan_L := 0; plan_scaling := rofZ 0;
     plan_sbuf := None; plan_p_before := None |}.

(** Modelled from the spec: [ltfat_calloc] (absent from src), here
    [ltfat_calloc(1, sizeof *plan)]: a zeroed plan struct, or [NULL]. *)
Definition ltfat_calloc_plan : run ptr :=
  let* ok := acquire in
  if ok then let* l := new_block (PlanObj zero_plan) EvCalloc in ret (Some l)
  else ret None.

(** Modelled from the spec: [ltfat_free] (absent from src), a no-op on
    [NULL] and a fault on anything that is not a live [ltfat_malloc] /
    [ltfat_calloc] object. *)
Definition ltfat_free (p : ptr) : run unit :=
  match p with
  | None => ret tt
  | Some l => λ σ,
    match mem σ !! l with
    | Some (Lanes _) | Some (PlanObj _) =>
        Done tt (log (EvFree l) (set_mem (delete l (mem σ)) σ))
    | _ => Fault
    end
  end.

Definition load (p : ptr) (i : Z) : run real :=
  match p with
  | None => fault
  | Some l => λ σ,
    match mem σ !! l with
    | Some (Lanes v) =>
        if i <? 0 then Fault
        else match v !! Z.to_nat i with Some x => Done x σ | None => Fault end
    | _ => Fault
    end
  end.

Definition store (p : ptr) (i : Z) (x : real) : run unit :=
  match p with
  | None => fault
  | Some l => λ σ,
    match mem σ !! l with
    | Some (Lanes v) =>
        if (0 <=? i) && (i <? Z.of_nat (length v))
        then Done tt (set_mem (<[l := Lanes (<[Z.to_nat i := x]> v)]> (mem σ)) σ)
        else Fault
    | _ => Fault
    end
  end.

Definition read_plan (p : ptr) : run iwfac_plan :=
  match p with
  | None => fault
  | Some l => λ σ,
    match mem σ !! l with Some (PlanObj pl) => Done pl σ | _ => Fault end
  end.

Definition write_plan (p : ptr) (pl : iwfac_plan) : run unit :=
  match p with
  | None => fault
  | Some l => λ σ,
    match mem σ !! l with
    | Some (PlanObj _) => Done tt (set_mem (<[l := PlanObj pl]> (mem σ)) σ)
    | _ => Fault
    end
  end.

Definition read_handle (p : ptr) : run ptr :=
  match p with
  | None => fault
  | Some l => λ σ,
    match mem σ !! l with Some (Handle h) => Done h σ | _ => Fault end
  end.

Definition write_handle (p : ptr) (h : ptr) : run unit :=
  match p with
  | None => fault
  | Some l => λ σ,
    match mem σ !! l with
    | Some (Handle _) => Done tt (set_mem (<[l := Handle h]> (mem σ)) σ)
    | _ => Fault
    end
  end.

(** A local variable of type [iwfac_plan*] whose address is taken. *)
Definition push_handle (h : ptr) : run loc := λ σ,
  let l := fresh (dom (mem σ)) in
  Done l (set_mem (<[l := Handle h]> (mem σ)) σ).

Definition pop_handle (l : loc) : run unit := λ σ,
  match mem σ !! l with
  | Some (Handle _) => Done tt (set_mem (delete l (mem σ)) σ)
  | _ => Fault
  end.

(** Modelled from the spec: the plan constructor of the FFT library (absent
    from src), [fftw_plan_dft_1d(n, buf, buf, sign, flags)]: a plan that
    works in place on [buf], or [NULL] when plan creation fails. *)
Definition fftw_plan_dft_1d (n : Z) (buf : ptr) (sign : fftw_sign) (flags : Z)
  : run ptr :=
  match buf with
  | None => fault
  | Some b =>
    let* ok := acquire in
    if ok then let* l := new_block (FftwPlan sign n b) EvPlanCreate in ret (Some l)
    else ret None
  end.

(** Modelled from the spec: the plan destructor of the FFT library (absent
    from src); it releases the plan and is undefined on [NULL]. *)
Definition fftw_destroy_plan (p : ptr) : run unit :=
  match p with
  | None => fault
  | Some l => λ σ,
    match mem σ !! l with
    | Some (FftwPlan _ _ _) =>
        Done tt (log (EvPlanDestroy l) (set_mem (delete l (mem σ)) σ))
    | _ => Fault
    end
  end.

(** Modelled from the spec: [fftw_execute] of the FFT library (absent from
    src); the transform runs in place on the [2 n] lanes the plan was made
    for. *)
Definition fftw_execute (p : ptr) : run unit :=
  match p with
  | None => fault
  | Some l => λ σ,
    match mem σ !! l with
    | Some (FftwPlan sign n b) =>
        match mem σ !! b with
        | Some (Lanes v) =>
            if (Z.of_nat (length v) =? 2 * n)
               && (Z.of_nat (length (fftw_dft sign n v)) =? 2 * n)
            then Done tt (set_mem (<[b := Lanes (fftw_dft sign n v)]> (mem σ)) σ)
            else Fault
        | _ => Fault
        end
    | _ => Fault
    end
  end.

(** C's [/] and [%] on [ltfatInt]: truncating, undefined on a zero divisor. *)
Definition c_quot (a b : Z) : run Z := if b =? 0 then fault else ret (Z.quot a b).
Definition c_rem (a b : Z) : run Z := if b =? 0 then fault else ret (Z.rem a b).

Fixpoint for_each {S : Type} (xs : list Z) (body : Z → S → run S) (s : S) : run S :=
  match xs with
  | [] => ret s
  | x :: xs' => let* s' := body x s in for_each xs' body s'
  end.

(** ** [iwfac.c]

    The macros [CHECK], [CHECKNULL], [CHECKMEM], [CHECKINIT] and
    [CHECKSTATUS] (absent from src) are expanded where they are used: a
    failed test sets [status] and jumps to the [error:] label of the
    function, with [NullArg] for a null pointer, [AllocationFailed] for a
    null allocation, [PlanCreation] for a null FFTW plan and, for
    [CHECKSTATUS], the status of the call. *)

(** The [error:] epilogue of [iwfac_init]. *)
Definition iwfac_init_error (plan pout : ptr) (status : ltfat_status)
  : run ltfat_status :=
  match plan with
  | Some _ =>
      let* pl := read_plan plan in
      match plan_p_before pl with
      | Some _ => fftw_destroy_plan (plan_p_before pl)
      | None => ret tt
      end;;
      ltfat_free (plan_sbuf pl);;
      ltfat_free plan
  | None => ret tt
  end;;
  write_handle pout None;;
  ret status.

Definition iwfac_init (L a M : Z) (flags : Z) (pout : ptr) : run ltfat_status :=
  match pout with
  | None => iwfac_init_error None pout LTFATERR_NULLPOINTER
  | Some _ =>
  if negb (0 <? a) then iwfac_init_error None pout LTFATERR_NOTPOSARG else
  if negb (0 <? M) then iwfac_init_error None pout LTFATERR_NOTPOSARG else
  let minL := ltfat_lcm a M in
  let* ok := (if 0 <? L then let* r := c_rem L minL in ret (r =? 0)
              else ret false) in
  if negb ok then iwfac_init_error None pout LTFATERR_BADARG else
  let* plan := ltfat_calloc_plan in
  match plan with
  | None => iwfac_init_error plan pout LTFATERR_NOMEM
  | Some _ =>
  let* b := c_quot L M in
  let c := ltfat_gcd a M in
  let* p := c_quot a c in
  let* q := c_quot M c in
  let* d := c_quot b p in
  let scaling := rdiv (rdiv (rofZ 1) (rsqrt (rofZ M))) (rofZ d) in
  let pl := {| plan_b := b; plan_c := c; plan_p := p; plan_q := q; plan_d := d;
               plan_a := a; plan_M := M; plan_L := L; plan_scaling := scaling;
               plan_sbuf := None; plan_p_before := None |} in
  write_plan plan pl;;
  let* sbuf := ltfat_malloc (2 * d) in
  let pl := {| plan_b := b; plan_c := c; plan_p := p; plan_q := q; plan_d := d;
               plan_a := a; plan_M := M; plan_L := L; plan_scaling := scaling;
               plan_sbuf := sbuf; plan_p_before := None |} in
  write_plan plan pl;;
  match sbuf with
  | None => iwfac_init_error plan pout LTFATERR_NOMEM
  | Some _ =>
  let* p_before := fftw_plan_dft_1d d sbuf FFTW_BACKWARD flags in
  let pl := {| plan_b := b; plan_c := c; plan_p := p; plan_q := q; plan_d := d;
               plan_a := a; plan_M := M; plan_L := L; plan_scaling := scaling;
               plan_sbuf := sbuf; plan_p_before := p_before |} in
  write_plan plan pl;;
  match p_before with
  | None => iwfac_init_error plan pout LTFATERR_INITFAILED
  | Some _ =>
  write_handle pout plan;;
  ret LTFATERR_SUCCESS
  end end end end.

(** The load loop: [sbuf[s] = gfp[s * ld3] * scaling] on both lanes. *)
Definition iwfac_load_body (gf sbuf : ptr) (gfp ld3 : Z) (scaling : real) (s : Z)
  : run unit :=
  let* x := load gf (gfp + s * ld3) in
  store sbuf s (rmul x scaling);;
  let* y := load gf (gfp + (s * ld3 + 1)) in
  store sbuf (s + 1) (rmul y scaling).

Definition iwfac_load (gf sbuf : ptr) (gfp ld3 d : Z) (scaling : real) : run unit :=
  for_each (range2 (2 * d)) (λ s _, iwfac_load_body gf sbuf gfp ld3 scaling s) tt.

(** The write loop over [s], with [rem = (negrem + s * p * M) % L]. *)
Definition iwfac_write_body (t : scalar_regime) (sbuf g : ptr)
    (r w negrem p M L : Z) (s : Z) : run unit :=
  let* rem := c_rem (negrem + s * p * M) L in
  match t with
  | ComplexType =>
      let* x := load sbuf (2 * s) in
      store g (2 * (r + rem + L * w)) x;;
      let* y := load sbuf (2 * s + 1) in
      store g (2 * (r + rem + L * w) + 1) y
  | RealType =>
      let* x := load sbuf (2 * s) in
      store g (r + rem + L * w) x
  end.

Definition iwfac_write (t : scalar_regime) (sbuf g : ptr)
    (r w negrem p M L d : Z) : run unit :=
  for_each (range 0 d) (λ s _, iwfac_write_body t sbuf g r w negrem p M L s) tt.

(** The body of the innermost [k] loop; the loop-carried local is [gfp], the
    lane offset of the read pointer into [gf]. *)
Definition iwfac_slot (t : scalar_regime) (pl : iwfac_plan) (gf g : ptr)
    (R r w l k : Z) (gfp : Z) : run Z :=
  let ld3 := plan_c pl * plan_p pl * plan_q pl * R in
  (if plan_L pl =? 0 then fault else ret tt);;
  let negrem := positiverem (k * plan_M pl - l * plan_a pl) (plan_L pl) in
  iwfac_load gf (plan_sbuf pl) gfp ld3 (plan_d pl) (plan_scaling pl);;
  fftw_execute (plan_p_before pl);;
  iwfac_write t (plan_sbuf pl) g r w negrem (plan_p pl) (plan_M pl) (plan_L pl)
    (plan_d pl);;
  ret (gfp + 2).

Definition iwfac_execute (t : scalar_regime) (plan gf : ptr) (R : Z) (g : ptr)
  : run ltfat_status :=
  match plan, g, gf with
  | Some _, Some _, Some _ =>
    if negb (0 <? R) then ret LTFATERR_NOTPOSARG else
    let* pl := read_plan plan in
    for_each (range 0 (plan_c pl)) (λ r,
      for_each (range 0 R) (λ w,
        for_each (range 0 (plan_q pl)) (λ l,
          for_each (range 0 (plan_p pl)) (λ k,
            iwfac_slot t pl gf g R r w l k)))) 0;;
    ret LTFATERR_SUCCESS
  | _, _, _ => ret LTFATERR_NULLPOINTER
  end.

Definition iwfac_done (pout : ptr) : run ltfat_status :=
  match pout with
  | None => ret LTFATERR_NULLPOINTER
  | Some _ =>
    let* plan := read_handle pout in
    match plan with
    | None => ret LTFATERR_NULLPOINTER
    | Some _ =>
      let* pl := read_plan plan in
      fftw_destroy_plan (plan_p_before pl);;
      ltfat_free (plan_sbuf pl);;
      ltfat_free plan;;
      write_handle pout None;;
      ret LTFATERR_SUCCESS
    end
  end.

Definition iwfac (t : scalar_regime) (gf : ptr) (L R a M : Z) (g : ptr)
  : run ltfat_status :=
  let* h := push_handle None in
  let* st := iwfac_init L a M FFTW_MEASURE (Some h) in
  let* status :=
    (if is_error st then ret st
     else let* p := read_handle (Some h) in iwfac_execute t p gf R g) in
  let* p := read_handle (Some h) in
  match p with
  | Some _ => iwfac_done (Some h);; ret tt
  | None => ret tt
  end;;
  pop_handle h;;
  ret status.

(** ** [gabdual.c] *)

(** Modelled from the spec: a call of a routine of another file (absent
    from src).  It reads the array at [src] and leaves its result in the
    array at [dst], whose size it cannot change; a null pointer is reported
    as [NullArg]. *)
Definition call_ext (f : list real → ltfat_status * list real) (src dst : ptr)
  : run ltfat_status :=
  match src, dst with
  | Some s, Some d => λ σ,
    match mem σ !! s, mem σ !! d with
    | Some (Lanes v), Some (Lanes old) =>
        Done (f v).1
          (set_mem (<[d := Lanes (resize (length old) runinit (f v).2)]> (mem σ)) σ)
    | _, _ => Fault
    end
  | _, _ => ret LTFATERR_NULLPOINTER
  end.

(** Modelled from the spec: [LTFAT_SAFEFREEALL] (a macro absent from src)
    releases each of its arguments that is not null, in order. *)
Definition ltfat_safefreeall (ps : list ptr) : run unit :=
  fold_right (λ p k, ltfat_free p;; k) (ret tt) ps.

Definition gabdual_long (t : scalar_regime) (g : ptr) (L R a M : Z) (gd : ptr)
  : run ltfat_status :=
  let error (gf gdf : ptr) (status : ltfat_status) : run ltfat_status :=
    ltfat_safefreeall [gdf; gf];; ret status in
  if negb (0 <? R) then error None None LTFATERR_NOTPOSARG else
  if negb (a <=? M) then error None None LTFATERR_NOTAFRAME else
  let minL := ltfat_lcm a M in
  let* ok := (if 0 <? L then let* r := c_rem L minL in ret (r =? 0)
              else ret false) in
  if negb ok then error None None LTFATERR_BADARG else
  let* gf := ltfat_malloc (2 * (L * R)) in
  match gf with
  | None => error gf None LTFATERR_NOMEM
  | Some _ =>
  let* gdf := ltfat_malloc (2 * (L * R)) in
  match gdf with
  | None => error gf gdf LTFATERR_NOMEM
  | Some _ =>
  match t with
  | ComplexType =>
      let* st := call_ext (wfac_ext L R a M) g gf in
      if is_error st then error gf gdf st else
      call_ext (gabdual_fac_ext L R a M) gf gdf;;
      let* st := iwfac ComplexType gdf L R a M gd in
      error gf gdf st
  | RealType =>
      call_ext (wfacreal_ext L R a M) g gf;;
      call_ext (gabdualreal_fac_ext L R a M) gf gdf;;
      call_ext (iwfacreal_ext L R a M) gdf gd;;
      error gf gdf LTFATERR_SUCCESS
  end end end.

Definition gabdual_fir (t : scalar_regime) (g : ptr) (gl L a M gdl : Z) (gd : ptr)
  : run ltfat_status :=
  let error (tmpLong : ptr) (status : ltfat_status) : run ltfat_status :=
    match tmpLong with Some _ => ltfat_free tmpLong | None => ret tt end;;
    ret status in
  match g, gd with
  | Some _, Some _ =>
  if negb (0 <? gl) then error None LTFATERR_NOTPOSARG else
  if negb (0 <? L) then error None LTFATERR_NOTPOSARG else
  if negb (0 <? gdl) then error None LTFATERR_NOTPOSARG else
  if negb ((gl <=? L) && (gdl <=? L)) then error None LTFATERR_BADARG else
  let* tmpLong := ltfat_malloc (lanes t * L) in
  match tmpLong with
  | None => error tmpLong LTFATERR_NOMEM
  | Some _ =>
  let* st := call_ext (fir2long_ext t gl L) g tmpLong in
  if is_error st then error tmpLong st else
  let* st := gabdual_long t tmpLong L 1 a M tmpLong in
  if is_error st then error tmpLong st else
  let* st := call_ext (long2fir_ext t L gdl) tmpLong gd in
  error tmpLong st
  end
  | _, _ => error None LTFATERR_NULLPOINTER
  end.

(** ** Closed forms

    What the loops compute, written without state: these are the
    statements the code is compared with. *)

(** Lane [i] of an array. *)
Definition lane (v : list real) (i : Z) : real :=
  default runinit (v !! Z.to_nat i).

(** [d] complex samples of [GF], [ld3] complex elements apart, from complex
    offset [base], each lane multiplied by [scaling]. *)
Definition factor_column (GF : list real) (base ld3 d : Z) (scaling : real)
  : list real :=
  seqZ 0 d ≫= λ s, [rmul (lane GF (2 * (base + s * ld3))) scaling;
                     rmul (lane GF (2 * (base + s * ld3) + 1)) scaling].

(** Number of [(l, k)] pairs completed before iteration [(r, w, l, k)]. *)
Definition slot_base (p q R r w l k : Z) : Z := k + p * (l + q * (w + R * r)).

(** The scratch buffer after the transform of iteration [(r, w, l, k)]. *)
Definition slot_out (pl : iwfac_plan) (R : Z) (GF : list real) (r w l k : Z)
  : list real :=
  fftw_dft FFTW_BACKWARD (plan_d pl)
    (factor_column GF (slot_base (plan_p pl) (plan_q pl) R r w l k)
       (plan_c pl * plan_p pl * plan_q pl * R) (plan_d pl) (plan_scaling pl)).

(** The lanes of [g] assigned by step [s] of iteration [(r, w, l, k)], and by
    the whole iteration, in order. *)
Definition write_at (t : scalar_regime) (pl : iwfac_plan) (r w l k : Z)
    (out : list real) (s : Z) : list (Z * real) :=
  let i := out_index (plan_a pl) (plan_M pl) (plan_L pl) (plan_p pl) r w l k s in
  match t with
  | ComplexType => [(2 * i, lane out (2 * s)); (2 * i + 1, lane out (2 * s + 1))]
  | RealType => [(i, lane out (2 * s))]
  end.

Definition slot_writes (t : scalar_regime) (pl : iwfac_plan) (r w l k : Z)
    (out : list real) : list (Z * real) :=
  range 0 (plan_d pl) ≫= write_at t pl r w l k out.

Definition all_writes (t : scalar_regime) (pl : iwfac_plan) (R : Z)
    (GF : list real) : list (Z * real) :=
  range 0 (plan_c pl) ≫= λ r, range 0 R ≫= λ w,
  range 0 (plan_q pl) ≫= λ l, range 0 (plan_p pl) ≫= λ k,
    slot_writes t pl r w l k (slot_out pl R GF r w l k).

(** The lane a write goes to. *)
Definition target (y : Z * real) : nat := Z.to_nat y.1.

Definition apply_writes (ws : list (Z * real)) (G : list real) : list real :=
  foldl (λ G w, <[Z.to_nat w.1 := w.2]> G) G ws.

(** The content of [g] after [iwfac_execute]. *)
Definition iwfac_value (t : scalar_regime) (pl : iwfac_plan) (R : Z)
    (GF G : list real) : list real :=
  apply_writes (all_writes t pl R GF) G.

(** The plan [iwfac_init] builds for [(L, a, M)]. *)
Definition derived_plan (L a M : Z) (sbuf p_before : ptr) : iwfac_plan :=
  {| plan_b := lat_b L M; plan_c := lat_c a M; plan_p := lat_p a M;
     plan_q := lat_q a M; plan_d := lat_d L a M;
     plan_a := a; plan_M := M; plan_L := L;
     plan_scaling := rdiv (rdiv (rofZ 1) (rsqrt (rofZ M))) (rofZ (lat_d L a M));
     plan_sbuf := sbuf; plan_p_before := p_before |}.

(** The state [σ] with the arrays at [sb] and [g] replaced. *)
Definition with_arrays (σ : state) (sb g : loc) (SB G : list real) : state :=
  set_mem (<[sb := Lanes SB]> (<[g := Lanes G]> (mem σ))) σ.

(** A state in which [plan] is a plan made by [iwfac_init] for [(L, a, M)],
    [gf] holds at least [L * R] complex samples and [g] at least [L * R]
    samples of the window type. *)
Record exec_ready (t : scalar_regime) (L a M R : Z) (plan gf g sb fp : loc)
    (GF G : list real) (σ : state) : Prop := {
  er_lattice : lattice L a M;
  er_R : 0 < R;
  er_plan : mem σ !! plan = Some (PlanObj (derived_plan L a M (Some sb) (Some fp)));
  er_fft : mem σ !! fp = Some (FftwPlan FFTW_BACKWARD (lat_d L a M) sb);
  er_sbuf : ∃ SB, mem σ !! sb = Some (Lanes SB) ∧
                  Z.of_nat (length SB) = 2 * lat_d L a M;
  er_gf : mem σ !! gf = Some (Lanes GF);
  er_gf_len : 2 * (L * R) ≤ Z.of_nat (length GF);
  er_g : mem σ !! g = Some (Lanes G);
  er_g_len : lanes t * (L * R) ≤ Z.of_nat (length G);
  er_gf_sb : gf ≠ sb;
  er_g_sb : g ≠ sb;
  er_gf_g : gf ≠ g
}.

(** Every result the computation can return satisfies [P]. *)
Definition yields {A} (P : A → Prop) (c : run A) : Prop :=
  ∀ σ a σ', c σ = Done a σ' → P a.

(** The status alone. *)
Definition result_of {A} (o : outcome A) : option A :=
  match o with Done a _ => Some a | Fault => None end.

(** Outcome of the [i]-th next acquisition. *)
Definition ok_at (o : list bool) (i : nat) : bool := default true (o !! i).

(** What [iwfac_init] returns on a valid lattice, by the outcomes of its
    three acquisitions (plan struct, scratch buffer, FFTW plan). *)
Definition init_status (o : list bool) : ltfat_status :=
  if negb (ok_at o 0) then LTFATERR_NOMEM
  else if negb (ok_at o 1) then LTFATERR_NOMEM
  else if negb (ok_at o 2) then LTFATERR_INITFAILED
  else LTFATERR_SUCCESS.

Definition init_state (L a M : Z) (h plan sb fp : loc) (σ : state) : state :=
  let o := oracle σ in
  let d := lat_d L a M in
  if negb (ok_at o 0) then
    {| mem := <[h := Handle None]> (mem σ); oracle := drop 1 o; trace := trace σ |}
  else if negb (ok_at o 1) then
    {| mem := <[h := Handle None]> (mem σ); oracle := drop 2 o;
       trace := trace σ ++ [EvCalloc plan; EvFree plan] |}
  else if negb (ok_at o 2) then
    {| mem := <[h := Handle None]> (mem σ); oracle := drop 3 o;
       trace := trace σ ++ [EvCalloc plan; EvMalloc sb (2 * d); EvFree sb; EvFree plan] |}
  else
    {| mem := <[h := Handle (Some plan)]>
                (<[fp := FftwPlan FFTW_BACKWARD d sb]>
                   (<[sb := Lanes (replicate (Z.to_nat (2 * d)) runinit)]>
                      (<[plan := PlanObj (derived_plan L a M (Some sb) (Some fp))]>
                         (mem σ))));
       oracle := drop 3 o;
       trace := trace σ ++ [EvCalloc plan; EvMalloc sb (2 * d); EvPlanCreate fp] |}.

(** What a whole [iwfac] call leaves behind on a valid lattice with [R > 0]
    and arrays of the right size: the acquisitions consumed and the events
    logged, by the outcomes of the three acquisitions. *)
Definition iwfac_consumed (o : list bool) : nat :=
  if negb (ok_at o 0) then 1 else if negb (ok_at o 1) then 2 else 3.

Definition iwfac_events (d : Z) (plan sb fp : loc) (o : list bool) : list event :=
  if negb (ok_at o 0) then []
  else if negb (ok_at o 1) then [EvCalloc plan; EvFree plan]
  else if negb (ok_at o 2) then
    [EvCalloc plan; EvMalloc sb (2 * d); EvFree sb; EvFree plan]
  else [EvCalloc plan; EvMalloc sb (2 * d); EvPlanCreate fp;
        EvPlanDestroy fp; EvFree sb; EvFree plan].

(** The status and the content of [gd] after [gabdual_long], for [0 < a]
    and arrays of the right size, by the content [Gin] of [g] and the
    outcomes of the acquisitions. *)
Definition gabdual_long_status (t : scalar_regime) (L R a M : Z)
    (Gin : list real) (o : list bool) : ltfat_status :=
  if negb (0 <? R) then LTFATERR_NOTPOSARG
  else if negb (a <=? M) then LTFATERR_NOTAFRAME
  else if negb ((0 <? L) && (Z.rem L (ltfat_lcm a M) =? 0)) then LTFATERR_BADARG
  else if negb (ok_at o 0) then LTFATERR_NOMEM
  else if negb (ok_at o 1) then LTFATERR_NOMEM
  else match t with
       | ComplexType =>
           if is_error (wfac_ext L R a M Gin).1 then (wfac_ext L R a M Gin).1
           else init_status (drop 2 o)
       | RealType => LTFATERR_SUCCESS
       end.

Definition gabdual_long_value (t : scalar_regime) (L R a M : Z)
    (Gin Gd : list real) : list real :=
  let n := Z.to_nat (2 * (L * R)) in
  match t with
  | ComplexType =>
      let gf := resize n runinit (wfac_ext L R a M Gin).2 in
      let gdf := resize n runinit (gabdual_fac_ext L R a M gf).2 in
      iwfac_value ComplexType (derived_plan L a M None None) R gdf Gd
  | RealType =>
      let gf := resize n runinit (wfacreal_ext L R a M Gin).2 in
      let gdf := resize n runinit (gabdualreal_fac_ext L R a M gf).2 in
      resize (length Gd) runinit (iwfacreal_ext L R a M gdf).2
  end.

(** The events of a successful [gabdual_long], the factor buffers being
    [gf] and [gdf]. *)
Definition gabdual_long_events (t : scalar_regime) (L R a M : Z)
    (gf gdf plan sb fp : loc) : list event :=
  [EvMalloc gf (2 * (L * R)); EvMalloc gdf (2 * (L * R))] ++
  match t with
  | ComplexType =>
      [EvCalloc plan; EvMalloc sb (2 * lat_d L a M); EvPlanCreate fp;
       EvPlanDestroy fp; EvFree sb; EvFree plan]
  | RealType => []
  end ++ [EvFree gdf; EvFree gf].

(** The same for [gabdual_fir]. *)
Definition gabdual_fir_long (t : scalar_regime) (gl L : Z) (Gin : list real)
  : list real :=
  resize (Z.to_nat (lanes t * L)) runinit (fir2long_ext t gl L Gin).2.

(** The status before the final [long2fir] step. *)
Definition gabdual_fir_pre_status (t : scalar_regime) (gl L a M gdl : Z)
    (Gin : list real) (o : list bool) : ltfat_status :=
  if negb (0 <? gl) then LTFATERR_NOTPOSARG
  else if negb (0 <? L) then LTFATERR_NOTPOSARG
  else if negb (0 <? gdl) then LTFATERR_NOTPOSARG
  else if negb ((gl <=? L) && (gdl <=? L)) then LTFATERR_BADARG
  else if negb (ok_at o 0) then LTFATERR_NOMEM
  else if is_error (fir2long_ext t gl L Gin).1 then (fir2long_ext t gl L Gin).1
  else gabdual_long_status t L 1 a M (gabdual_fir_long t gl L Gin) (drop 1 o).

Definition gabdual_fir_value (t : scalar_regime) (gl L a M gdl : Z)
    (Gin Gd : list real) : list real :=
  let long := gabdual_fir_long t gl L Gin in
  resize (length Gd) runinit
    (long2fir_ext t L gdl (gabdual_long_value t L 1 a M long long)).2.

Definition gabdual_fir_status (t : scalar_regime) (gl L a M gdl : Z)
    (Gin : list real) (o : list bool) : ltfat_status :=
  let st := gabdual_fir_pre_status t gl L a M gdl Gin o in
  if is_error st then st
  else
    let long := gabdual_fir_long t gl L Gin in
    (long2fir_ext t L gdl (gabdual_long_value t L 1 a M long long)).1.

(** The content of [gd] after [gabdual_fir]: untouched unless the
    [long2fir] step is reached. *)
Definition gabdual_fir_output (t : scalar_regime) (gl L a M gdl : Z)
    (Gin Gd : list real) (o : list bool) : list real :=
  if is_error (gabdual_fir_pre_status t gl L a M gdl Gin o) then Gd
  else gabdual_fir_value t gl L a M gdl Gin Gd.

(** The composition [long2fir (gabdual_long (fir2long (g, gl, L), L, 1, a, M),
    L, gdl)] of the spec, with one array per intermediate result. *)
Definition gabdual_fir_reference (t : scalar_regime) (g : ptr) (gl L a M gdl : Z)
    (gd : ptr) : run ltfat_status :=
  let* long := ltfat_malloc (lanes t * L) in
  let* dual := ltfat_malloc (lanes t * L) in
  let* st :=
    (let* st := call_ext (fir2long_ext t gl L) g long in
     if is_error st then ret st else
     let* st := gabdual_long t long L 1 a M dual in
     if is_error st then ret st else
     call_ext (long2fir_ext t L gdl) dual gd) in
  ltfat_free dual;;
  ltfat_free long;;
  ret st.

(** The backend keeps the size of the [2 n] lanes it transforms. *)
Definition fft_in_place : Prop :=
  ∀ sign n v, Z.of_nat (length v) = 2 * n → length (fftw_dft sign n v) = length v.

End Model.

Arguments Done {real A} a σ.
Arguments Fault {real A}.

Notation "'let*' x := m 'in' k" := (bind m (λ x, k))
  (at level 10, x name, m at level 100, k at level 200).
Notation "m ;; k" := (bind m (λ _, k))
  (at level 100, k at level 200, right associativity).

(** ** [iwfac_execute] at the width of [ltfatInt]

    [iwfac_execute] once more, statement by statement, now with every
    expression of type [ltfatInt] evaluated at the width of that type: a
    value outside the type is signed overflow, which C leaves undefined and
    the model turns into a fault.  Pointer arithmetic ([gfp[·]], [g[·]],
    [gfp += 2]) is not [ltfatInt] arithmetic and stays bounds checked by
    [load] and [store].  The run also records, in order, each lane of [gf]
    it reads and each index of [g] it forms and writes at.  Without the
    checks and the record these are the definitions of [iwfac.c] above
    ([iwfac_execute_int_erase]). *)

(** Modelled from the spec: the typedef of [ltfatInt] (absent from src); by
    section 6 a signed machine-word integer, given here by its largest
    value: its values are [- ltfatInt_max - 1 .. ltfatInt_max]. *)
Class LtfatInt := { ltfatInt_max : Z }.

Definition in_ltfatInt {width : LtfatInt} (x : Z) : bool :=
  (- ltfatInt_max - 1 <=? x) && (x <=? ltfatInt_max).

(** Modelled from the spec: [ltfatInt] as a 32-bit [int], the width the
    concrete runs below are made at. *)
Definition Int32 : LtfatInt := {| ltfatInt_max := 2 ^ 31 - 1 |}.

(** One access of [iwfac_execute] to the arrays of its caller: the lane of
    [gf] a load reads, or the index [r + rem + L * w] a store into [g] is
    made at. *)
Inductive access :=
| ReadGf (lane : Z)
| WriteG (index : Z).

Definition read_lanes (lg : list access) : list Z :=
  lg ≫= λ x, match x with ReadGf i => [i] | WriteG _ => [] end.
Definition write_indices (lg : list access) : list Z :=
  lg ≫= λ x, match x with ReadGf _ => [] | WriteG i => [i] end.

Section ModelInt.
Context {real : Type} `{!RealOps real, !FftBackend real, !Collaborators real}.
Context {width : LtfatInt}.
Local Abbreviation run := (@run real).
Local Abbreviation state := (@state real).

(** The value of an expression of type [ltfatInt]; overflow is undefined
    behaviour. *)
Definition ltfat_int (x : Z) : run Z := if in_ltfatInt x then ret x else fault.

(** The values held by variables of type [ltfatInt]. *)
Definition ltfat_ints (xs : list Z) : run unit :=
  for_each xs (λ x _, ltfat_int x;; ret tt) tt.

(** The increment [x += step] that ends one round of a [for] loop. *)
Definition count_up {S} (step : Z) (body : Z → S → run S) : Z → S → run S :=
  λ x s, let* s' := body x s in ltfat_int (x + step);; ret s'.

(** [sbuf[s] = gfp[s * ld3] * scaling; sbuf[s + 1] = gfp[s * ld3 + 1] * scaling]. *)
Definition iwfac_load_body_int (gf sbuf : ptr) (gfp ld3 : Z) (scaling : real) (s : Z)
    (lg : list access) : run (list access) :=
  let* o := ltfat_int (s * ld3) in
  let* x := load gf (gfp + o) in
  store sbuf s (rmul x scaling);;
  let* s1 := ltfat_int (s + 1) in
  let* o1 := ltfat_int (o + 1) in
  let* y := load gf (gfp + o1) in
  store sbuf s1 (rmul y scaling);;
  ret (lg ++ [ReadGf (gfp + o); ReadGf (gfp + o1)]).

Definition iwfac_load_int (gf sbuf : ptr) (gfp ld3 d : Z) (scaling : real)
    (lg : list access) : run (list access) :=
  let* n := ltfat_int (2 * d) in
  for_each (range2 n) (count_up 2 (iwfac_load_body_int gf sbuf gfp ld3 scaling)) lg.

(** [rem = (negrem + s * p * M) % L] and the store at [g[r + rem + L * w]]. *)
Definition iwfac_write_body_int (t : scalar_regime) (sbuf g : ptr)
    (r w negrem p M L : Z) (s : Z) (lg : list access) : run (list access) :=
  let* sp := ltfat_int (s * p) in
  let* spM := ltfat_int (sp * M) in
  let* sum := ltfat_int (negrem + spM) in
  let* rem := c_rem sum L in
  let* rr := ltfat_int (r + rem) in
  let* Lw := ltfat_int (L * w) in
  let* i := ltfat_int (rr + Lw) in
  let* s2 := ltfat_int (2 * s) in
  match t with
  | ComplexType =>
      let* x := load sbuf s2 in
      store g (2 * i) x;;
      let* s21 := ltfat_int (s2 + 1) in
      let* y := load sbuf s21 in
      store g (2 * i + 1) y;;
      ret (lg ++ [WriteG i])
  | RealType =>
      let* x := load sbuf s2 in
      store g i x;;
      ret (lg ++ [WriteG i])
  end.

Definition iwfac_write_int (t : scalar_regime) (sbuf g : ptr)
    (r w negrem p M L d : Z) (lg : list access) : run (list access) :=
  for_each (range 0 d) (count_up 1 (iwfac_write_body_int t sbuf g r w negrem p M L)) lg.

(** The body of the [k] loop; the loop carries the read pointer [gfp] and
    the accesses so far. *)
Definition iwfac_slot_int (t : scalar_regime) (pl : iwfac_plan) (gf g : ptr)
    (ld3 r w l k : Z) (acc : Z * list access) : run (Z * list access) :=
  (* [negrem = positiverem(k * M - l * a, L)] *)
  let* kM := ltfat_int (k * plan_M pl) in
  let* la := ltfat_int (l * plan_a pl) in
  let* df := ltfat_int (kM - la) in
  (if plan_L pl =? 0 then fault else ret tt);;
  let negrem := positiverem df (plan_L pl) in
  let* lg := iwfac_load_int gf (plan_sbuf pl) acc.1 ld3 (plan_d pl) (plan_scaling pl)
               acc.2 in
  fftw_execute (plan_p_before pl);;
  let* lg := iwfac_write_int t (plan_sbuf pl) g r w negrem (plan_p pl) (plan_M pl)
               (plan_L pl) (plan_d pl) lg in
  ret (acc.1 + 2, lg).

Definition iwfac_execute_int (t : scalar_regime) (plan gf : ptr) (R : Z) (g : ptr)
  : run (ltfat_status * list access) :=
  match plan, g, gf with
  | Some _, Some _, Some _ =>
    if negb (0 <? R) then ret (LTFATERR_NOTPOSARG, []) else
    let* pl := read_plan plan in
    (* the parameter [R] and the locals [c], [p], [q], [d], [M], [a], [L] *)
    ltfat_ints [R; plan_c pl; plan_p pl; plan_q pl; plan_d pl; plan_M pl; plan_a pl;
                plan_L pl];;
    (* [ld3 = c * p * q * R] *)
    let* cp := ltfat_int (plan_c pl * plan_p pl) in
    let* cpq := ltfat_int (cp * plan_q pl) in
    let* ld3 := ltfat_int (cpq * R) in
    let* out :=
      for_each (range 0 (plan_c pl)) (count_up 1 (λ r,
        for_each (range 0 R) (count_up 1 (λ w,
          for_each (range 0 (plan_q pl)) (count_up 1 (λ l,
            for_each (range 0 (plan_p pl)) (count_up 1 (λ k,
              iwfac_slot_int t pl gf g ld3 r w l k)))))))) (0, []) in
    ret (LTFATERR_SUCCESS, out.2)
  | _, _, _ => ret (LTFATERR_NULLPOINTER, [])
  end.

(** What [iwfac_execute] needs of the state: the plan as [iwfac_init]
    leaves it, and two arrays of the caller, of [L·R] complex samples and of
    [L·R] samples, outside the plan's own buffer.  The two arrays may be the
    same one. *)
Record exec_layout (t : scalar_regime) (L a M R : Z) (plan gf g sb fp : loc)
    (σ : state) : Prop := {
  el_plan : mem σ !! plan = Some (PlanObj (derived_plan L a M (Some sb) (Some fp)));
  el_fft : mem σ !! fp = Some (FftwPlan FFTW_BACKWARD (lat_d L a M) sb);
  el_sbuf : ∃ SB, mem σ !! sb = Some (Lanes SB) ∧
                  Z.of_nat (length SB) = 2 * lat_d L a M;
  el_gf : ∃ GF, mem σ !! gf = Some (Lanes GF) ∧ 2 * (L * R) ≤ Z.of_nat (length GF);
  el_g : ∃ G, mem σ !! g = Some (Lanes G) ∧ lanes t * (L * R) ≤ Z.of_nat (length G);
  el_gf_sb : gf ≠ sb;
  el_g_sb : g ≠ sb
}.

End ModelInt.

(** The accesses of iteration [(r, w, l, k)], in order: the [2 d] lanes
    read from [gf], then the [d] indices written at. *)
Definition slot_accesses (L a M R r w l k : Z) : list access :=
  (range2 (2 * lat_d L a M) ≫= λ s,
     [ReadGf (2 * slot_base (lat_p a M) (lat_q a M) R r w l k
              + s * (lat_c a M * lat_p a M * lat_q a M * R));
      ReadGf (2 * slot_base (lat_p a M) (lat_q a M) R r w l k
              + (s * (lat_c a M * lat_p a M * lat_q a M * R) + 1))])
  ++ (range 0 (lat_d L a M) ≫= λ s, [WriteG (out_index a M L (lat_p a M) r w l k s)]).

(** The accesses of one call, in loop order. *)
Definition accesses (L a M R : Z) : list access :=
  range 0 (lat_c a M) ≫= λ r, range 0 R ≫= λ w,
  range 0 (lat_q a M) ≫= λ l, range 0 (lat_p a M) ≫= λ k,
    slot_accesses L a M R r w l k.

(** ** An executable instance over the rationals *)

(** [LTFAT_REAL] as a rational number; the square root is the integer one
    on numerator and denominator, exact on squares. *)
#[global] Instance Q_ops : RealOps Q := {|
  rmul := Qmult; rdiv := Qdiv;
  rsqrt := λ x, Qmake (Z.sqrt (Qnum x)) (Pos.sqrt (Qden x));
  rofZ := inject_Z; runinit := 0%Q |}.

(** [exp (2 π i k / 4)]: the roots of unity with rational coordinates. *)
Definition quarter_turn (k : Z) : Q * Q :=
  match k `mod` 4 with
  | 0 => (1%Q, 0%Q) | 1 => (0%Q, 1%Q) | 2 => ((-1)%Q, 0%Q) | _ => (0%Q, (-1)%Q)
  end.

Definition Qsum (xs : list Q) : Q := Qred (foldr Qplus 0%Q xs).

(** A backend that is exact for the lengths 1, 2 and 4, whose twiddle
    factors are rational; other lengths are left untransformed. *)
Definition Qdft (sign : fftw_sign) (n : Z) (v : list Q) : list Q :=
  if bool_decide (n ∈ [1; 2; 4]) then
    let turn s j :=
      quarter_turn ((match sign with FFTW_FORWARD => -1 | FFTW_BACKWARD => 1 end)
                    * (4 `div` n) * s * j) in
    seqZ 0 n ≫= λ j,
      [ Qsum ((λ s, lane v (2 * s) * (turn s j).1
                    - lane v (2 * s + 1) * (turn s j).2)%Q <$> seqZ 0 n);
        Qsum ((λ s, lane v (2 * s) * (turn s j).2
                    + lane v (2 * s + 1) * (turn s j).1)%Q <$> seqZ 0 n) ]
  else v.

#[global] Instance Q_fft : FftBackend Q := {| fftw_dft := Qdft |}.

(** Collaborators that succeed and copy their input. *)
#[global] Instance Q_copy : Collaborators Q := {|
  wfac_ext := λ _ _ _ _ v, (LTFATERR_SUCCESS, v);
  wfacreal_ext := λ _ _ _ _ v, (LTFATERR_SUCCESS, v);
  gabdual_fac_ext := λ _ _ _ _ v, (LTFATERR_SUCCESS, v);
  gabdualreal_fac_ext := λ _ _ _ _ v, (LTFATERR_SUCCESS, v);
  iwfacreal_ext := λ _ _ _ _ v, (LTFATERR_SUCCESS, v);
  fir2long_ext := λ _ _ _ v, (LTFATERR_SUCCESS, v);
  long2fir_ext := λ _ _ _ v, (LTFATERR_SUCCESS, v) |}.

(** Two arrays, at locations 1 and 2, and nothing else. *)
Definition two_arrays (v1 v2 : list Q) : @state Q :=
  {| mem := <[1%positive := Lanes v1]> (<[2%positive := Lanes v2]> ∅);
     oracle := []; trace := [] |}.

(** A state after [iwfac_init 2 1 1]: arrays at 1 and 2, the plan at 3, its
    scratch buffer at 4 and its FFTW plan at 5, the caller's handle at 6. *)
Definition ready_state (v1 v2 : list Q) : @state Q :=
  {| mem := <[6%positive := Handle (Some 3%positive)]>
            (<[5%positive := FftwPlan FFTW_BACKWARD 2 4%positive]>
            (<[4%positive := Lanes [0; 0; 0; 0]%Q]>
            (<[3%positive := PlanObj (derived_plan 2 1 1 (Some 4%positive) (Some 5%positive))]>
            (mem (two_arrays v1 v2)))));
     oracle := []; trace := [] |}.

(** The state [σ] with the outcomes [o] of the next acquisitions. *)
Definition with_oracle (o : list bool) (σ : @state Q) : @state Q :=
  {| mem := mem σ; oracle := o; trace := trace σ |}.

(** ** The exact instance over the real numbers

    [LTFAT_REAL] read as a real number: the arithmetic in which the
    factorisation and its inverse are compared. *)

Local Abbreviation reals := Rdefinitions.R (only parsing).

#[global] Instance R_ops : RealOps reals := {|
  rmul := Rmult; rdiv := Rdiv; rsqrt := sqrt; rofZ := IZR; runinit := 0%R |}.

(** The sum of [f 0], ..., [f (n - 1)]. *)
Fixpoint rsum_nat (n : nat) (f : Z → reals) : reals :=
  match n with
  | O => 0%R
  | S n' => (rsum_nat n' f + f (Z.of_nat n'))%R
  end.
Definition rsum (n : Z) (f : Z → reals) : reals := rsum_nat (Z.to_nat n) f.

(** The sign of the exponent: [-] forward, [+] backward. *)
Definition dft_sign (sign : fftw_sign) : reals :=
  match sign with FFTW_FORWARD => (-1)%R | FFTW_BACKWARD => 1%R end.

Definition dft_angle (n s j : Z) : reals := (2 * PI * IZR (s * j) / IZR n)%R.

(** Modelled from the spec: the FFT library (absent from src) by the
    contract of section 4.2, the unnormalized length-[n] transform of [n]
    interleaved complex samples: output [j] is the sum over [s] of input [s]
    times [exp (sign 2 π i s j / n)], real part first. *)
Definition dft (sign : fftw_sign) (n : Z) (v : list reals) : list reals :=
  seqZ 0 n ≫= λ j,
    [ rsum n (λ s, lane v (2 * s) * cos (dft_angle n s j)
                   - dft_sign sign * lane v (2 * s + 1) * sin (dft_angle n s j))%R;
      rsum n (λ s, dft_sign sign * lane v (2 * s) * sin (dft_angle n s j)
                   + lane v (2 * s + 1) * cos (dft_angle n s j))%R ].

#[global] Instance R_fft : FftBackend reals := {| fftw_dft := dft |}.

Definition opposite (sign : fftw_sign) : fftw_sign :=
  match sign with FFTW_FORWARD => FFTW_BACKWARD | FFTW_BACKWARD => FFTW_FORWARD end.

(** Sample [i] of a window as a complex number; a real window has no
    imaginary part. *)
Definition window_sample (t : scalar_regime) (G : list reals) (i : Z) : list reals :=
  match t with
  | ComplexType => [lane G (2 * i); lane G (2 * i + 1)]
  | RealType => [lane G i; 0%R]
  end.

(** Modelled from the spec: the index of the window sample that term [j] of
    the sum of section 4.3 reads,
    [(r + (k·M − l·a + j·p·M) mod L) + L·w]. *)
Definition wfac_index (a M L p r w l k j : Z) : Z :=
  r + (k * M - l * a + j * p * M) `mod` L + L * w.

(** Modelled from the spec: the [d] window samples that enter
    [gf[·, k, l, r, w]]. *)
Definition wfac_column (t : scalar_regime) (L a M : Z) (G : list reals) (r w l k : Z)
  : list reals :=
  range 0 (lat_d L a M) ≫= λ j,
    window_sample t G (wfac_index a M L (lat_p a M) r w l k j).

(** Modelled from the spec: [wfac] (absent from src), section 4.3:
    [gf[s, k, l, r, w] = Σ_j g[(r + (k·M − l·a + j·p·M) mod L) + L·w]
                          · exp(−2πi·s·j/d) · κ],
    with the scaling constant [κ] of [wfac] left open: the specification
    gives two values for it, [wfac_scaling] and [wfac_scaling_4_3]. *)
Definition wfac_sample (κ : reals) (t : scalar_regime) (L a M : Z) (G : list reals)
    (r w l k s : Z) : list reals :=
  let col := dft FFTW_FORWARD (lat_d L a M) (wfac_column t L a M G r w l k) in
  [ (lane col (2 * s) * κ)%R; (lane col (2 * s + 1) * κ)%R ].

(** Modelled from the spec: the factor tensor [wfac] produces, in the
    layout [iwfac_execute] reads: [gf[s, k, l, r, w]] is complex element
    [s·ld3 + k + p·(l + q·(w + R·r))]. *)
Definition wfac_spec (κ : reals) (t : scalar_regime) (L a M R : Z) (G : list reals)
  : list reals :=
  range 0 (lat_d L a M) ≫= λ s, range 0 (lat_c a M) ≫= λ r, range 0 R ≫= λ w,
  range 0 (lat_q a M) ≫= λ l, range 0 (lat_p a M) ≫= λ k,
    wfac_sample κ t L a M G r w l k s.

(** Modelled from the spec: the scaling of [wfac] that the round trip of
    section 3 (invariant 2) and section 8.2 asks for: [sqrt(M)], the
    constant that the [1 / (sqrt(M)·d)] of [iwfac] and the factor [d] of the
    unnormalized transform pair cancel. *)
Definition wfac_scaling (M : Z) : reals := sqrt (IZR M).

(** Modelled from the spec: the scaling of [wfac] as the formula of section
    4.3 and invariant 2 of section 3 write it, [sqrt(M) / d]. *)
Definition wfac_scaling_4_3 (L a M : Z) : reals :=
  (sqrt (IZR M) / IZR (lat_d L a M))%R.

(** A factor array at location 1 and a window array at location 2. *)
Definition roundtrip_state (GF G0 : list reals) : @state reals :=
  {| mem := <[1%positive := Lanes GF]> (<[2%positive := Lanes G0]> ∅);
     oracle := []; trace := [] |}.

(** * Facts *)

Ltac mlookup :=
  repeat first
    [ rewrite lookup_insert_eq | rewrite lookup_delete_eq
    | rewrite lookup_insert_ne by congruence
    | rewrite lookup_delete_ne by congruence ].

Ltac run_prims :=
  unfold ltfat_malloc, ltfat_calloc_plan, fftw_plan_dft_1d, new_block, acquire,
    ltfat_free, read_plan, write_plan, read_handle, write_handle, push_handle,
    pop_handle, fftw_destroy_plan, c_quot, c_rem, log, set_mem, bind, ret, fault.

(** ** Arithmetic of the lattice *)

Lemma positiverem_mod a b : 0 < b → positiverem a b = a `mod` b.
Proof.
  intros Hb. unfold positiverem. cbv zeta.
  pose proof (Z.rem_bound_abs a b ltac:(lia)) as Habs.
  pose proof (Z.quot_rem a b ltac:(lia)) as Hqr.
  destruct (Z.ltb_spec (a `rem` b) 0) as [Hlt|Hge].
  - apply (Z.mod_unique_pos a b (a `quot` b - 1)); lia.
  - apply (Z.mod_unique_pos a b (a `quot` b)); lia.
Qed.

Lemma lattice_gcd_pos a M : 0 < a → 0 < M → 0 < lat_c a M.
Proof.
  intros Ha HM. unfold lat_c, ltfat_gcd.
  pose proof (Z.gcd_nonneg a M). 
  destruct (Z.eq_dec (Z.gcd a M) 0) as [E|]; [|lia].
  apply Z.gcd_eq_0_l in E. lia.
Qed.

Lemma lattice_split a M :
  0 < a → 0 < M →
  a = lat_p a M * lat_c a M ∧ M = lat_q a M * lat_c a M ∧
  0 < lat_p a M ∧ 0 < lat_q a M ∧ Z.gcd (lat_p a M) (lat_q a M) = 1 ∧
  ltfat_lcm a M = lat_p a M * lat_q a M * lat_c a M.
Proof.
  intros Ha HM. pose proof (lattice_gcd_pos a M Ha HM) as Hc.
  unfold lat_p, lat_q. set (c := lat_c a M) in *.
  destruct (Z.gcd_divide_l a M) as [a' Ea]. destruct (Z.gcd_divide_r a M) as [m' Em].
  fold (ltfat_gcd a M) in Ea, Em. fold (lat_c a M) in Ea, Em. fold c in Ea, Em.
  assert (Hqa : a `quot` c = a') by (rewrite Ea at 1; apply Z.quot_mul; lia).
  assert (Hqm : M `quot` c = m') by (rewrite Em at 1; apply Z.quot_mul; lia).
  rewrite Hqa, Hqm.
  assert (0 < a') by nia. assert (0 < m') by nia.
  assert (Hg : Z.gcd a' m' = 1).
  { pose proof (Z.gcd_div_gcd a M c ltac:(lia) eq_refl) as G.
    rewrite Ea, Em, !Z.div_mul in G by lia. exact G. }
  repeat split; try done.
  unfold ltfat_lcm. rewrite Ea at 1. rewrite Em at 1.
  rewrite Z.lcm_mul_mono_r_nonneg by lia.
  apply Z.gcd_1_lcm_mul in Hg; [|lia..]. rewrite Hg. rewrite Z.abs_eq by nia. done.
Qed.

Lemma lattice_facts L a M :
  lattice L a M →
  0 < lat_c a M ∧ 0 < lat_p a M ∧ 0 < lat_q a M ∧ 0 < lat_b L M ∧ 0 < lat_d L a M ∧
  a = lat_p a M * lat_c a M ∧ M = lat_q a M * lat_c a M ∧
  lat_b L M = lat_d L a M * lat_p a M ∧
  L = lat_d L a M * lat_p a M * lat_q a M * lat_c a M ∧
  Z.gcd (lat_p a M) (lat_q a M) = 1.
Proof.
  intros [Ha HM HL Hdiv].
  destruct (lattice_split a M Ha HM) as (Ea & Em & Hp & Hq & Hg & Hlcm).
  pose proof (lattice_gcd_pos a M Ha HM) as Hc.
  unfold lat_d, lat_b.
  set (c := lat_c a M) in *. set (p := lat_p a M) in *. set (q := lat_q a M) in *.
  rewrite Hlcm in Hdiv. apply Z.rem_divide in Hdiv; [|nia].
  destruct Hdiv as [n En].
  assert (0 < n) by nia.
  assert (Eb : L `quot` M = n * p).
  { rewrite En, Em. replace (n * (p * q * c)) with (n * p * (q * c)) by ring.
    apply Z.quot_mul. nia. }
  rewrite Eb. rewrite Z.quot_mul by lia.
  repeat split; try done; try nia.
Qed.

Lemma lattice_d_alt L a M :
  lattice L a M → lat_d L a M = Z.quot L (a * lat_q a M).
Proof.
  intros Hl. destruct (lattice_facts L a M Hl) as (Hc & Hp & Hq & Hb & Hd & Ea & Em & Eb & EL & Hg).
  enough (H : ∀ L' a' d p q c, 0 < p → 0 < q → 0 < c →
    L' = d * p * q * c → a' = p * c → d = L' `quot` (a' * q)) by eauto.
  intros L' a' d p q c ? ? ? -> ->.
  replace (d * p * q * c) with (d * (p * c * q)) by ring.
  rewrite Z.quot_mul; [done|nia].
Qed.

Section Residues.
Variables (L a M c p q d : Z).
Hypothesis (Hc : 0 < c) (Hp : 0 < p) (Hq : 0 < q) (Hd : 0 < d).
Hypothesis (Ea : a = p * c) (EM : M = q * c) (EL : L = d * p * q * c).
Hypothesis (Hg : Z.gcd p q = 1).

Lemma L_pos : 0 < L.
Proof. nia. Qed.

Lemma iwfac_rem_mod l k s :
  0 ≤ s → iwfac_rem a M L p l k s = (k * M - l * a + s * p * M) `mod` L.
Proof.
  intros Hs. pose proof L_pos. unfold iwfac_rem.
  rewrite positiverem_mod by done.
  pose proof (Z.mod_pos_bound (k * M - l * a) L ltac:(done)).
  rewrite Z.rem_mod_nonneg by nia.
  by rewrite Zplus_mod_idemp_l.
Qed.

Lemma iwfac_rem_expand l k s :
  k * M - l * a + s * p * M = c * (k * q - l * p + s * p * q).
Proof. rewrite Ea, EM. ring. Qed.

Lemma iwfac_rem_divide l k s : 0 ≤ s → (c | iwfac_rem a M L p l k s).
Proof.
  intros Hs. rewrite iwfac_rem_mod by done. pose proof L_pos.
  rewrite Z.mod_eq by lia.
  apply Z.divide_sub_r.
  - rewrite iwfac_rem_expand. apply Z.divide_factor_l.
  - apply Z.divide_mul_l. rewrite EL. apply Z.divide_factor_r.
Qed.

Lemma iwfac_rem_range l k s : 0 ≤ s → 0 ≤ iwfac_rem a M L p l k s ≤ L - c.
Proof.
  intros Hs. pose proof L_pos.
  destruct (iwfac_rem_divide l k s Hs) as [n En].
  rewrite iwfac_rem_mod in * by done.
  pose proof (Z.mod_pos_bound (k * M - l * a + s * p * M) L ltac:(done)) as Hb.
  rewrite En in *. rewrite EL in Hb |- *.
  assert (n < d * p * q) by (apply (Z.mul_lt_mono_pos_r c); lia).
  assert ((n + 1) * c ≤ d * p * q * c) by (apply Z.mul_le_mono_nonneg_r; lia).
  lia.
Qed.

Lemma small_multiple n x : 0 < n → (n | x) → - n < x < n → x = 0.
Proof.
  intros Hn [m ->] ?.
  assert (m < 1) by (apply (Z.mul_lt_mono_pos_r n); lia).
  assert (-1 < m) by (apply (Z.mul_lt_mono_pos_r n); lia).
  assert (m = 0) by lia. subst m. lia.
Qed.

Lemma iwfac_rem_inj l k s l' k' s' :
  0 ≤ l < q → 0 ≤ k < p → 0 ≤ s < d →
  0 ≤ l' < q → 0 ≤ k' < p → 0 ≤ s' < d →
  iwfac_rem a M L p l k s = iwfac_rem a M L p l' k' s' →
  l = l' ∧ k = k' ∧ s = s'.
Proof.
  intros Hl Hk Hs Hl' Hk' Hs' E. pose proof L_pos.
  rewrite !iwfac_rem_mod, !iwfac_rem_expand in E by lia.
  assert (HD : (L | c * (k * q - l * p + s * p * q) - c * (k' * q - l' * p + s' * p * q))).
  { apply Z.mod_divide; [lia|]. by rewrite Zminus_mod, E, Z.sub_diag. }
  assert (HD' : (d * p * q | (k - k') * q - (l - l') * p + (s - s') * (p * q))).
  { destruct HD as [n En]. exists n. rewrite EL in En. nia. }
  assert (Hk0 : k = k').
  { enough (k - k' = 0) by lia. apply (small_multiple p); [done| |lia].
    apply (Z.gauss p q); [|done].
    replace (q * (k - k')) with
      (((k - k') * q - (l - l') * p + (s - s') * (p * q)) + p * ((l - l') - (s - s') * q)) by ring.
    apply Z.divide_add_r; [|apply Z.divide_factor_l].
    etrans; [|exact HD']. exists (d * q). ring. }
  assert (Hl0 : l = l').
  { enough (l - l' = 0) by lia. apply (small_multiple q); [done| |lia].
    apply (Z.gauss q p); [|by rewrite Z.gcd_comm].
    replace (p * (l - l')) with
      (- ((k - k') * q - (l - l') * p + (s - s') * (p * q)) + q * ((k - k') + (s - s') * p)) by ring.
    apply Z.divide_add_r; [|apply Z.divide_factor_l].
    apply Z.divide_opp_r. etrans; [|exact HD']. exists (d * p). ring. }
  subst k' l'. split; [done|]. split; [done|].
  enough (s - s' = 0) by lia. apply (small_multiple d); [done| |lia].
  destruct HD' as [n En]. exists n.
  apply (Z.mul_reg_r _ _ (p * q)); [nia|]. lia.
Qed.

Lemma out_index_range R r w l k s :
  0 ≤ r < c → 0 ≤ w < R → 0 ≤ s →
  0 ≤ out_index a M L p r w l k s < L * R.
Proof.
  intros Hr Hw Hs. pose proof (iwfac_rem_range l k s Hs). unfold out_index. nia.
Qed.

Lemma out_index_inj r w l k s r' w' l' k' s' :
  0 ≤ r < c → 0 ≤ l < q → 0 ≤ k < p → 0 ≤ s < d →
  0 ≤ r' < c → 0 ≤ l' < q → 0 ≤ k' < p → 0 ≤ s' < d →
  out_index a M L p r w l k s = out_index a M L p r' w' l' k' s' →
  r = r' ∧ w = w' ∧ l = l' ∧ k = k' ∧ s = s'.
Proof.
  intros Hr Hl Hk Hs Hr' Hl' Hk' Hs' E. unfold out_index in E.
  pose proof (iwfac_rem_range l k s ltac:(lia)) as B.
  pose proof (iwfac_rem_range l' k' s' ltac:(lia)) as B'.
  destruct (iwfac_rem_divide l k s ltac:(lia)) as [n En].
  destruct (iwfac_rem_divide l' k' s' ltac:(lia)) as [n' En'].
  assert (w = w') by nia. subst w'.
  assert (n = n') by nia. subst n'.
  assert (r = r') by lia. subst r'.
  split; [done|]. split; [done|].
  apply iwfac_rem_inj; try done. lia.
Qed.

End Residues.

(** ** The monad and lists of writes *)

Section MonadFacts.
Context {real : Type} `{!RealOps real, !FftBackend real, !Collaborators real}.
Implicit Types (σ : @state real) (v SB G GF : list real).

Lemma bind_Done {A B} (m : run A) (k : A → run B) σ a σ' :
  m σ = Done a σ' → bind m k σ = k a σ'.
Proof. unfold bind. by intros ->. Qed.

Lemma bind_Fault {A B} (m : run A) (k : A → run B) σ :
  m σ = Fault → bind m k σ = Fault.
Proof. unfold bind. by intros ->. Qed.

Lemma bind_inv {A B} (m : run A) (k : A → run B) σ b σ'' :
  bind m k σ = Done b σ'' → ∃ a σ', m σ = Done a σ' ∧ k a σ' = Done b σ''.
Proof. unfold bind. destruct (m σ) as [a σ'|]; [eauto|intros; discriminate]. Qed.

Lemma set_mem_id σ : set_mem (mem σ) σ = σ.
Proof. by destruct σ. Qed.

Lemma set_mem_set_mem m m' σ : set_mem m (set_mem m' σ) = set_mem m σ.
Proof. done. Qed.

Lemma for_each_app {S} (xs ys : list Z) (body : Z → S → run S) s σ :
  for_each (xs ++ ys) body s σ =
  bind (for_each xs body s) (for_each ys body) σ.
Proof.
  revert s σ. induction xs as [|x xs IH]; intros s σ; simpl; [reflexivity|].
  unfold bind. destruct (body x s σ) as [s' σ'|]; [|reflexivity].
  rewrite IH. reflexivity.
Qed.

(** ** Writes *)

Lemma apply_writes_app (ws1 ws2 : list (Z * real)) G :
  apply_writes (ws1 ++ ws2) G = apply_writes ws2 (apply_writes ws1 G).
Proof. apply foldl_app. Qed.

Lemma apply_writes_cons (w : Z * real) ws G :
  apply_writes (w :: ws) G = apply_writes ws (<[Z.to_nat w.1 := w.2]> G).
Proof. reflexivity. Qed.

Lemma length_apply_writes (ws : list (Z * real)) G :
  length (apply_writes ws G) = length G.
Proof.
  revert G. induction ws as [|w ws IH]; intros G; [done|].
  by rewrite apply_writes_cons, IH, length_insert.
Qed.

Lemma apply_writes_notin (ws : list (Z * real)) G (i : nat) :
  (∀ w, w ∈ ws → Z.to_nat w.1 ≠ i) →
  apply_writes ws G !! i = G !! i.
Proof.
  revert G. induction ws as [|w ws IH]; intros G Hni; [done|].
  rewrite apply_writes_cons, IH.
  - apply list_lookup_insert_ne. apply Hni. left.
  - intros w' Hw'. apply Hni. by right.
Qed.

Lemma apply_writes_lookup (ws : list (Z * real)) G (j : Z) (x : real) :
  NoDup (Z.to_nat ∘ fst <$> ws) →
  (j, x) ∈ ws → (Z.to_nat j < length G)%nat →
  apply_writes ws G !! Z.to_nat j = Some x.
Proof.
  revert G. induction ws as [|w ws IH]; intros G Hnd Hin Hlen.
  { by apply elem_of_nil in Hin. }
  rewrite fmap_cons in Hnd. apply NoDup_cons in Hnd as [Hhd Hnd].
  rewrite apply_writes_cons. apply elem_of_cons in Hin as [<-|Hin].
  - rewrite apply_writes_notin.
    + by apply list_lookup_insert_eq.
    + intros w' Hw' E. apply Hhd. simpl. rewrite <- E.
      apply (list_elem_of_fmap_2 (Z.to_nat ∘ fst) ws w' Hw').
  - apply IH; [done..|]. by rewrite length_insert.
Qed.

End MonadFacts.

Ltac step tac := erewrite bind_Done by tac.

(** ** The loops of [iwfac_execute] *)

Section Exec.
Context {real : Type} `{!RealOps real, !FftBackend real, !Collaborators real}.
Implicit Types (σ : @state real) (v SB G : list real) (pl : @iwfac_plan real).
Variables (σ0 : @state real) (gf g sb fp : loc) (GF : list real) (d : Z).
Hypothesis Hgf : mem σ0 !! gf = Some (Lanes GF).
Hypothesis Hfp : mem σ0 !! fp = Some (FftwPlan FFTW_BACKWARD d sb).
Hypothesis (Hgf_sb : gf ≠ sb) (Hgf_g : gf ≠ g) (Hg_sb : g ≠ sb).
Hypothesis (Hfp_sb : fp ≠ sb) (Hfp_g : fp ≠ g).
Hypothesis Hfft : fft_in_place.

Local Abbreviation st := (with_arrays σ0 sb g).

Lemma load_gf i SB G :
  0 ≤ i < Z.of_nat (length GF) →
  load (Some gf) i (st SB G) = Done (lane GF i) (st SB G).
Proof.
  intros Hi. unfold load, with_arrays. simpl.
  rewrite !lookup_insert_ne, Hgf by done.
  destruct (Z.ltb_spec i 0); [lia|]. unfold lane.
  destruct (lookup_lt_is_Some_2 GF (Z.to_nat i) ltac:(lia)) as [x ->]. done.
Qed.

Lemma load_sb i SB G :
  0 ≤ i < Z.of_nat (length SB) →
  load (Some sb) i (st SB G) = Done (lane SB i) (st SB G).
Proof.
  intros Hi. unfold load, with_arrays. simpl.
  rewrite lookup_insert_eq.
  destruct (Z.ltb_spec i 0); [lia|]. unfold lane.
  destruct (lookup_lt_is_Some_2 SB (Z.to_nat i) ltac:(lia)) as [x ->]. done.
Qed.

Lemma store_sb i x SB G :
  0 ≤ i < Z.of_nat (length SB) →
  store (Some sb) i x (st SB G) = Done tt (st (<[Z.to_nat i := x]> SB) G).
Proof.
  intros Hi. unfold store, with_arrays. simpl.
  rewrite lookup_insert_eq.
  destruct (Z.leb_spec 0 i); [|lia]. destruct (Z.ltb_spec i (Z.of_nat (length SB))); [|lia].
  simpl. unfold set_mem. simpl. by rewrite insert_insert_eq.
Qed.

Lemma store_g i x SB G :
  0 ≤ i < Z.of_nat (length G) →
  store (Some g) i x (st SB G) = Done tt (st SB (<[Z.to_nat i := x]> G)).
Proof.
  intros Hi. unfold store, with_arrays. simpl.
  rewrite lookup_insert_ne, lookup_insert_eq by done.
  destruct (Z.leb_spec 0 i); [|lia]. destruct (Z.ltb_spec i (Z.of_nat (length G))); [|lia].
  simpl. unfold set_mem. simpl.
  rewrite (insert_insert_ne (<[g:=_]> _) g sb) by done.
  by rewrite insert_insert_eq.
Qed.

Lemma fftw_execute_sb SB G :
  Z.of_nat (length SB) = 2 * d →
  fftw_execute (Some fp) (st SB G)
  = Done tt (st (fftw_dft FFTW_BACKWARD d SB) G).
Proof.
  intros Hlen. unfold fftw_execute, with_arrays. simpl.
  rewrite !lookup_insert_ne, Hfp by done. rewrite lookup_insert_eq.
  rewrite Hfft, Hlen, Z.eqb_refl by done. simpl.
  unfold set_mem. simpl. by rewrite insert_insert_eq.
Qed.


Lemma iwfac_load_body_spec base ld3 scaling i SB G :
  0 ≤ i → 2 * i + 1 < Z.of_nat (length SB) →
  0 ≤ 2 * (base + i * ld3) → 2 * (base + i * ld3) + 1 < Z.of_nat (length GF) →
  iwfac_load_body (Some gf) (Some sb) (2 * base) ld3 scaling (2 * i) (st SB G)
  = Done tt (st (<[Z.to_nat (2 * i + 1) := rmul (lane GF (2 * (base + i * ld3) + 1)) scaling]>
                 (<[Z.to_nat (2 * i) := rmul (lane GF (2 * (base + i * ld3))) scaling]> SB)) G).
Proof.
  intros Hi Hlen Hb1 Hb2. unfold iwfac_load_body, bind.
  replace (2 * base + 2 * i * ld3) with (2 * (base + i * ld3)) by ring.
  rewrite load_gf by lia. cbv beta iota.
  rewrite store_sb by lia. cbv beta iota.
  replace (2 * base + (2 * i * ld3 + 1)) with (2 * (base + i * ld3) + 1) by ring.
  rewrite load_gf by lia. cbv beta iota.
  by rewrite store_sb by (rewrite length_insert; lia).
Qed.

Lemma iwfac_load_from (base ld3 : Z) (scaling : real) (n : nat) :
  ∀ (i : Z) (pre rest : list real) G,
  0 ≤ i →
  Z.of_nat (length pre) = 2 * i →
  length rest = (2 * n)%nat →
  (∀ s, i ≤ s < i + Z.of_nat n →
        0 ≤ 2 * (base + s * ld3) ∧ 2 * (base + s * ld3) + 1 < Z.of_nat (length GF)) →
  for_each ((λ i, 2 * i) <$> seqZ i (Z.of_nat n))
    (λ s _, iwfac_load_body (Some gf) (Some sb) (2 * base) ld3 scaling s) tt
    (st (pre ++ rest) G)
  = Done tt (st (pre ++ (seqZ i (Z.of_nat n) ≫= λ s,
                   [rmul (lane GF (2 * (base + s * ld3))) scaling;
                    rmul (lane GF (2 * (base + s * ld3) + 1)) scaling])) G).
Proof.
  induction n as [|n IH]; intros i pre rest G Hi Hpre Hrest Hb.
  { destruct rest; [|simpl in Hrest; lia]. rewrite seqZ_nil by lia.
    simpl. by rewrite app_nil_r. }
  destruct rest as [|x0 [|y0 rest]]; [simpl in Hrest; lia..|].
  rewrite seqZ_cons by lia. rewrite fmap_cons. cbn [for_each mbind list_bind].
  replace (Z.pred (Z.of_nat (S n))) with (Z.of_nat n) by lia.
  destruct (Hb i ltac:(lia)) as [Hb1 Hb2].
  erewrite bind_Done; cycle 1.
  { apply iwfac_load_body_spec; try done. rewrite length_app. simpl. lia. }
  rewrite (insert_app_r_alt pre) by lia.
  replace (Z.to_nat (2 * i) - length pre)%nat with 0%nat by lia.
  rewrite (insert_app_r_alt pre) by lia.
  replace (Z.to_nat (2 * i + 1) - length pre)%nat with 1%nat by lia.
  cbn [insert list_insert].
  match goal with |- context [pre ++ ?a :: ?b :: rest] =>
    change (pre ++ a :: b :: rest) with (pre ++ ([a; b] ++ rest));
    rewrite (app_assoc pre [a; b] rest) end.
  rewrite (IH (Z.succ i)).
  - by rewrite <- app_assoc.
  - lia.
  - rewrite length_app. simpl. lia.
  - simpl in Hrest. lia.
  - intros s Hs. apply Hb. lia.
Qed.

Lemma iwfac_load_spec base ld3 scaling SB G :
  0 < d → Z.of_nat (length SB) = 2 * d →
  0 ≤ base → 0 ≤ ld3 → 2 * (base + (d - 1) * ld3) + 1 < Z.of_nat (length GF) →
  iwfac_load (Some gf) (Some sb) (2 * base) ld3 d scaling (st SB G)
  = Done tt (st (factor_column GF base ld3 d scaling) G).
Proof.
  intros Hd Hlen Hbase Hld Hb. unfold iwfac_load, range2, factor_column.
  replace ((2 * d + 1) `div` 2) with d by (apply Z.div_unique with 1; lia).
  assert (∃ n, d = Z.of_nat n) as [n Hn] by (exists (Z.to_nat d); lia).
  rewrite Hn. rewrite <- (app_nil_l SB).
  rewrite (iwfac_load_from base ld3 scaling n 0 [] SB G); try done.
  - lia.
  - intros s Hs. split; [nia|]. 
    assert (s * ld3 ≤ (d - 1) * ld3) by (apply Z.mul_le_mono_nonneg_r; lia). lia.
Qed.


Lemma iwfac_write_body_spec t pl r w l k s SB G :
  plan_L pl ≠ 0 →
  0 ≤ s → 2 * s + 1 < Z.of_nat (length SB) →
  0 ≤ out_index (plan_a pl) (plan_M pl) (plan_L pl) (plan_p pl) r w l k s →
  lanes t * (out_index (plan_a pl) (plan_M pl) (plan_L pl) (plan_p pl) r w l k s + 1)
    ≤ Z.of_nat (length G) →
  iwfac_write_body t (Some sb) (Some g) r w
    (positiverem (k * plan_M pl - l * plan_a pl) (plan_L pl))
    (plan_p pl) (plan_M pl) (plan_L pl) s (st SB G)
  = Done tt (st SB (apply_writes (write_at t pl r w l k SB s) G)).
Proof.
  intros HL Hs Hlen Hlo Hhi. unfold iwfac_write_body, write_at, c_rem.
  destruct (Z.eqb_spec (plan_L pl) 0) as [|_]; [done|].
  unfold out_index, iwfac_rem in *. unfold bind, ret.
  destruct t; simpl in Hhi.
  - rewrite load_sb by lia. cbv beta iota.
    by rewrite store_g by lia.
  - rewrite load_sb by lia. cbv beta iota.
    rewrite store_g by lia. cbv beta iota.
    rewrite load_sb by lia. cbv beta iota.
    by rewrite store_g by (rewrite length_insert; lia).
Qed.

Lemma iwfac_write_from t pl r w l k SB (n : nat) :
  ∀ (i : Z) G,
  plan_L pl ≠ 0 → 0 ≤ i →
  2 * (i + Z.of_nat n) ≤ Z.of_nat (length SB) →
  (∀ s, i ≤ s < i + Z.of_nat n →
     0 ≤ out_index (plan_a pl) (plan_M pl) (plan_L pl) (plan_p pl) r w l k s ∧
     lanes t * (out_index (plan_a pl) (plan_M pl) (plan_L pl) (plan_p pl) r w l k s + 1)
       ≤ Z.of_nat (length G)) →
  for_each (seqZ i (Z.of_nat n))
    (λ s _, iwfac_write_body t (Some sb) (Some g) r w
       (positiverem (k * plan_M pl - l * plan_a pl) (plan_L pl))
       (plan_p pl) (plan_M pl) (plan_L pl) s) tt (st SB G)
  = Done tt (st SB (apply_writes (seqZ i (Z.of_nat n) ≫= write_at t pl r w l k SB) G)).
Proof.
  induction n as [|n IH]; intros i G HL Hi Hlen Hb.
  { by rewrite seqZ_nil by lia. }
  rewrite seqZ_cons by lia. cbn [for_each mbind list_bind].
  replace (Z.pred (Z.of_nat (S n))) with (Z.of_nat n) by lia.
  destruct (Hb i ltac:(lia)) as [Hb1 Hb2].
  erewrite bind_Done; cycle 1.
  { apply iwfac_write_body_spec; try done. lia. }
  rewrite IH; try done; try lia.
  - by rewrite apply_writes_app.
  - intros s Hs. rewrite length_apply_writes. apply Hb. lia.
Qed.


Lemma iwfac_write_spec t pl r w l k n SB G :
  plan_L pl ≠ 0 → 0 ≤ n →
  2 * n ≤ Z.of_nat (length SB) →
  (∀ s, 0 ≤ s < n →
     0 ≤ out_index (plan_a pl) (plan_M pl) (plan_L pl) (plan_p pl) r w l k s ∧
     lanes t * (out_index (plan_a pl) (plan_M pl) (plan_L pl) (plan_p pl) r w l k s + 1)
       ≤ Z.of_nat (length G)) →
  iwfac_write t (Some sb) (Some g) r w
    (positiverem (k * plan_M pl - l * plan_a pl) (plan_L pl))
    (plan_p pl) (plan_M pl) (plan_L pl) n (st SB G)
  = Done tt (st SB (apply_writes (range 0 n ≫= write_at t pl r w l k SB) G)).
Proof.
  intros HL Hn Hlen Hb. unfold iwfac_write, range. rewrite Z.sub_0_r.
  assert (∃ m, n = Z.of_nat m) as [m ->] by (exists (Z.to_nat n); lia).
  apply iwfac_write_from; try done; lia.
Qed.

Lemma length_bind_pair {A} (f h : Z → A) (xs : list Z) :
  length (xs ≫= λ s, [f s; h s]) = (2 * length xs)%nat.
Proof.
  induction xs as [|x xs IH]; [done|].
  rewrite bind_cons, length_app, IH. simpl. lia.
Qed.

Lemma length_factor_column base ld3 n scaling :
  0 ≤ n → Z.of_nat (length (factor_column GF base ld3 n scaling)) = 2 * n.
Proof.
  intros Hn. unfold factor_column. rewrite length_bind_pair, length_seqZ. lia.
Qed.

Lemma loop_writes (W : Z → list (Z * real)) (body : Z → Z → run Z)
    (n stride gfp0 : Z) (len : nat) :
  (∀ i SB G, 0 ≤ i < n → Z.of_nat (length SB) = 2 * d → length G = len →
     ∃ SB', Z.of_nat (length SB') = 2 * d ∧
       body i (gfp0 + stride * i) (st SB G)
       = Done (gfp0 + stride * (i + 1)) (st SB' (apply_writes (W i) G))) →
  ∀ SB G, Z.of_nat (length SB) = 2 * d → length G = len →
  ∃ SB', Z.of_nat (length SB') = 2 * d ∧
    for_each (range 0 n) body gfp0 (st SB G)
    = Done (gfp0 + stride * Z.max 0 n) (st SB' (apply_writes (range 0 n ≫= W) G)).
Proof.
  intros Hbody SB G HSB HG. unfold range. rewrite Z.sub_0_r.
  destruct (Z.le_gt_cases n 0) as [Hn|Hn].
  { rewrite seqZ_nil by done. exists SB. split; [done|]. simpl. unfold ret.
    by rewrite Z.max_l, Z.mul_0_r, Z.add_0_r by done. }
  rewrite Z.max_r by lia.
  assert (Hind : ∀ m : nat, Z.of_nat m ≤ n →
    ∃ SB', Z.of_nat (length SB') = 2 * d ∧
      for_each (seqZ 0 (Z.of_nat m)) body gfp0 (st SB G)
      = Done (gfp0 + stride * Z.of_nat m)
             (st SB' (apply_writes (seqZ 0 (Z.of_nat m) ≫= W) G))).
  { induction m as [|m IH]; intros Hm.
    - exists SB. split; [done|]. simpl. unfold ret.
      by rewrite Z.mul_0_r, Z.add_0_r.
    - destruct (IH ltac:(lia)) as (SB1 & HSB1 & E1).
      destruct (Hbody (Z.of_nat m) SB1 (apply_writes (seqZ 0 (Z.of_nat m) ≫= W) G)
                  ltac:(lia) HSB1 ltac:(by rewrite length_apply_writes))
        as (SB2 & HSB2 & E2).
      exists SB2. split; [done|].
      rewrite seqZ_S, for_each_app. rewrite (bind_Done _ _ _ _ _ E1).
      cbn [for_each]. rewrite (bind_Done _ _ _ _ _ E2). unfold ret.
      rewrite bind_app, apply_writes_app. simpl. rewrite app_nil_r.
      do 2 f_equal. lia. }
  destruct (Hind (Z.to_nat n) ltac:(lia)) as (SB' & HSB' & E).
  rewrite Z2Nat.id in E by lia. eauto.
Qed.


Variables (L a M R : Z).
Hypothesis Hlat : lattice L a M.
Hypothesis HR : 0 < R.
Hypothesis Hd : d = lat_d L a M.
Hypothesis HGF : 2 * (L * R) ≤ Z.of_nat (length GF).

Local Abbreviation pl := (derived_plan L a M (Some sb) (Some fp)).
Local Abbreviation c := (lat_c a M).
Local Abbreviation p := (lat_p a M).
Local Abbreviation q := (lat_q a M).

Lemma slot_base_range r w l k :
  0 ≤ r < c → 0 ≤ w < R → 0 ≤ l < q → 0 ≤ k < p →
  0 ≤ slot_base p q R r w l k < c * p * q * R.
Proof.
  intros Hr Hw Hl Hk. unfold slot_base.
  assert (0 ≤ w + R * r ≤ R * c - 1) by nia.
  assert (0 ≤ l + q * (w + R * r) ≤ q * (R * c) - 1) by nia.
  assert (0 ≤ k + p * (l + q * (w + R * r)) ≤ p * (q * (R * c)) - 1) by nia.
  lia.
Qed.

Lemma iwfac_slot_spec t r w l k SB G :
  0 ≤ r < c → 0 ≤ w < R → 0 ≤ l < q → 0 ≤ k < p →
  Z.of_nat (length SB) = 2 * d →
  lanes t * (L * R) ≤ Z.of_nat (length G) →
  iwfac_slot t pl (Some gf) (Some g) R r w l k (2 * slot_base p q R r w l k) (st SB G)
  = Done (2 * slot_base p q R r w l k + 2)
      (st (slot_out pl R GF r w l k)
          (apply_writes (slot_writes t pl r w l k (slot_out pl R GF r w l k)) G)).
Proof.
  intros Hr Hw Hl Hk HSB HG.
  destruct (lattice_facts L a M Hlat) as (Hc & Hp & Hq & Hb & Hd0 & Ea & Em & Eb & EL & Hg).
  pose proof (slot_base_range r w l k Hr Hw Hl Hk) as Hbase.
  assert (HL : 0 < L) by apply Hlat.
  assert (ELR : L * R = lat_d L a M * (c * p * q * R)) by (rewrite EL at 1; ring).
  unfold iwfac_slot. cbn [plan_L plan_M plan_a plan_c plan_p plan_q plan_d
    plan_sbuf plan_p_before plan_scaling derived_plan].
  destruct (Z.eqb_spec L 0) as [|_]; [lia|].
  unfold bind at 1, ret at 1. cbv beta iota.
  rewrite <- Hd.
  erewrite bind_Done; cycle 1.
  { apply iwfac_load_spec; lia. }
  erewrite bind_Done; cycle 1.
  { apply fftw_execute_sb. apply length_factor_column. lia. }
  erewrite bind_Done; cycle 1.
  { apply (iwfac_write_spec t pl r w l k d).
    - simpl. lia.
    - lia.
    - rewrite Hfft by (apply length_factor_column; lia).
      rewrite length_factor_column by lia. lia.
    - intros s Hs. cbn [plan_L plan_M plan_a plan_p derived_plan].
      pose proof (out_index_range L a M c p q (lat_d L a M) Hc Hp Hq Hd0 Ea Em EL R r w l k s
        Hr Hw ltac:(lia)) as Hrange.
      revert Hrange HG. generalize (out_index a M L p r w l k s), (L * R).
      unfold lanes. intros; destruct t; lia. }
  unfold ret, slot_out, slot_writes.
  cbn [plan_L plan_M plan_a plan_c plan_p plan_q plan_d plan_scaling derived_plan].
  by rewrite <- Hd.
Qed.


Local Abbreviation W t r w l k := (slot_writes t pl r w l k (slot_out pl R GF r w l k)).

Lemma iwfac_loop_k t r w l SB G :
  0 ≤ r < c → 0 ≤ w < R → 0 ≤ l < q →
  Z.of_nat (length SB) = 2 * d →
  lanes t * (L * R) ≤ Z.of_nat (length G) →
  ∃ SB', Z.of_nat (length SB') = 2 * d ∧
    for_each (range 0 p) (λ k, iwfac_slot t pl (Some gf) (Some g) R r w l k)
      (2 * slot_base p q R r w l 0) (st SB G)
    = Done (2 * slot_base p q R r w (l + 1) 0)
        (st SB' (apply_writes (range 0 p ≫= λ k, W t r w l k) G)).
Proof.
  intros Hr Hw Hl HSB HG.
  destruct (lattice_facts L a M Hlat) as (Hc & Hp & Hq & _).
  destruct (loop_writes (λ k, W t r w l k)
    (λ k, iwfac_slot t pl (Some gf) (Some g) R r w l k)
    p 2 (2 * slot_base p q R r w l 0) (length G)) with (SB := SB) (G := G)
    as (SB' & HSB' & E); [|done..|].
  - intros k SB1 G1 Hk HSB1 HG1. exists (slot_out pl R GF r w l k). split; cycle 1.
    + replace (2 * slot_base p q R r w l 0 + 2 * k)
        with (2 * slot_base p q R r w l k) by (unfold slot_base; ring).
      rewrite iwfac_slot_spec by (done || lia). f_equal.
      unfold slot_base; ring.
    + pose proof (lattice_facts L a M Hlat).
      unfold slot_out. cbn [plan_d derived_plan]. rewrite <- Hd.
      rewrite Hfft by (apply length_factor_column; lia).
      apply length_factor_column. lia.
  - exists SB'. split; [done|]. rewrite E. f_equal.
    unfold slot_base. lia.
Qed.

Lemma iwfac_loop_l t r w SB G :
  0 ≤ r < c → 0 ≤ w < R →
  Z.of_nat (length SB) = 2 * d →
  lanes t * (L * R) ≤ Z.of_nat (length G) →
  ∃ SB', Z.of_nat (length SB') = 2 * d ∧
    for_each (range 0 q) (λ l,
      for_each (range 0 p) (λ k, iwfac_slot t pl (Some gf) (Some g) R r w l k))
      (2 * slot_base p q R r w 0 0) (st SB G)
    = Done (2 * slot_base p q R r (w + 1) 0 0)
        (st SB' (apply_writes
           (range 0 q ≫= λ l, range 0 p ≫= λ k, W t r w l k) G)).
Proof.
  intros Hr Hw HSB HG.
  destruct (lattice_facts L a M Hlat) as (Hc & Hp & Hq & _).
  destruct (loop_writes (λ l, range 0 p ≫= λ k, W t r w l k)
    (λ l, for_each (range 0 p) (λ k, iwfac_slot t pl (Some gf) (Some g) R r w l k))
    q (2 * p) (2 * slot_base p q R r w 0 0) (length G)) with (SB := SB) (G := G)
    as (SB' & HSB' & E); [|done..|].
  - intros l SB1 G1 Hl HSB1 HG1.
    destruct (iwfac_loop_k t r w l SB1 G1) as (SB2 & HSB2 & E2); [done..|lia|].
    exists SB2. split; [done|].
    replace (2 * slot_base p q R r w 0 0 + 2 * p * l)
      with (2 * slot_base p q R r w l 0) by (unfold slot_base; ring).
    rewrite E2. f_equal. unfold slot_base; ring.
  - exists SB'. split; [done|]. rewrite E. f_equal.
    unfold slot_base. lia.
Qed.

Lemma iwfac_loop_w t r SB G :
  0 ≤ r < c →
  Z.of_nat (length SB) = 2 * d →
  lanes t * (L * R) ≤ Z.of_nat (length G) →
  ∃ SB', Z.of_nat (length SB') = 2 * d ∧
    for_each (range 0 R) (λ w, for_each (range 0 q) (λ l,
      for_each (range 0 p) (λ k, iwfac_slot t pl (Some gf) (Some g) R r w l k)))
      (2 * slot_base p q R r 0 0 0) (st SB G)
    = Done (2 * slot_base p q R (r + 1) 0 0 0)
        (st SB' (apply_writes
           (range 0 R ≫= λ w, range 0 q ≫= λ l, range 0 p ≫= λ k, W t r w l k) G)).
Proof.
  intros Hr HSB HG.
  destruct (loop_writes (λ w, range 0 q ≫= λ l, range 0 p ≫= λ k, W t r w l k)
    (λ w, for_each (range 0 q) (λ l,
       for_each (range 0 p) (λ k, iwfac_slot t pl (Some gf) (Some g) R r w l k)))
    R (2 * (p * q)) (2 * slot_base p q R r 0 0 0) (length G)) with (SB := SB) (G := G)
    as (SB' & HSB' & E); [|done..|].
  - intros w SB1 G1 Hw HSB1 HG1.
    destruct (iwfac_loop_l t r w SB1 G1) as (SB2 & HSB2 & E2); [done..|lia|].
    exists SB2. split; [done|].
    replace (2 * slot_base p q R r 0 0 0 + 2 * (p * q) * w)
      with (2 * slot_base p q R r w 0 0) by (unfold slot_base; ring).
    rewrite E2. f_equal. unfold slot_base; ring.
  - exists SB'. split; [done|]. rewrite E. f_equal.
    unfold slot_base. lia.
Qed.

Lemma iwfac_loop_r t SB G :
  Z.of_nat (length SB) = 2 * d →
  lanes t * (L * R) ≤ Z.of_nat (length G) →
  ∃ SB', Z.of_nat (length SB') = 2 * d ∧
    for_each (range 0 c) (λ r, for_each (range 0 R) (λ w, for_each (range 0 q) (λ l,
      for_each (range 0 p) (λ k, iwfac_slot t pl (Some gf) (Some g) R r w l k))))
      0 (st SB G)
    = Done (2 * (c * p * q * R)) (st SB' (iwfac_value t pl R GF G)).
Proof.
  intros HSB HG.
  destruct (lattice_facts L a M Hlat) as (Hc & Hp & Hq & _).
  destruct (loop_writes
    (λ r, range 0 R ≫= λ w, range 0 q ≫= λ l, range 0 p ≫= λ k, W t r w l k)
    (λ r, for_each (range 0 R) (λ w, for_each (range 0 q) (λ l,
       for_each (range 0 p) (λ k, iwfac_slot t pl (Some gf) (Some g) R r w l k))))
    c (2 * (p * q * R)) 0 (length G)) with (SB := SB) (G := G)
    as (SB' & HSB' & E); [|done..|].
  - intros r SB1 G1 Hr HSB1 HG1.
    destruct (iwfac_loop_w t r SB1 G1) as (SB2 & HSB2 & E2); [done..|lia|].
    exists SB2. split; [done|].
    replace (0 + 2 * (p * q * R) * r)
      with (2 * slot_base p q R r 0 0 0) by (unfold slot_base; ring).
    rewrite E2. f_equal. unfold slot_base; ring.
  - exists SB'. split; [done|]. rewrite E. f_equal. lia.
Qed.

End Exec.

Section ExecTop.
Context {real : Type} `{!RealOps real, !FftBackend real, !Collaborators real}.
Implicit Types (σ : @state real) (v SB G GF : list real).

Lemma with_arrays_id σ sb g SB G :
  mem σ !! sb = Some (Lanes SB) → mem σ !! g = Some (Lanes G) →
  with_arrays σ sb g SB G = σ.
Proof.
  intros Hsb Hg. unfold with_arrays.
  rewrite (insert_id (mem σ) g) by done. rewrite insert_id by done.
  apply set_mem_id.
Qed.

Lemma iwfac_execute_ready t L a M R plan gf g sb fp GF G σ :
  fft_in_place →
  exec_ready t L a M R plan gf g sb fp GF G σ →
  ∃ SB', Z.of_nat (length SB') = 2 * lat_d L a M ∧
    iwfac_execute t (Some plan) (Some gf) R (Some g) σ
    = Done LTFATERR_SUCCESS
        (with_arrays σ sb g SB'
           (iwfac_value t (derived_plan L a M (Some sb) (Some fp)) R GF G)).
Proof.
  intros Hfft [Hlat HR Hplan Hfp (SB & Hsb & HSB) Hgf HGF Hg HG Hgf_sb Hg_sb Hgf_g].
  assert (fp ≠ sb) by congruence. assert (fp ≠ g) by congruence.
  destruct (iwfac_loop_r σ gf g sb fp GF (lat_d L a M) Hgf Hfp Hgf_sb Hgf_g Hg_sb
    ltac:(done) ltac:(done) Hfft L a M R Hlat HR eq_refl HGF t SB G HSB HG)
    as (SB' & HSB' & E).
  exists SB'. split; [done|].
  unfold iwfac_execute. destruct (Z.ltb_spec 0 R); [|lia]. cbn [negb].
  unfold bind at 1. unfold read_plan. rewrite Hplan.
  rewrite (with_arrays_id σ sb g SB G) in E by done.
  cbn [plan_c plan_p plan_q derived_plan].
  by rewrite (bind_Done _ _ _ _ _ E).
Qed.

End ExecTop.

(** ** The lanes written by [iwfac_execute] *)

Lemma NoDup_fmap_bind {A B C} (h : B → C) (f : A → list B) (l : list A) :
  (∀ x, x ∈ l → NoDup (h <$> f x)) →
  (∀ x1 x2 y1 y2, x1 ∈ l → x2 ∈ l → y1 ∈ f x1 → y2 ∈ f x2 → h y1 = h y2 → x1 = x2) →
  NoDup l →
  NoDup (h <$> (l ≫= f)).
Proof.
  intros Hin Hdisj Hnd. induction Hnd as [|x l Hx Hnd IH]; [constructor|].
  rewrite bind_cons, fmap_app. apply NoDup_app. split; [|split].
  - apply Hin. left.
  - intros z Hz1 Hz2.
    apply list_elem_of_fmap in Hz1 as (y1 & -> & Hy1).
    apply list_elem_of_fmap in Hz2 as (y2 & E & Hy2).
    apply list_elem_of_bind in Hy2 as (x2 & Hy2 & Hx2).
    assert (x = x2) as <-; [|done].
    apply (Hdisj x x2 y1 y2); [left|by right|done..].
  - apply IH.
    + intros x' Hx'. apply Hin. by right.
    + intros x1 x2 y1 y2 H1 H2. apply Hdisj; by right.
Qed.

Lemma length_bind_const {A B} (f : A → list B) (l : list A) (n : nat) :
  (∀ x, x ∈ l → length (f x) = n) → length (l ≫= f) = (length l * n)%nat.
Proof.
  induction l as [|x l IH]; intros Hf; [done|].
  rewrite bind_cons, length_app, IH, Hf; [simpl; lia|left|].
  intros x' Hx'. apply Hf. by right.
Qed.

Lemma length_bind_seqZ {A} (f : Z → list A) (n m : Z) :
  0 ≤ n → 0 ≤ m →
  (∀ y, 0 ≤ y < n → Z.of_nat (length (f y)) = m) →
  Z.of_nat (length (seqZ 0 n ≫= f)) = n * m.
Proof.
  intros Hn Hm Hlen. rewrite (length_bind_const _ _ (Z.to_nat m)).
  - rewrite length_seqZ. lia.
  - intros y Hy. apply elem_of_seqZ in Hy. specialize (Hlen y ltac:(lia)). lia.
Qed.

Lemma lookup_bind_seqZ {A} (f : Z → list A) (n m x i : Z) :
  (∀ y, 0 ≤ y < n → Z.of_nat (length (f y)) = m) →
  0 ≤ x < n → 0 ≤ i < m →
  (seqZ 0 n ≫= f) !! Z.to_nat (x * m + i) = f x !! Z.to_nat i.
Proof.
  intros Hlen Hx Hi. rewrite <- (Z2Nat.id n) in * by lia.
  induction (Z.to_nat n) as [|k IH]; [lia|].
  rewrite seqZ_S, bind_app. simpl. rewrite app_nil_r.
  assert (Hk : length (seqZ 0 (Z.of_nat k) ≫= f) = Z.to_nat (Z.of_nat k * m)).
  { rewrite (length_bind_const _ _ (Z.to_nat m)).
    - rewrite length_seqZ. rewrite <- Z2Nat.inj_mul by lia. done.
    - intros y Hy. apply elem_of_seqZ in Hy. specialize (Hlen y ltac:(lia)). lia. }
  destruct (decide (x = Z.of_nat k)) as [->|Hne].
  - rewrite lookup_app_r by (rewrite Hk; nia). rewrite Hk. f_equal. nia.
  - rewrite lookup_app_l by (rewrite Hk; nia). apply IH; [|lia].
    intros y Hy. apply Hlen. lia.
Qed.

Lemma NoDup_full (l : list nat) (n : nat) :
  NoDup l → (∀ i, i ∈ l → (i < n)%nat) → length l = n →
  ∀ i, (i < n)%nat → i ∈ l.
Proof.
  intros Hnd Hlt Hlen i Hi.
  assert (Hsub : l ⊆+ seq 0 n).
  { apply NoDup_submseteq; [done|]. intros x Hx. apply elem_of_seq. specialize (Hlt x Hx). lia. }
  apply submseteq_length_Permutation in Hsub; [|rewrite length_seq; lia].
  rewrite Hsub. apply elem_of_seq. lia.
Qed.

Section Targets.
Context {real : Type} `{!RealOps real, !FftBackend real, !Collaborators real}.
Implicit Types (σ : @state real) (v SB G GF out : list real).
Variables (L a M R : Z) (sb fp : ptr).
Hypothesis Hlat : lattice L a M.

Local Abbreviation pl := (derived_plan L a M sb fp).
Local Abbreviation c := (lat_c a M).
Local Abbreviation p := (lat_p a M).
Local Abbreviation q := (lat_q a M).
Local Abbreviation d := (lat_d L a M).

Lemma write_at_elem t r w l k out s y :
  y ∈ write_at t pl r w l k out s →
  ∃ e, 0 ≤ e < lanes t ∧ y.1 = lanes t * out_index a M L p r w l k s + e ∧
       y.2 = lane out (2 * s + e).
Proof.
  unfold write_at. cbn [plan_a plan_M plan_L plan_p derived_plan].
  destruct t; cbn [lanes]; intros Hy.
  - apply list_elem_of_singleton in Hy as ->. exists 0. simpl.
    split; [lia|]. split; [lia|]. by rewrite Z.add_0_r.
  - apply elem_of_cons in Hy as [->|Hy].
    + exists 0. simpl. split; [lia|]. split; [lia|]. by rewrite Z.add_0_r.
    + apply list_elem_of_singleton in Hy as ->. exists 1. simpl. split; [lia|]. done.
Qed.

Lemma write_at_target_inj t r w l k out s y r' w' l' k' out' s' y' :
  y ∈ write_at t pl r w l k out s →
  y' ∈ write_at t pl r' w' l' k' out' s' →
  target y = target y' →
  0 ≤ r < c → 0 ≤ w < R → 0 ≤ l < q → 0 ≤ k < p → 0 ≤ s < d →
  0 ≤ r' < c → 0 ≤ w' < R → 0 ≤ l' < q → 0 ≤ k' < p → 0 ≤ s' < d →
  r = r' ∧ w = w' ∧ l = l' ∧ k = k' ∧ s = s' ∧ y.1 = y'.1.
Proof.
  intros Hy Hy' E Hr Hw Hl Hk Hs Hr' Hw' Hl' Hk' Hs'.
  destruct (lattice_facts L a M Hlat) as (Hc & Hp & Hq & Hb & Hd0 & Ea & Em & Eb & EL & Hg).
  apply write_at_elem in Hy as (e & He & Ey & _).
  apply write_at_elem in Hy' as (e' & He' & Ey' & _).
  pose proof (out_index_range L a M c p q d Hc Hp Hq Hd0 Ea Em EL R r w l k s
    Hr Hw ltac:(lia)) as Hrg.
  pose proof (out_index_range L a M c p q d Hc Hp Hq Hd0 Ea Em EL R r' w' l' k' s'
    Hr' Hw' ltac:(lia)) as Hrg'.
  unfold target in E. rewrite Ey, Ey' in E.
  assert (Eo : out_index a M L p r w l k s = out_index a M L p r' w' l' k' s').
  { revert E Hrg Hrg' He He'.
    generalize (out_index a M L p r w l k s), (out_index a M L p r' w' l' k' s').
    unfold lanes. intros; destruct t; lia. }
  destruct (out_index_inj L a M c p q d Hc Hp Hq Hd0 Ea Em EL Hg
    r w l k s r' w' l' k' s' Hr Hl Hk Hs Hr' Hl' Hk' Hs' Eo) as (-> & -> & -> & -> & ->).
  repeat split; try done. rewrite Ey, Ey'.
  revert E Hrg He He'. generalize (out_index a M L p r' w' l' k' s').
  unfold lanes. intros; destruct t; lia.
Qed.


Lemma write_at_NoDup t r w l k out s :
  0 ≤ r < c → 0 ≤ w < R → 0 ≤ s →
  NoDup (target <$> write_at t pl r w l k out s).
Proof.
  intros Hr Hw Hs.
  destruct (lattice_facts L a M Hlat) as (Hc & Hp & Hq & Hb & Hd0 & Ea & Em & Eb & EL & Hg).
  pose proof (out_index_range L a M c p q d Hc Hp Hq Hd0 Ea Em EL R r w l k s
    Hr Hw ltac:(lia)) as Hrg.
  unfold write_at. cbn [plan_a plan_M plan_L plan_p derived_plan].
  revert Hrg. generalize (out_index a M L p r w l k s). intros i Hi.
  destruct t; simpl.
  - apply NoDup_singleton.
  - apply NoDup_cons. split; [|apply NoDup_singleton].
    rewrite list_elem_of_singleton. unfold target. simpl. lia.
Qed.

Ltac peel_writes :=
  unfold slot_writes in *;
  repeat match goal with
  | H : _ ∈ _ ≫= _ |- _ => apply list_elem_of_bind in H as (? & H & ?)
  | H : _ ∈ range 0 _ |- _ => unfold range in H; apply elem_of_seqZ in H
  end;
  cbn [plan_c plan_p plan_q plan_d derived_plan] in *.

Lemma all_writes_NoDup t GF : NoDup (target <$> all_writes t pl R GF).
Proof.
  unfold all_writes.
  apply NoDup_fmap_bind; [| |apply NoDup_seqZ].
  2:{ intros r1 r2 y1 y2 ? ? Hy1 Hy2 E. peel_writes.
      destruct (write_at_target_inj _ _ _ _ _ _ _ _ _ _ _ _ _ _ _ Hy1 Hy2 E)
        as (?&?&?&?&?&?); (done || lia). }
  intros r Hr. apply NoDup_fmap_bind; [| |apply NoDup_seqZ].
  2:{ intros w1 w2 y1 y2 ? ? Hy1 Hy2 E. peel_writes.
      destruct (write_at_target_inj _ _ _ _ _ _ _ _ _ _ _ _ _ _ _ Hy1 Hy2 E)
        as (?&?&?&?&?&?); (done || lia). }
  intros w Hw. apply NoDup_fmap_bind; [| |apply NoDup_seqZ].
  2:{ intros l1 l2 y1 y2 ? ? Hy1 Hy2 E. peel_writes.
      destruct (write_at_target_inj _ _ _ _ _ _ _ _ _ _ _ _ _ _ _ Hy1 Hy2 E)
        as (?&?&?&?&?&?); (done || lia). }
  intros l Hl. apply NoDup_fmap_bind; [| |apply NoDup_seqZ].
  2:{ intros k1 k2 y1 y2 ? ? Hy1 Hy2 E. peel_writes.
      destruct (write_at_target_inj _ _ _ _ _ _ _ _ _ _ _ _ _ _ _ Hy1 Hy2 E)
        as (?&?&?&?&?&?); (done || lia). }
  intros k Hk. unfold slot_writes. apply NoDup_fmap_bind; [| |apply NoDup_seqZ].
  2:{ intros s1 s2 y1 y2 ? ? Hy1 Hy2 E. peel_writes.
      destruct (write_at_target_inj _ _ _ _ _ _ _ _ _ _ _ _ _ _ _ Hy1 Hy2 E)
        as (?&?&?&?&?&?); (done || lia). }
  intros s Hs. peel_writes. apply write_at_NoDup; lia.
Qed.

Lemma all_writes_elem t GF r w l k s y :
  0 ≤ r < c → 0 ≤ w < R → 0 ≤ l < q → 0 ≤ k < p → 0 ≤ s < d →
  y ∈ write_at t pl r w l k (slot_out pl R GF r w l k) s →
  y ∈ all_writes t pl R GF.
Proof.
  intros Hr Hw Hl Hk Hs Hy. unfold all_writes, slot_writes, range.
  cbn [plan_c plan_p plan_q plan_d derived_plan].
  apply list_elem_of_bind. exists r. split; [|apply elem_of_seqZ; lia].
  apply list_elem_of_bind. exists w. split; [|apply elem_of_seqZ; lia].
  apply list_elem_of_bind. exists l. split; [|apply elem_of_seqZ; lia].
  apply list_elem_of_bind. exists k. split; [|apply elem_of_seqZ; lia].
  apply list_elem_of_bind. exists s. split; [done|apply elem_of_seqZ; lia].
Qed.

Lemma all_writes_inv t GF y :
  y ∈ all_writes t pl R GF →
  ∃ r w l k s, 0 ≤ r < c ∧ 0 ≤ w < R ∧ 0 ≤ l < q ∧ 0 ≤ k < p ∧ 0 ≤ s < d ∧
    y ∈ write_at t pl r w l k (slot_out pl R GF r w l k) s.
Proof.
  unfold all_writes. intros Hy. peel_writes.
  eexists _, _, _, _, _. repeat split; [..|exact Hy]; lia.
Qed.

Lemma all_writes_range t GF y :
  0 < R → y ∈ all_writes t pl R GF → 0 ≤ y.1 < lanes t * (L * R).
Proof.
  intros HR Hy. unfold all_writes in Hy. peel_writes.
  destruct (lattice_facts L a M Hlat) as (Hc & Hp & Hq & Hb & Hd0 & Ea & Em & Eb & EL & Hg).
  apply write_at_elem in Hy as (e & He & -> & _).
  match goal with |- context [out_index a M L p ?r ?w ?l ?k ?s] =>
    pose proof (out_index_range L a M c p q d Hc Hp Hq Hd0 Ea Em EL R r w l k s
      ltac:(lia) ltac:(lia) ltac:(lia)) as Hrg; revert Hrg He;
    generalize (out_index a M L p r w l k s), (L * R) end.
  unfold lanes. intros; destruct t; lia.
Qed.


Lemma length_write_at t r w l k out s :
  length (write_at t pl r w l k out s) = Z.to_nat (lanes t).
Proof. unfold write_at. by destruct t. Qed.

Lemma length_all_writes t GF :
  0 < R → length (all_writes t pl R GF) = Z.to_nat (lanes t * (L * R)).
Proof.
  intros HR.
  destruct (lattice_facts L a M Hlat) as (Hc & Hp & Hq & Hb & Hd0 & Ea & Em & Eb & EL & Hg).
  unfold all_writes.
  rewrite (length_bind_const _ _ (Z.to_nat (R * (q * (p * (d * lanes t)))))).
  { unfold range. cbn [plan_c derived_plan]. rewrite length_seqZ.
    assert (Hn : 0 < lanes t) by (by destruct t).
    rewrite <- Z2Nat.inj_mul by nia. f_equal.
    enough (H : ∀ L' c' p' q' d' n, L' = d' * p' * q' * c' →
      (c' - 0) * (R * (q' * (p' * (d' * n)))) = n * (L' * R)) by (by apply H).
    intros; subst; ring. }
  intros r _. rewrite (length_bind_const _ _ (Z.to_nat (q * (p * (d * lanes t))))).
  { unfold range. rewrite length_seqZ.
    assert (Hn : 0 < lanes t) by (by destruct t).
    rewrite <- Z2Nat.inj_mul by nia. f_equal. ring. }
  intros w _. rewrite (length_bind_const _ _ (Z.to_nat (p * (d * lanes t)))).
  { unfold range. cbn [plan_q derived_plan]. rewrite length_seqZ.
    assert (Hn : 0 < lanes t) by (by destruct t).
    rewrite <- Z2Nat.inj_mul by nia. f_equal. ring. }
  intros l _. rewrite (length_bind_const _ _ (Z.to_nat (d * lanes t))).
  { unfold range. cbn [plan_p derived_plan]. rewrite length_seqZ.
    assert (Hn : 0 < lanes t) by (by destruct t).
    rewrite <- Z2Nat.inj_mul by nia. f_equal. ring. }
  intros k _. unfold slot_writes. rewrite (length_bind_const _ _ (Z.to_nat (lanes t))).
  { unfold range. cbn [plan_d derived_plan]. rewrite length_seqZ.
    assert (Hn : 0 < lanes t) by (by destruct t).
    rewrite <- Z2Nat.inj_mul by nia. f_equal. ring. }
  intros s _. apply length_write_at.
Qed.

Lemma all_writes_full t GF (i : nat) :
  0 < R → (i < Z.to_nat (lanes t * (L * R)))%nat →
  ∃ y, y ∈ all_writes t pl R GF ∧ target y = i.
Proof.
  intros HR Hi.
  assert (Hin : i ∈ target <$> all_writes t pl R GF).
  { apply (NoDup_full _ (Z.to_nat (lanes t * (L * R)))); [apply all_writes_NoDup| |
      by rewrite length_fmap, length_all_writes|done].
    intros j Hj. apply list_elem_of_fmap in Hj as (y & -> & Hy).
    apply all_writes_range in Hy; [|done]. unfold target. lia. }
  apply list_elem_of_fmap in Hin as (y & -> & Hy). eauto.
Qed.

Lemma iwfac_value_lookup t GF G y :
  0 < R → lanes t * (L * R) ≤ Z.of_nat (length G) →
  y ∈ all_writes t pl R GF →
  iwfac_value t pl R GF G !! target y = Some y.2.
Proof.
  intros HR HG Hy. unfold iwfac_value, target. destruct y as [j x].
  apply apply_writes_lookup; [apply all_writes_NoDup|done|].
  apply all_writes_range in Hy; [|done]. simpl in *. lia.
Qed.


Lemma iwfac_value_indep t GF G G' :
  0 < R → Z.of_nat (length G) = lanes t * (L * R) → length G' = length G →
  iwfac_value t pl R GF G = iwfac_value t pl R GF G'.
Proof.
  intros HR HG HG'. apply list_eq. intros i.
  destruct (decide (i < Z.to_nat (lanes t * (L * R)))%nat) as [Hi|Hi].
  - destruct (all_writes_full t GF i HR Hi) as (y & Hy & <-).
    rewrite !iwfac_value_lookup; try done; lia.
  - rewrite !lookup_ge_None_2; [done|..];
      unfold iwfac_value; rewrite length_apply_writes; lia.
Qed.

End Targets.

(** ** Plan life cycle: [iwfac_init], [iwfac_done], [iwfac] *)

Section Init.
Context {real : Type} `{!RealOps real, !FftBackend real, !Collaborators real}.
Implicit Types (σ : @state real) (v SB G GF out : list real) (m : gmap loc (@block real)).

Lemma fresh_None m : m !! fresh (dom m) = None.
Proof. apply not_elem_of_dom. apply is_fresh. Qed.

Lemma iwfac_init_notpos L a M fl h x σ :
  mem σ !! h = Some (Handle x) → a ≤ 0 ∨ M ≤ 0 →
  iwfac_init L a M fl (Some h) σ
  = Done LTFATERR_NOTPOSARG (set_mem (<[h := Handle None]> (mem σ)) σ).
Proof.
  intros Hh Hneg. unfold iwfac_init, iwfac_init_error.
  destruct (Z.ltb_spec 0 a); cbn [negb];
    [destruct (Z.ltb_spec 0 M); cbn [negb]; [lia|]|]; run_prims; by rewrite Hh.
Qed.

Lemma iwfac_init_badarg L a M fl h x σ :
  mem σ !! h = Some (Handle x) → 0 < a → 0 < M →
  ¬ (0 < L ∧ Z.rem L (ltfat_lcm a M) = 0) →
  iwfac_init L a M fl (Some h) σ
  = Done LTFATERR_BADARG (set_mem (<[h := Handle None]> (mem σ)) σ).
Proof.
  intros Hh Ha HM Hbad. unfold iwfac_init, iwfac_init_error.
  destruct (Z.ltb_spec 0 a); [|lia]. destruct (Z.ltb_spec 0 M); [|lia]. cbn [negb].
  destruct (lattice_split a M Ha HM) as (_ & _ & Hp & Hq & _ & Hlcm).
  pose proof (lattice_gcd_pos a M Ha HM).
  run_prims.
  destruct (Z.ltb_spec 0 L).
  - destruct (Z.eqb_spec (ltfat_lcm a M) 0); [nia|].
    destruct (Z.eqb_spec (L `rem` ltfat_lcm a M) 0); [tauto|]. simpl. by rewrite Hh.
  - simpl. by rewrite Hh.
Qed.

Lemma ok_at_drop o n i : ok_at (drop n o) i = ok_at o (n + i).
Proof. unfold ok_at. by rewrite lookup_drop. Qed.

Lemma acquire_spec m o tr :
  acquire {| mem := m; oracle := o; trace := tr |}
  = Done (ok_at o 0) {| mem := m; oracle := drop 1 o; trace := tr |}.
Proof. unfold acquire. simpl. by destruct o. Qed.

Lemma ltfat_malloc_spec n m o tr :
  ltfat_malloc n {| mem := m; oracle := o; trace := tr |}
  = if ok_at o 0
    then Done (Some (fresh (dom m)))
           {| mem := <[fresh (dom m) := Lanes (replicate (Z.to_nat n) runinit)]> m;
              oracle := drop 1 o; trace := tr ++ [EvMalloc (fresh (dom m)) n] |}
    else Done None {| mem := m; oracle := drop 1 o; trace := tr |}.
Proof.
  unfold ltfat_malloc. rewrite (bind_Done _ _ _ _ _ (acquire_spec m o tr)).
  by destruct (ok_at o 0).
Qed.

Lemma ltfat_calloc_plan_spec m o tr :
  ltfat_calloc_plan {| mem := m; oracle := o; trace := tr |}
  = if ok_at o 0
    then Done (Some (fresh (dom m)))
           {| mem := <[fresh (dom m) := PlanObj zero_plan]> m;
              oracle := drop 1 o; trace := tr ++ [EvCalloc (fresh (dom m))] |}
    else Done None {| mem := m; oracle := drop 1 o; trace := tr |}.
Proof.
  unfold ltfat_calloc_plan. rewrite (bind_Done _ _ _ _ _ (acquire_spec m o tr)).
  by destruct (ok_at o 0).
Qed.

Lemma fftw_plan_dft_1d_spec n b sign fl m o tr :
  fftw_plan_dft_1d n (Some b) sign fl {| mem := m; oracle := o; trace := tr |}
  = if ok_at o 0
    then Done (Some (fresh (dom m)))
           {| mem := <[fresh (dom m) := FftwPlan sign n b]> m;
              oracle := drop 1 o; trace := tr ++ [EvPlanCreate (fresh (dom m))] |}
    else Done None {| mem := m; oracle := drop 1 o; trace := tr |}.
Proof.
  unfold fftw_plan_dft_1d. rewrite (bind_Done _ _ _ _ _ (acquire_spec m o tr)).
  by destruct (ok_at o 0).
Qed.

Lemma write_plan_spec l pl pl0 m o tr :
  m !! l = Some (PlanObj pl0) →
  write_plan (Some l) pl {| mem := m; oracle := o; trace := tr |}
  = Done tt {| mem := <[l := PlanObj pl]> m; oracle := o; trace := tr |}.
Proof. intros H. unfold write_plan. simpl. by rewrite H. Qed.

Lemma read_plan_spec l pl m o tr :
  m !! l = Some (PlanObj pl) →
  read_plan (Some l) {| mem := m; oracle := o; trace := tr |}
  = Done pl {| mem := m; oracle := o; trace := tr |}.
Proof. intros H. unfold read_plan. simpl. by rewrite H. Qed.

Lemma write_handle_spec l p p0 m o tr :
  m !! l = Some (Handle p0) →
  write_handle (Some l) p {| mem := m; oracle := o; trace := tr |}
  = Done tt {| mem := <[l := Handle p]> m; oracle := o; trace := tr |}.
Proof. intros H. unfold write_handle. simpl. by rewrite H. Qed.

Lemma read_handle_spec l p m o tr :
  m !! l = Some (Handle p) →
  read_handle (Some l) {| mem := m; oracle := o; trace := tr |}
  = Done p {| mem := m; oracle := o; trace := tr |}.
Proof. intros H. unfold read_handle. simpl. by rewrite H. Qed.

Lemma ltfat_free_lanes l v m o tr :
  m !! l = Some (Lanes v) →
  ltfat_free (Some l) {| mem := m; oracle := o; trace := tr |}
  = Done tt {| mem := delete l m; oracle := o; trace := tr ++ [EvFree l] |}.
Proof. intros H. unfold ltfat_free. simpl. by rewrite H. Qed.

Lemma ltfat_free_plan l pl m o tr :
  m !! l = Some (PlanObj pl) →
  ltfat_free (Some l) {| mem := m; oracle := o; trace := tr |}
  = Done tt {| mem := delete l m; oracle := o; trace := tr ++ [EvFree l] |}.
Proof. intros H. unfold ltfat_free. simpl. by rewrite H. Qed.

Lemma fftw_destroy_plan_spec l sign n b m o tr :
  m !! l = Some (FftwPlan sign n b) →
  fftw_destroy_plan (Some l) {| mem := m; oracle := o; trace := tr |}
  = Done tt {| mem := delete l m; oracle := o; trace := tr ++ [EvPlanDestroy l] |}.
Proof. intros H. unfold fftw_destroy_plan. simpl. by rewrite H. Qed.

Lemma c_quot_nz x y σ : y ≠ 0 → c_quot x y σ = Done (Z.quot x y) σ.
Proof. intros H. unfold c_quot. by destruct (Z.eqb_spec y 0). Qed.

Lemma c_rem_nz x y σ : y ≠ 0 → c_rem x y σ = Done (Z.rem x y) σ.
Proof. intros H. unfold c_rem. by destruct (Z.eqb_spec y 0). Qed.

Lemma ltfat_free_null σ : ltfat_free None σ = Done tt σ.
Proof. reflexivity. Qed.

Lemma iwfac_init_error_none h x st m o tr :
  m !! h = Some (Handle x) →
  iwfac_init_error None (Some h) st {| mem := m; oracle := o; trace := tr |}
  = Done st {| mem := <[h := Handle None]> m; oracle := o; trace := tr |}.
Proof.
  intros Hh. unfold iwfac_init_error, bind, ret.
  by erewrite write_handle_spec by done.
Qed.

Lemma iwfac_init_error_plan h x plan pl st m o tr :
  m !! h = Some (Handle x) → m !! plan = Some (PlanObj pl) →
  plan_p_before pl = None → plan_sbuf pl = None →
  iwfac_init_error (Some plan) (Some h) st {| mem := m; oracle := o; trace := tr |}
  = Done st {| mem := <[h := Handle None]> (delete plan m); oracle := o;
               trace := tr ++ [EvFree plan] |}.
Proof.
  intros Hh Hplan Hpb Hsb. unfold iwfac_init_error, bind, ret.
  erewrite read_plan_spec by done. rewrite Hpb, Hsb. cbv beta iota.
  rewrite ltfat_free_null.
  erewrite ltfat_free_plan by done.
  by erewrite write_handle_spec by (by rewrite lookup_delete_ne by congruence).
Qed.

Lemma iwfac_init_error_sbuf h x plan pl sb v st m o tr :
  m !! h = Some (Handle x) → m !! plan = Some (PlanObj pl) →
  plan_p_before pl = None → plan_sbuf pl = Some sb → m !! sb = Some (Lanes v) →
  iwfac_init_error (Some plan) (Some h) st {| mem := m; oracle := o; trace := tr |}
  = Done st {| mem := <[h := Handle None]> (delete plan (delete sb m)); oracle := o;
               trace := tr ++ [EvFree sb; EvFree plan] |}.
Proof.
  intros Hh Hplan Hpb Hsb Hv. unfold iwfac_init_error, bind, ret.
  erewrite read_plan_spec by done. rewrite Hpb, Hsb.
  erewrite ltfat_free_lanes by done.
  erewrite ltfat_free_plan by (by rewrite lookup_delete_ne by congruence).
  erewrite write_handle_spec by (by rewrite !lookup_delete_ne by congruence).
  by rewrite <- app_assoc.
Qed.

Lemma iwfac_init_lattice L a M fl h x σ :
  mem σ !! h = Some (Handle x) → lattice L a M →
  ∃ plan sb fp,
    mem σ !! plan = None ∧ mem σ !! sb = None ∧ mem σ !! fp = None ∧
    plan ≠ sb ∧ plan ≠ fp ∧ sb ≠ fp ∧
    iwfac_init L a M fl (Some h) σ
    = Done (init_status (oracle σ)) (init_state L a M h plan sb fp σ).
Proof.
  intros Hh Hlat.
  destruct (lattice_facts L a M Hlat) as (Hc & Hp & Hq & Hb & Hd0 & Ea & Em & Eb & EL & Hg).
  destruct Hlat as [Ha HM HL Hdiv].
  destruct (lattice_split a M Ha HM) as (_ & _ & _ & _ & _ & Hlcm).
  destruct σ as [m o tr]. cbn [mem oracle trace] in *.
  pose (plan := fresh (dom m)).
  pose (sb := fresh (dom (<[plan := PlanObj (derived_plan L a M None None)]> m))).
  pose (fp := fresh (dom (<[plan := PlanObj (derived_plan L a M (Some sb) None)]>
                (<[sb := Lanes (replicate (Z.to_nat (2 * lat_d L a M)) runinit)]>
                   (<[plan := PlanObj (derived_plan L a M None None)]> m))))).
  assert (Hplan : m !! plan = None) by apply fresh_None.
  pose proof (fresh_None (<[plan := PlanObj (derived_plan L a M None None)]> m)) as Hsb.
  pose proof (fresh_None (<[plan := PlanObj (derived_plan L a M (Some sb) None)]>
                (<[sb := Lanes (replicate (Z.to_nat (2 * lat_d L a M)) runinit)]>
                   (<[plan := PlanObj (derived_plan L a M None None)]> m)))) as Hfp.
  fold sb in Hsb. fold sb fp in Hfp.
  assert (plan ≠ sb).
  { intros E. rewrite <- E in Hsb. by rewrite lookup_insert_eq in Hsb. }
  assert (plan ≠ fp).
  { intros E. rewrite <- E in Hfp. by rewrite lookup_insert_eq in Hfp. }
  assert (sb ≠ fp).
  { intros E. rewrite <- E in Hfp. by rewrite lookup_insert_ne, lookup_insert_eq in Hfp. }
  assert (Hsb' : m !! sb = None) by (by rewrite lookup_insert_ne in Hsb).
  assert (Hfp' : m !! fp = None) by (by rewrite !lookup_insert_ne in Hfp).
  assert (h ≠ plan) by congruence. assert (h ≠ sb) by congruence. assert (h ≠ fp) by congruence.
  exists plan, sb, fp. repeat (split; [done|]).
  clear Hsb Hfp.
  unfold iwfac_init, init_status, init_state.
  cbn [mem oracle trace].
  destruct (Z.ltb_spec 0 a); [|lia]. destruct (Z.ltb_spec 0 M); [|lia]. cbn [negb].
  destruct (Z.ltb_spec 0 L); [|lia].
  step ltac:(step ltac:(apply c_rem_nz; nia); reflexivity).
  rewrite Hdiv. cbn [Z.eqb negb].
  unfold bind at 1. rewrite ltfat_calloc_plan_spec. fold plan.
  destruct (ok_at o 0) eqn:Ho0; cbn [negb]; cbv beta iota.
  2:{ by erewrite iwfac_init_error_none. }
  step ltac:(apply c_quot_nz; lia).
  step ltac:(apply c_quot_nz; unfold lat_c in Hc; lia).
  step ltac:(apply c_quot_nz; unfold lat_c in Hc; lia).
  step ltac:(apply c_quot_nz; unfold lat_p, lat_c in Hp; lia).
  fold (lat_c a M) (lat_p a M) (lat_q a M) (lat_b L M) (lat_d L a M).
  step ltac:(eapply write_plan_spec; by rewrite lookup_insert_eq).
  rewrite insert_insert_eq. fold (derived_plan L a M None None).
  unfold bind at 1. rewrite ltfat_malloc_spec, ok_at_drop. cbn [Nat.add]. fold sb.
  destruct (ok_at o 1) eqn:Ho1; cbn [negb]; cbv beta iota.
  2:{ step ltac:(eapply write_plan_spec; by rewrite lookup_insert_eq).
      erewrite iwfac_init_error_plan; [|by mlookup|by mlookup|done..].
      f_equal. f_equal.
      - rewrite insert_insert_eq, delete_insert_eq, delete_id; done.
      - by rewrite drop_drop.
      - by rewrite <- app_assoc. }
  step ltac:(eapply write_plan_spec; by mlookup).
  fold (derived_plan L a M (Some sb) None).
  unfold bind at 1. rewrite drop_drop, fftw_plan_dft_1d_spec, ok_at_drop. cbn [Nat.add].
  fold fp.
  destruct (ok_at o 2) eqn:Ho2; cbn [negb]; cbv beta iota.
  2:{ step ltac:(eapply write_plan_spec; by mlookup).
      erewrite iwfac_init_error_sbuf; [|by mlookup|by mlookup|done|done|by mlookup].
      f_equal. f_equal.
      - apply map_eq. intros i. destruct (decide (i = h)) as [->|]; [by mlookup|].
        destruct (decide (i = plan)) as [->|]; [by mlookup|].
        destruct (decide (i = sb)) as [->|]; by mlookup.
      - by rewrite drop_drop.
      - by rewrite <- !app_assoc. }
  step ltac:(eapply write_plan_spec; by mlookup).
  fold (derived_plan L a M (Some sb) (Some fp)).
  step ltac:(eapply write_handle_spec; by mlookup).
  unfold ret. f_equal. f_equal.
  - apply map_eq. intros i. destruct (decide (i = h)) as [->|]; [by mlookup|].
    destruct (decide (i = plan)) as [->|]; [by mlookup|].
    destruct (decide (i = fp)) as [->|]; [by mlookup|].
    destruct (decide (i = sb)) as [->|]; by mlookup.
  - by rewrite drop_drop.
  - by rewrite <- !app_assoc.
Qed.

Lemma push_handle_spec p m o tr :
  push_handle p {| mem := m; oracle := o; trace := tr |}
  = Done (fresh (dom m)) {| mem := <[fresh (dom m) := Handle p]> m; oracle := o; trace := tr |}.
Proof. reflexivity. Qed.

Lemma pop_handle_spec l p m o tr :
  m !! l = Some (Handle p) →
  pop_handle l {| mem := m; oracle := o; trace := tr |}
  = Done tt {| mem := delete l m; oracle := o; trace := tr |}.
Proof. intros H. unfold pop_handle. simpl. by rewrite H. Qed.

Lemma iwfac_done_spec h plan pl sb fp sign n b v m o tr :
  m !! h = Some (Handle (Some plan)) → m !! plan = Some (PlanObj pl) →
  plan_p_before pl = Some fp → plan_sbuf pl = Some sb →
  m !! fp = Some (FftwPlan sign n b) → m !! sb = Some (Lanes v) →
  iwfac_done (Some h) {| mem := m; oracle := o; trace := tr |}
  = Done LTFATERR_SUCCESS
      {| mem := <[h := Handle None]> (delete plan (delete sb (delete fp m)));
         oracle := o; trace := tr ++ [EvPlanDestroy fp; EvFree sb; EvFree plan] |}.
Proof.
  intros Hh Hplan Hpb Hsb Hfp Hv. unfold iwfac_done, bind, ret.
  erewrite read_handle_spec by done. cbv beta iota.
  erewrite read_plan_spec by done. rewrite Hpb, Hsb.
  erewrite fftw_destroy_plan_spec by done.
  erewrite ltfat_free_lanes by (by mlookup).
  erewrite ltfat_free_plan by (by mlookup).
  erewrite write_handle_spec by (by mlookup).
  by rewrite <- !app_assoc.
Qed.

Lemma iwfac_done_again h m o tr :
  m !! h = Some (Handle None) →
  iwfac_done (Some h) {| mem := m; oracle := o; trace := tr |}
  = Done LTFATERR_NULLPOINTER {| mem := m; oracle := o; trace := tr |}.
Proof.
  intros Hh. unfold iwfac_done, bind, ret. by erewrite read_handle_spec by done.
Qed.


Lemma iwfac_value_plan t L a M sb fp R GF G :
  iwfac_value t (derived_plan L a M sb fp) R GF G
  = iwfac_value t (derived_plan L a M None None) R GF G.
Proof. reflexivity. Qed.

Lemma iwfac_spec t L a M R gf g GF G σ :
  fft_in_place → lattice L a M → 0 < R →
  mem σ !! gf = Some (Lanes GF) → 2 * (L * R) ≤ Z.of_nat (length GF) →
  mem σ !! g = Some (Lanes G) → lanes t * (L * R) ≤ Z.of_nat (length G) →
  gf ≠ g →
  ∃ plan sb fp,
    iwfac t (Some gf) L R a M (Some g) σ
    = Done (init_status (oracle σ))
        {| mem := if is_error (init_status (oracle σ)) then mem σ
                  else <[g := Lanes (iwfac_value t (derived_plan L a M None None) R GF G)]>
                         (mem σ);
           oracle := drop (iwfac_consumed (oracle σ)) (oracle σ);
           trace := trace σ ++ iwfac_events (lat_d L a M) plan sb fp (oracle σ) |}.
Proof.
  intros Hfft Hlat HR Hgf HGF Hg HG Hne.
  destruct σ as [m o tr]. cbn [mem oracle trace] in *.
  pose proof (fresh_None m) as Hh. set (h := fresh (dom m)) in Hh.
  destruct (iwfac_init_lattice L a M FFTW_MEASURE h None
    {| mem := <[h := Handle None]> m; oracle := o; trace := tr |})
    as (plan & sb & fp & Hplan & Hsb & Hfp & Hps & Hpf & Hsf & E);
    [by cbn; mlookup|done|].
  cbn [mem] in Hplan, Hsb, Hfp.
  assert (h ≠ plan) by (intros <-; by rewrite lookup_insert_eq in Hplan).
  assert (h ≠ sb) by (intros <-; by rewrite lookup_insert_eq in Hsb).
  assert (h ≠ fp) by (intros <-; by rewrite lookup_insert_eq in Hfp).
  rewrite lookup_insert_ne in Hplan, Hsb, Hfp by done.
  assert (h ≠ gf) by congruence. assert (h ≠ g) by congruence.
  assert (plan ≠ gf) by congruence. assert (plan ≠ g) by congruence.
  assert (sb ≠ gf) by congruence. assert (sb ≠ g) by congruence.
  assert (fp ≠ gf) by congruence. assert (fp ≠ g) by congruence.
  exists plan, sb, fp.
  unfold iwfac. step ltac:(apply push_handle_spec). fold h.
  step ltac:(exact E).
  unfold init_status, init_state, iwfac_consumed, iwfac_events. cbn [mem oracle trace].
  destruct (ok_at o 0); cbn [negb is_error].
  2:{ step ltac:(reflexivity).
      step ltac:(eapply read_handle_spec; by mlookup). cbv beta iota.
      step ltac:(reflexivity).
      step ltac:(eapply pop_handle_spec; by mlookup).
      unfold ret. f_equal. f_equal; [|by rewrite app_nil_r].
      rewrite insert_insert_eq, delete_insert_eq, delete_id; done. }
  destruct (ok_at o 1); cbn [negb is_error].
  2:{ step ltac:(reflexivity).
      step ltac:(eapply read_handle_spec; by mlookup). cbv beta iota.
      step ltac:(reflexivity).
      step ltac:(eapply pop_handle_spec; by mlookup).
      unfold ret. f_equal. f_equal.
      rewrite insert_insert_eq, delete_insert_eq, delete_id; done. }
  destruct (ok_at o 2); cbn [negb is_error].
  2:{ step ltac:(reflexivity).
      step ltac:(eapply read_handle_spec; by mlookup). cbv beta iota.
      step ltac:(reflexivity).
      step ltac:(eapply pop_handle_spec; by mlookup).
      unfold ret. f_equal. f_equal.
      rewrite insert_insert_eq, delete_insert_eq, delete_id; done. }
  match goal with |- _ ?s = _ => set (σi := s) end.
  destruct (iwfac_execute_ready t L a M R plan gf g sb fp GF G σi Hfft)
    as (SB' & HSB' & Ex).
  { split; try done; try congruence; try (unfold σi; cbn [mem]; by mlookup).
    eexists. split; [unfold σi; cbn [mem]; by mlookup|].
    rewrite length_replicate. pose proof (lattice_facts L a M Hlat). lia. }
  step ltac:(step ltac:(unfold σi; eapply read_handle_spec; by mlookup); exact Ex).
  unfold σi, with_arrays, set_mem. cbn [mem oracle trace].
  step ltac:(eapply read_handle_spec; by mlookup). cbv beta iota.
  step ltac:(step ltac:(eapply iwfac_done_spec;
    [by mlookup|by mlookup|reflexivity|reflexivity|by mlookup|by mlookup]); reflexivity).
  step ltac:(eapply pop_handle_spec; by mlookup).
  unfold ret. f_equal. f_equal; [|by rewrite <- app_assoc].
  rewrite iwfac_value_plan.
  apply map_eq. intros i.
  destruct (decide (i = h)) as [->|]; [by mlookup|].
  destruct (decide (i = plan)) as [->|]; [by mlookup|].
  destruct (decide (i = sb)) as [->|]; [by mlookup|].
  destruct (decide (i = fp)) as [->|]; [by mlookup|].
  destruct (decide (i = g)) as [->|]; by mlookup.
Qed.

End Init.

(** ** The drivers: [gabdual_long], [gabdual_fir] *)

Section Gabdual.
Context {real : Type} `{!RealOps real, !FftBackend real, !Collaborators real}.
Implicit Types (σ : @state real) (v SB G GF out Gin Gd : list real) (m : gmap loc (@block real)).

Lemma call_ext_spec f s d v old m o tr :
  m !! s = Some (Lanes v) → m !! d = Some (Lanes old) →
  call_ext f (Some s) (Some d) {| mem := m; oracle := o; trace := tr |}
  = Done (f v).1
      {| mem := <[d := Lanes (resize (length old) runinit (f v).2)]> m;
         oracle := o; trace := tr |}.
Proof. intros Hs Hd. unfold call_ext. simpl. by rewrite Hs, Hd. Qed.

Lemma lattice_of_checks L a M :
  0 < a → a ≤ M → 0 < L → Z.rem L (ltfat_lcm a M) = 0 → lattice L a M.
Proof. intros. split; try done. lia. Qed.

Lemma lcm_pos a M : 0 < a → 0 < M → 0 < ltfat_lcm a M.
Proof.
  intros Ha HM. destruct (lattice_split a M Ha HM) as (_ & _ & Hp & Hq & _ & ->).
  pose proof (lattice_gcd_pos a M Ha HM). 
  apply Z.mul_pos_pos; [apply Z.mul_pos_pos|]; done.
Qed.

Lemma safefree_none (st : ltfat_status) σ :
  (ltfat_safefreeall [None; None];; ret st) σ = Done st σ.
Proof. reflexivity. Qed.

Lemma safefree_one gf v (st : ltfat_status) m o tr :
  m !! gf = Some (Lanes v) →
  (ltfat_safefreeall [None; Some gf];; ret st) {| mem := m; oracle := o; trace := tr |}
  = Done st {| mem := delete gf m; oracle := o; trace := tr ++ [EvFree gf] |}.
Proof.
  intros H. unfold ltfat_safefreeall, bind, ret. cbn [fold_right].
  rewrite ltfat_free_null. by erewrite ltfat_free_lanes by done.
Qed.

Lemma safefree_both gf gdf v v' (st : ltfat_status) m o tr :
  m !! gdf = Some (Lanes v) → m !! gf = Some (Lanes v') → gf ≠ gdf →
  (ltfat_safefreeall [Some gdf; Some gf];; ret st)
    {| mem := m; oracle := o; trace := tr |}
  = Done st {| mem := delete gf (delete gdf m); oracle := o;
               trace := tr ++ [EvFree gdf; EvFree gf] |}.
Proof.
  intros H1 H2 Hne. unfold ltfat_safefreeall, bind, ret. cbn [fold_right].
  erewrite ltfat_free_lanes by done.
  erewrite ltfat_free_lanes by (by rewrite lookup_delete_ne).
  by rewrite <- app_assoc.
Qed.

Lemma gabdual_long_spec t L R a M g gd Gin Gd σ :
  fft_in_place → 0 < a →
  mem σ !! g = Some (Lanes Gin) → mem σ !! gd = Some (Lanes Gd) →
  (t = ComplexType → 2 * (L * R) ≤ Z.of_nat (length Gd)) →
  ∃ σ',
    gabdual_long t (Some g) L R a M (Some gd) σ
    = Done (gabdual_long_status t L R a M Gin (oracle σ)) σ' ∧
    mem σ' = (if is_error (gabdual_long_status t L R a M Gin (oracle σ)) then mem σ
              else <[gd := Lanes (gabdual_long_value t L R a M Gin Gd)]> (mem σ)) ∧
    (gabdual_long_status t L R a M Gin (oracle σ) = LTFATERR_SUCCESS →
     ∃ gf gdf plan sb fp,
       trace σ' = trace σ ++ gabdual_long_events t L R a M gf gdf plan sb fp).
Proof.
  intros Hfft Ha Hg Hgd Hlen. destruct σ as [m o tr]. cbn [mem oracle trace] in *.
  unfold gabdual_long, gabdual_long_status.
  destruct (Z.ltb_spec 0 R) as [HR|HR]; cbn [negb].
  2:{ eexists. split; [reflexivity|]. split; [done|done]. }
  destruct (Z.leb_spec a M) as [HaM|HaM]; cbn [negb].
  2:{ eexists. split; [reflexivity|]. split; [done|done]. }
  pose proof (lcm_pos a M Ha ltac:(lia)) as Hlcm.
  destruct (Z.ltb_spec 0 L) as [HL|HL]; cbn [andb].
  2:{ cbn [negb]. eexists. split; [reflexivity|]. split; [done|done]. }
  step ltac:(step ltac:(apply c_rem_nz; lia); reflexivity).
  destruct (Z.eqb_spec (L `rem` ltfat_lcm a M) 0) as [Hdiv|Hdiv]; cbn [negb].
  2:{ eexists. split; [reflexivity|]. split; [done|done]. }
  pose proof (lattice_of_checks L a M Ha HaM HL Hdiv) as Hlat.
  set (n := 2 * (L * R)).
  pose proof (fresh_None m) as Hgf. set (gf := fresh (dom m)) in Hgf.
  pose proof (fresh_None (<[gf := Lanes (replicate (Z.to_nat n) runinit)]> m)) as Hgdf.
  set (gdf := fresh (dom (<[gf := Lanes (replicate (Z.to_nat n) runinit)]> m))) in Hgdf.
  assert (gf ≠ gdf) by (intros E; rewrite <- E in Hgdf; by rewrite lookup_insert_eq in Hgdf).
  rewrite lookup_insert_ne in Hgdf by done.
  assert (gf ≠ g) by congruence. assert (gf ≠ gd) by congruence.
  assert (gdf ≠ g) by congruence. assert (gdf ≠ gd) by congruence.
  unfold bind at 1. rewrite ltfat_malloc_spec. fold gf.
  destruct (ok_at o 0); cbn [negb]; cbv beta iota.
  2:{ eexists. split; [reflexivity|]. split; [done|done]. }
  unfold bind at 1. rewrite ltfat_malloc_spec, ok_at_drop. cbn [Nat.add]. fold gdf.
  destruct (ok_at o 1); cbn [negb]; cbv beta iota.
  2:{ erewrite safefree_one by (by mlookup).
      eexists. split; [reflexivity|]. split; [|done]. cbn [is_error mem].
      by rewrite delete_insert_eq, delete_id. }
  rewrite drop_drop. cbn [Nat.add].
  destruct t.
  - (* real regime *)
    step ltac:(eapply call_ext_spec; by mlookup).
    step ltac:(eapply call_ext_spec; by mlookup).
    step ltac:(eapply call_ext_spec; by mlookup).
    erewrite safefree_both by (done || by mlookup).
    eexists. split; [reflexivity|]. cbn [is_error mem trace]. split.
    + unfold gabdual_long_value. rewrite !length_replicate. fold n.
      apply map_eq. intros i.
      destruct (decide (i = gf)) as [->|]; [by mlookup|].
      destruct (decide (i = gdf)) as [->|]; [by mlookup|].
      destruct (decide (i = gd)) as [->|]; by mlookup.
    + intros _. exists gf, gdf, gf, gf, gf. unfold gabdual_long_events. fold n.
      by rewrite <- !app_assoc.
  - (* complex regime *)
    step ltac:(eapply call_ext_spec; by mlookup).
    rewrite length_replicate.
    destruct (is_error (wfac_ext L R a M Gin).1) eqn:Hw.
    { erewrite safefree_both by (done || by mlookup).
      eexists. split; [reflexivity|]. rewrite Hw. cbn [mem]. split.
      - apply map_eq. intros i.
        destruct (decide (i = gf)) as [->|]; [by mlookup|].
        destruct (decide (i = gdf)) as [->|]; by mlookup.
      - intros E. rewrite E in Hw. done. }
    step ltac:(eapply call_ext_spec; by mlookup).
    rewrite length_replicate.
    match goal with |- context [bind (iwfac _ _ _ _ _ _ _) _ ?s] => set (σi := s) end.
    destruct (iwfac_spec ComplexType L a M R gdf gd
      (resize (Z.to_nat n) runinit (gabdual_fac_ext L R a M
         (resize (Z.to_nat n) runinit (wfac_ext L R a M Gin).2)).2) Gd σi)
      as (plan & sb & fp & Ei); try done.
    { unfold σi. cbn [mem]. by mlookup. }
    { rewrite length_resize. unfold n. lia. }
    { unfold σi. cbn [mem]. by mlookup. }
    { cbn [lanes]. by apply Hlen. }
    step ltac:(exact Ei).
    unfold σi. cbn [mem oracle trace].
    destruct (is_error (init_status (drop 2 o))) eqn:Hi.
    + erewrite safefree_both by (done || by mlookup).
      eexists. split; [reflexivity|]. cbn [mem]. split.
      * apply map_eq. intros i.
        destruct (decide (i = gf)) as [->|]; [by mlookup|].
        destruct (decide (i = gdf)) as [->|]; by mlookup.
      * intros E. rewrite E in Hi. done.
    + erewrite safefree_both by (done || by mlookup).
      eexists. split; [reflexivity|]. cbn [mem trace]. split.
      * unfold gabdual_long_value. fold n. apply map_eq. intros i.
        destruct (decide (i = gf)) as [->|]; [by mlookup|].
        destruct (decide (i = gdf)) as [->|]; [by mlookup|].
        destruct (decide (i = gd)) as [->|]; by mlookup.
      * intros E. exists gf, gdf, plan, sb, fp. unfold gabdual_long_events. fold n.
        unfold iwfac_events. unfold init_status in E.
        destruct (ok_at (drop 2 o) 0); [|done]. destruct (ok_at (drop 2 o) 1); [|done].
        destruct (ok_at (drop 2 o) 2); [|done]. cbn [negb].
        by rewrite <- !app_assoc.
Qed.


Lemma gabdual_long_status_lattice t L R a M Gin o :
  0 < a → is_error (gabdual_long_status t L R a M Gin o) = false →
  lattice L a M ∧ 0 < R.
Proof.
  intros Ha. unfold gabdual_long_status.
  destruct (Z.ltb_spec 0 R); cbn [negb]; [|done].
  destruct (Z.leb_spec a M); cbn [negb]; [|done].
  destruct (Z.ltb_spec 0 L); cbn [negb andb]; [|done].
  destruct (Z.eqb_spec (L `rem` ltfat_lcm a M) 0); cbn [negb]; [|done].
  intros _. split; [|done]. by apply lattice_of_checks.
Qed.

Lemma gabdual_long_value_indep t L R a M Gin Gd Gd' :
  lattice L a M → 0 < R →
  Z.of_nat (length Gd) = lanes t * (L * R) → length Gd' = length Gd →
  gabdual_long_value t L R a M Gin Gd = gabdual_long_value t L R a M Gin Gd'.
Proof.
  intros Hlat HR Hlen Hlen'. unfold gabdual_long_value. destruct t.
  - by rewrite Hlen'.
  - by apply iwfac_value_indep.
Qed.

Lemma length_gabdual_long_value t L R a M Gin Gd :
  length (gabdual_long_value t L R a M Gin Gd) = length Gd.
Proof.
  unfold gabdual_long_value. destruct t.
  - by rewrite length_resize.
  - unfold iwfac_value. by rewrite length_apply_writes.
Qed.

Lemma gabdual_fir_spec t gl L a M gdl g gd Gin Gd σ :
  fft_in_place → 0 < a →
  mem σ !! g = Some (Lanes Gin) → mem σ !! gd = Some (Lanes Gd) →
  ∃ σ',
    gabdual_fir t (Some g) gl L a M gdl (Some gd) σ
    = Done (gabdual_fir_status t gl L a M gdl Gin (oracle σ)) σ' ∧
    mem σ' = <[gd := Lanes (gabdual_fir_output t gl L a M gdl Gin Gd (oracle σ))]> (mem σ).
Proof.
  intros Hfft Ha Hg Hgd. destruct σ as [m o tr]. cbn [mem oracle trace] in *.
  unfold gabdual_fir, gabdual_fir_status, gabdual_fir_output, gabdual_fir_pre_status.
  assert (Hid : m = <[gd := Lanes Gd]> m) by (by rewrite insert_id).
  destruct (Z.ltb_spec 0 gl); cbn [negb].
  2:{ eexists. split; [reflexivity|]. done. }
  destruct (Z.ltb_spec 0 L); cbn [negb].
  2:{ eexists. split; [reflexivity|]. done. }
  destruct (Z.ltb_spec 0 gdl); cbn [negb].
  2:{ eexists. split; [reflexivity|]. done. }
  destruct (Z.leb_spec gl L); cbn [negb andb].
  2:{ eexists. split; [reflexivity|]. done. }
  destruct (Z.leb_spec gdl L); cbn [negb andb].
  2:{ eexists. split; [reflexivity|]. done. }
  pose proof (fresh_None m) as Htmp. set (tmp := fresh (dom m)) in Htmp.
  assert (tmp ≠ g) by congruence. assert (tmp ≠ gd) by congruence.
  unfold bind at 1. rewrite ltfat_malloc_spec. fold tmp.
  destruct (ok_at o 0); cbn [negb]; cbv beta iota.
  2:{ eexists. split; [reflexivity|]. done. }
  step ltac:(eapply call_ext_spec; by mlookup).
  rewrite length_replicate, insert_insert_eq.
  fold (gabdual_fir_long t gl L Gin). set (long := gabdual_fir_long t gl L Gin).
  destruct (is_error (fir2long_ext t gl L Gin).1) eqn:E1; cbv beta iota zeta.
  { step ltac:(eapply ltfat_free_lanes; by mlookup).
    cbv beta iota zeta. rewrite ?E1. cbv beta iota.
    eexists. split; [reflexivity|]. cbn [mem].
    by rewrite delete_insert_eq, delete_id by done. }
  match goal with |- context [bind (gabdual_long _ _ _ _ _ _ _) _ ?s] => set (σ1 := s) end.
  destruct (gabdual_long_spec t L 1 a M tmp tmp long long σ1 Hfft Ha)
    as (σ2 & E2 & Hm2 & _).
  { unfold σ1. cbn [mem]. by mlookup. }
  { unfold σ1. cbn [mem]. by mlookup. }
  { intros ->. unfold long, gabdual_fir_long. rewrite length_resize. cbn [lanes]. lia. }
  step ltac:(exact E2). unfold σ1 in *. cbn [mem oracle] in E2, Hm2.
  cbn [oracle]. destruct σ2 as [m2 o2 tr2]. cbn [mem] in Hm2.
  destruct (is_error (gabdual_long_status t L 1 a M long (drop 1 o))) eqn:Est;
    cbv beta iota zeta; rewrite ?Est in Hm2; subst m2.
  { step ltac:(eapply ltfat_free_lanes; by mlookup).
    cbv beta iota zeta. rewrite ?Est. cbv beta iota.
    eexists. split; [reflexivity|]. cbn [mem].
    by rewrite delete_insert_eq, delete_id by done. }
  step ltac:(eapply call_ext_spec; by mlookup).
  step ltac:(eapply ltfat_free_lanes; by mlookup).
  cbv beta iota zeta. rewrite ?Est. cbv beta iota.
  eexists. split; [reflexivity|]. cbn [mem].
  apply map_eq. intros i.
  destruct (decide (i = tmp)) as [->|]; [by mlookup|].
  destruct (decide (i = gd)) as [->|]; by mlookup.
Qed.


Lemma gabdual_fir_reference_spec t gl L a M gdl g gd Gin Gd σ :
  fft_in_place → 0 < a → oracle σ = [] →
  0 < gl ≤ L → 0 < gdl ≤ L →
  mem σ !! g = Some (Lanes Gin) → mem σ !! gd = Some (Lanes Gd) →
  ∃ σ',
    gabdual_fir_reference t (Some g) gl L a M gdl (Some gd) σ
    = Done (gabdual_fir_status t gl L a M gdl Gin []) σ' ∧
    mem σ' = <[gd := Lanes (gabdual_fir_output t gl L a M gdl Gin Gd [])]> (mem σ).
Proof.
  intros Hfft Ha Ho Hgl Hgdl Hg Hgd. destruct σ as [m o tr].
  cbn [mem oracle trace] in *. subst o.
  unfold gabdual_fir_reference, gabdual_fir_status, gabdual_fir_output, gabdual_fir_pre_status.
  destruct (Z.ltb_spec 0 gl); [|lia]. destruct (Z.ltb_spec 0 L); [|lia].
  destruct (Z.ltb_spec 0 gdl); [|lia]. destruct (Z.leb_spec gl L); [|lia].
  destruct (Z.leb_spec gdl L); [|lia]. cbn [negb andb].
  change (ok_at [] 0) with true. cbn [negb drop].
  set (n := lanes t * L).
  pose proof (fresh_None m) as Hlong. set (long := fresh (dom m)) in Hlong.
  pose proof (fresh_None (<[long := Lanes (replicate (Z.to_nat n) runinit)]> m)) as Hdual.
  set (dual := fresh (dom (<[long := Lanes (replicate (Z.to_nat n) runinit)]> m))) in Hdual.
  assert (long ≠ dual) by (intros E; rewrite <- E in Hdual; by rewrite lookup_insert_eq in Hdual).
  rewrite lookup_insert_ne in Hdual by done.
  assert (long ≠ g) by congruence. assert (long ≠ gd) by congruence.
  assert (dual ≠ g) by congruence. assert (dual ≠ gd) by congruence.
  unfold bind at 1. rewrite ltfat_malloc_spec. fold long.
  change (ok_at [] 0) with true. cbv beta iota.
  unfold bind at 1. rewrite ltfat_malloc_spec. fold dual.
  change (ok_at (drop 1 []) 0) with true. cbv beta iota. cbn [drop].
  fold (gabdual_fir_long t gl L Gin). set (longv := gabdual_fir_long t gl L Gin).
  assert (Hlongv : Z.of_nat (length longv) = lanes t * (L * 1)).
  { unfold longv, gabdual_fir_long. rewrite length_resize. unfold lanes. destruct t; lia. }
  destruct (is_error (fir2long_ext t gl L Gin).1) eqn:E1.
  { step ltac:(step ltac:(eapply call_ext_spec; by mlookup); rewrite E1; reflexivity).
    step ltac:(eapply ltfat_free_lanes; by mlookup).
    step ltac:(eapply ltfat_free_lanes; by mlookup).
    cbv beta iota zeta. rewrite ?E1. cbv beta iota.
    eexists. split; [reflexivity|]. cbn [mem].
    apply map_eq. intros i.
    destruct (decide (i = long)) as [->|]; [by mlookup|].
    destruct (decide (i = dual)) as [->|]; [by mlookup|].
    destruct (decide (i = gd)) as [->|]; by mlookup. }
  match goal with |- context [ltfat_free (Some dual)] => idtac end.
  set (σ1 := {| mem := <[long := Lanes longv]>
                  (<[dual := Lanes (replicate (Z.to_nat n) runinit)]>
                     (<[long := Lanes (replicate (Z.to_nat n) runinit)]> m));
                oracle := []; trace := (tr ++ [EvMalloc long n]) ++ [EvMalloc dual n] |}).
  destruct (gabdual_long_spec t L 1 a M long dual longv
    (replicate (Z.to_nat n) runinit) σ1 Hfft Ha) as (σ2 & E2 & Hm2 & _).
  { unfold σ1. cbn [mem]. by mlookup. }
  { unfold σ1. cbn [mem]. by mlookup. }
  { intros ->. rewrite length_replicate. unfold n. cbn [lanes]. lia. }
  unfold σ1 in *. cbn [mem oracle] in E2, Hm2. destruct σ2 as [m2 o2 tr2]. cbn [mem] in Hm2.
  destruct (is_error (gabdual_long_status t L 1 a M longv [])) eqn:Est; subst m2.
  { step ltac:(step ltac:(eapply call_ext_spec; by mlookup); rewrite E1;
               rewrite length_replicate; fold longv;
               step ltac:(exact E2); rewrite Est; reflexivity).
    step ltac:(eapply ltfat_free_lanes; by mlookup).
    step ltac:(eapply ltfat_free_lanes; by mlookup).
    cbv beta iota zeta. rewrite ?Est. cbv beta iota.
    eexists. split; [reflexivity|]. cbn [mem].
    apply map_eq. intros i.
    destruct (decide (i = long)) as [->|]; [by mlookup|].
    destruct (decide (i = dual)) as [->|]; [by mlookup|].
    destruct (decide (i = gd)) as [->|]; by mlookup. }
  destruct (gabdual_long_status_lattice t L 1 a M longv [] Ha Est) as [Hlat _].
  step ltac:(step ltac:(eapply call_ext_spec; by mlookup); rewrite E1;
             rewrite length_replicate; fold longv;
             step ltac:(exact E2); rewrite Est;
             eapply call_ext_spec; by mlookup).
  step ltac:(eapply ltfat_free_lanes; by mlookup).
  step ltac:(eapply ltfat_free_lanes; by mlookup).
  rewrite (gabdual_long_value_indep t L 1 a M longv _ longv Hlat);
    [|lia|rewrite length_replicate; unfold n; unfold lanes; destruct t; lia
     |rewrite length_replicate; lia].
  cbv beta iota zeta. rewrite ?Est. cbv beta iota.
  eexists. split; [reflexivity|]. cbn [mem].
  apply map_eq. intros i.
  destruct (decide (i = long)) as [->|]; [by mlookup|].
  destruct (decide (i = dual)) as [->|]; [by mlookup|].
  destruct (decide (i = gd)) as [->|]; by mlookup.
Qed.

End Gabdual.

(** ** The claims of the specification *)

Section Claims.
Context {real : Type} `{!RealOps real, !FftBackend real, !Collaborators real}.
Implicit Types (σ : @state real) (v SB G GF out Gin Gd : list real) (m : gmap loc (@block real)).

Lemma iwfac_rem_as_mod L a M l k s :
  lattice L a M → 0 ≤ s →
  iwfac_rem a M L (lat_p a M) l k s
  = ((k * M - l * a) `mod` L + s * lat_p a M * M) `mod` L.
Proof.
  intros Hlat Hs.
  destruct (lattice_facts L a M Hlat) as (Hc & Hp & Hq & Hb & Hd0 & Ea & Em & Eb & EL & Hg).
  rewrite (iwfac_rem_mod L a M (lat_c a M) (lat_p a M) (lat_q a M) (lat_d L a M))
    by done.
  by rewrite Zplus_mod_idemp_l.
Qed.



Lemma residues_NoDup L a M : lattice L a M → NoDup (residues L a M).
Proof.
  intros Hlat.
  destruct (lattice_facts L a M Hlat) as (Hc & Hp & Hq & Hb & Hd0 & Ea & Em & Eb & EL & Hg).
  assert (Hinj : ∀ y l k s l' k' s',
    y = iwfac_rem a M L (lat_p a M) l k s → y = iwfac_rem a M L (lat_p a M) l' k' s' →
    0 ≤ l < lat_q a M → 0 ≤ k < lat_p a M → 0 ≤ s < lat_d L a M →
    0 ≤ l' < lat_q a M → 0 ≤ k' < lat_p a M → 0 ≤ s' < lat_d L a M →
    l = l' ∧ k = k' ∧ s = s').
  { intros y l k s l' k' s' -> E ? ? ? ? ? ?.
    by apply (iwfac_rem_inj L a M (lat_c a M) (lat_p a M) (lat_q a M) (lat_d L a M)
      Hc Hp Hq Hd0 Ea Em EL Hg). }
  unfold residues. rewrite <- (list_fmap_id (_ ≫= _)).
  apply NoDup_fmap_bind; [| |apply NoDup_seqZ].
  2:{ intros l1 l2 y1 y2 Hl1 Hl2 Hy1 Hy2 E. simpl in E. subst y2.
      repeat match goal with
      | H : _ ∈ _ ≫= _ |- _ => apply list_elem_of_bind in H as (? & H & ?)
      | H : _ ∈ [_] |- _ => apply list_elem_of_singleton in H
      | H : _ ∈ range 0 _ |- _ => unfold range in H; apply elem_of_seqZ in H
      end.
      destruct (Hinj _ _ _ _ _ _ _ Hy1 Hy2) as (? & ? & ?); (done || lia). }
  intros l Hl. apply NoDup_fmap_bind; [| |apply NoDup_seqZ].
  2:{ intros k1 k2 y1 y2 Hk1 Hk2 Hy1 Hy2 E. simpl in E. subst y2.
      repeat match goal with
      | H : _ ∈ _ ≫= _ |- _ => apply list_elem_of_bind in H as (? & H & ?)
      | H : _ ∈ [_] |- _ => apply list_elem_of_singleton in H
      | H : _ ∈ range 0 _ |- _ => unfold range in H; apply elem_of_seqZ in H
      end.
      destruct (Hinj _ _ _ _ _ _ _ Hy1 Hy2) as (? & ? & ?); (done || lia). }
  intros k Hk. apply NoDup_fmap_bind; [| |apply NoDup_seqZ].
  2:{ intros s1 s2 y1 y2 Hs1 Hs2 Hy1 Hy2 E. simpl in E. subst y2.
      repeat match goal with
      | H : _ ∈ [_] |- _ => apply list_elem_of_singleton in H
      | H : _ ∈ range 0 _ |- _ => unfold range in H; apply elem_of_seqZ in H
      end.
      destruct (Hinj _ _ _ _ _ _ _ Hy1 Hy2) as (? & ? & ?); (done || lia). }
  intros s Hs. apply NoDup_singleton.
Qed.

Lemma length_residues L a M :
  lattice L a M →
  Z.of_nat (length (residues L a M)) = lat_q a M * lat_p a M * lat_d L a M.
Proof.
  intros Hlat.
  destruct (lattice_facts L a M Hlat) as (Hc & Hp & Hq & Hb & Hd0 & _).
  unfold residues.
  rewrite (length_bind_const _ _ (Z.to_nat (lat_p a M * lat_d L a M))).
  { unfold range. rewrite length_seqZ. nia. }
  intros l _. rewrite (length_bind_const _ _ (Z.to_nat (lat_d L a M))).
  { unfold range. rewrite length_seqZ. nia. }
  intros k _. rewrite (length_bind_const _ _ 1%nat); [|done].
  unfold range. rewrite length_seqZ. lia.
Qed.

(** Claim C10.  [iwfac_done] on a handle that points to a plan returns
    [Success], destroys the FFTW plan, frees the scratch buffer and the plan
    object, sets the caller's handle to null and touches nothing else; a
    second [iwfac_done] through the same handle returns [NullArg] and leaves
    the state as it is. *)
Theorem iwfac_done_nulls_handle h plan pl sb fp sign n b v σ :
  mem σ !! h = Some (Handle (Some plan)) →
  mem σ !! plan = Some (PlanObj pl) →
  plan_p_before pl = Some fp → plan_sbuf pl = Some sb →
  mem σ !! fp = Some (FftwPlan sign n b) →
  mem σ !! sb = Some (Lanes v) →
  ∃ σ',
    iwfac_done (Some h) σ = Done LTFATERR_SUCCESS σ' ∧
    mem σ' !! h = Some (Handle None) ∧
    mem σ' !! fp = None ∧ mem σ' !! sb = None ∧ mem σ' !! plan = None ∧
    (∀ i, i ≠ h → i ≠ fp → i ≠ sb → i ≠ plan → mem σ' !! i = mem σ !! i) ∧
    trace σ' = trace σ ++ [EvPlanDestroy fp; EvFree sb; EvFree plan] ∧
    iwfac_done (Some h) σ' = Done LTFATERR_NULLPOINTER σ'.
Proof.
  intros Hh Hplan Hpb Hsb Hfp Hv. destruct σ as [m o tr]. cbn [mem trace] in *.
  eexists. split; [by eapply iwfac_done_spec|]. cbn [mem trace].
  assert (h ≠ plan) by congruence. assert (h ≠ sb) by congruence.
  assert (h ≠ fp) by congruence.
  split; [by mlookup|]. 
  split; [rewrite lookup_insert_ne by done;
          destruct (decide (fp = plan)) as [->|]; [by mlookup|];
          destruct (decide (fp = sb)) as [->|]; by mlookup|].
  split; [rewrite lookup_insert_ne by done;
          destruct (decide (sb = plan)) as [->|]; by mlookup|].
  split; [by mlookup|].
  split; [intros i ? ? ? ?; by mlookup|]. split; [done|].
  apply iwfac_done_again. by mlookup.
Qed.


Lemma yields_ret {A} (P : A → Prop) (a : A) : P a → yields P (ret (real:=real) a).
Proof. intros HP σ a' σ' E. unfold ret in E. by injection E as <- _. Qed.

Lemma yields_bind {A B} (P : B → Prop) (c : @run real A) (k : A → @run real B) :
  (∀ x, yields P (k x)) → yields P (bind c k).
Proof.
  intros Hk σ b σ' E. apply bind_inv in E as (x & σ1 & _ & E). by eapply Hk.
Qed.

Lemma yields_init_error (P : ltfat_status → Prop) plan pout st :
  P st → yields (real:=real) P (iwfac_init_error plan pout st).
Proof.
  intros HP. unfold iwfac_init_error.
  apply yields_bind. intros _. apply yields_bind. intros _. by apply yields_ret.
Qed.

Ltac yields_tac :=
  repeat first
    [ apply yields_init_error; done
    | apply yields_ret; done
    | apply yields_bind; intros ?
    | match goal with
      | |- yields _ (match ?x with _ => _ end) => destruct x
      end ].

Lemma iwfac_init_yields L a M fl pout :
  yields (real:=real) (λ st, st ≠ LTFATERR_NOTAFRAME) (iwfac_init L a M fl pout).
Proof. unfold iwfac_init. yields_tac. Qed.

Lemma iwfac_execute_yields t plan gf R g :
  yields (real:=real) (λ st, st ≠ LTFATERR_NOTAFRAME) (iwfac_execute t plan gf R g).
Proof. unfold iwfac_execute. yields_tac. Qed.

Lemma iwfac_yields t gf L R a M g :
  yields (real:=real) (λ st, st ≠ LTFATERR_NOTAFRAME) (iwfac t gf L R a M g).
Proof.
  unfold iwfac. apply yields_bind. intros h.
  intros σ st σ' E. apply bind_inv in E as (st0 & σ0 & E0 & E).
  apply iwfac_init_yields in E0.
  apply bind_inv in E as (st1 & σ1 & E1 & E).
  assert (st1 ≠ LTFATERR_NOTAFRAME).
  { destruct (is_error st0).
    - unfold ret in E1. by injection E1 as <- _.
    - apply bind_inv in E1 as (p & σ2 & _ & E1). by apply iwfac_execute_yields in E1. }
  apply bind_inv in E as (p & σ2 & _ & E).
  apply bind_inv in E as (? & σ3 & _ & E).
  apply bind_inv in E as (? & σ4 & _ & E).
  unfold ret in E. by injection E as <- _.
Qed.

Lemma iwfac_invalid t gf L R a M g σ :
  (a ≤ 0 ∨ M ≤ 0 → iwfac t gf L R a M g σ = Done LTFATERR_NOTPOSARG σ) ∧
  (0 < a → 0 < M → ¬ (0 < L ∧ Z.rem L (ltfat_lcm a M) = 0) →
   iwfac t gf L R a M g σ = Done LTFATERR_BADARG σ).
Proof.
  destruct σ as [m o tr].
  pose proof (fresh_None m) as Hh. set (h := fresh (dom m)) in Hh.
  assert (Hfin : ∀ st, is_error st = true →
    iwfac_init L a M FFTW_MEASURE (Some h)
      {| mem := <[h := Handle None]> m; oracle := o; trace := tr |}
    = Done st (set_mem (<[h := Handle None]> (<[h := Handle None]> m))
                {| mem := <[h := Handle None]> m; oracle := o; trace := tr |}) →
    iwfac t gf L R a M g {| mem := m; oracle := o; trace := tr |}
    = Done st {| mem := m; oracle := o; trace := tr |}).
  { intros st Hst E. unfold iwfac. step ltac:(apply push_handle_spec). fold h.
    step ltac:(exact E). rewrite Hst. unfold set_mem. cbn [mem oracle trace].
    step ltac:(reflexivity).
    step ltac:(eapply read_handle_spec; by mlookup). cbv beta iota.
    step ltac:(reflexivity).
    step ltac:(eapply pop_handle_spec; by mlookup).
    unfold ret. f_equal. f_equal.
    rewrite !insert_insert_eq, delete_insert_eq, delete_id; done. }
  split.
  - intros Hneg. apply Hfin; [done|].
    eapply (iwfac_init_notpos L a M FFTW_MEASURE h None); [by cbn; mlookup|done].
  - intros Ha HM Hbad. apply Hfin; [done|].
    eapply (iwfac_init_badarg L a M FFTW_MEASURE h None); [by cbn; mlookup|done..].
Qed.

(** Claim C5, amended.  [iwfac] with [R = 0], [L = 7], [a = 2], [M = 3]
    returns [BadArgument] (the lattice is checked before [R], and 7 is not a
    multiple of 6), not [NotPositiveArg]; with [L = 5], [a = 2], [M = 3] it
    returns [BadArgument]; with [M = 2], [a = 3] it returns [BadArgument]
    unless [L] is a positive multiple of 6, and never [NotAFrame].  The
    state is left unchanged by each of these failing calls. *)
Theorem iwfac_error_surfaces t gf L R g σ :
  iwfac t gf 7 R 2 3 g σ = Done LTFATERR_BADARG σ ∧
  iwfac t gf 5 R 2 3 g σ = Done LTFATERR_BADARG σ ∧
  (¬ (0 < L ∧ Z.rem L 6 = 0) → iwfac t gf L R 3 2 g σ = Done LTFATERR_BADARG σ) ∧
  (∀ st σ', iwfac t gf L R 3 2 g σ = Done st σ' → st ≠ LTFATERR_NOTAFRAME).
Proof.
  split; [|split; [|split]].
  - apply iwfac_invalid; [lia..|]. vm_compute. intros [_ ?]. discriminate.
  - apply iwfac_invalid; [lia..|]. vm_compute. intros [_ ?]. discriminate.
  - intros Hbad. apply iwfac_invalid; [lia..|]. exact Hbad.
  - intros st σ' E. by apply iwfac_yields in E.
Qed.


(** Claim C7, amended.  [iwfac_init] fails with [NotPositiveArg] (not
    [BadArgument]) when [a] or [M] is not positive, and with [BadArgument]
    when [L ≤ 0] or [L] is not a multiple of [lcm (a, M)]; [M < a] is
    rejected, with [NotAFrame], by [gabdual_long] only.  [iwfac_init]
    succeeds only on a valid lattice, and on one, when no acquisition fails,
    the plan holds [b = L / M], [c = gcd (a, M)], [p = a / c], [q = M / c],
    [d = b / p = L / (a·q)], all positive. *)
Theorem lattice_validation t L a M R fl h x g gd σ :
  mem σ !! h = Some (Handle x) →
  (a ≤ 0 ∨ M ≤ 0 →
   result_of (iwfac_init L a M fl (Some h) σ) = Some LTFATERR_NOTPOSARG) ∧
  (0 < a → 0 < M → L ≤ 0 ∨ Z.rem L (ltfat_lcm a M) ≠ 0 →
   result_of (iwfac_init L a M fl (Some h) σ) = Some LTFATERR_BADARG) ∧
  (0 < R → M < a → gabdual_long t g L R a M gd σ = Done LTFATERR_NOTAFRAME σ) ∧
  (result_of (iwfac_init L a M fl (Some h) σ) = Some LTFATERR_SUCCESS →
   lattice L a M) ∧
  (lattice L a M →
   ∃ σ', iwfac_init L a M fl (Some h) σ = Done (init_status (oracle σ)) σ' ∧
     (init_status (oracle σ) = LTFATERR_SUCCESS →
      ∃ plan pl,
        mem σ' !! h = Some (Handle (Some plan)) ∧ mem σ' !! plan = Some (PlanObj pl) ∧
        plan_L pl = L ∧ plan_a pl = a ∧ plan_M pl = M ∧
        plan_b pl = Z.quot L M ∧ plan_c pl = Z.gcd a M ∧
        plan_p pl = Z.quot a (plan_c pl) ∧ plan_q pl = Z.quot M (plan_c pl) ∧
        plan_d pl = Z.quot (plan_b pl) (plan_p pl) ∧
        plan_d pl = Z.quot L (a * plan_q pl) ∧
        0 < plan_b pl ∧ 0 < plan_c pl ∧ 0 < plan_p pl ∧ 0 < plan_q pl ∧
        0 < plan_d pl)).
Proof.
  intros Hh.
  assert (Hnp : a ≤ 0 ∨ M ≤ 0 →
    result_of (iwfac_init L a M fl (Some h) σ) = Some LTFATERR_NOTPOSARG).
  { intros Hneg. by erewrite iwfac_init_notpos. }
  assert (Hbad : 0 < a → 0 < M → L ≤ 0 ∨ Z.rem L (ltfat_lcm a M) ≠ 0 →
    result_of (iwfac_init L a M fl (Some h) σ) = Some LTFATERR_BADARG).
  { intros Ha HM Hb. erewrite iwfac_init_badarg; [done..|]. lia. }
  split; [done|]. split; [done|]. split; [|split].
  - intros HR HaM. unfold gabdual_long.
    destruct (Z.ltb_spec 0 R); [|lia]. destruct (Z.leb_spec a M); [lia|]. reflexivity.
  - intros E.
    destruct (Z.le_gt_cases a 0) as [Ha|Ha]; [rewrite Hnp in E by auto; discriminate|].
    destruct (Z.le_gt_cases M 0) as [HM|HM]; [rewrite Hnp in E by auto; discriminate|].
    destruct (Z.le_gt_cases L 0) as [HL|HL]; [rewrite Hbad in E by auto; discriminate|].
    destruct (Z.eq_dec (Z.rem L (ltfat_lcm a M)) 0) as [Hd|Hd];
      [|rewrite Hbad in E by auto; discriminate].
    by split.
  - intros Hlat.
    destruct (iwfac_init_lattice L a M fl h x σ Hh Hlat)
      as (plan & sb & fp & Hplan & Hsb & Hfp & ? & ? & ? & E).
    eexists. split; [exact E|]. intros Hok.
    destruct (lattice_facts L a M Hlat) as (Hc & Hp & Hq & Hb & Hd0 & _).
    assert (h ≠ plan) by congruence. assert (h ≠ fp) by congruence.
    exists plan, (derived_plan L a M (Some sb) (Some fp)).
    unfold init_state. unfold init_status in Hok.
    destruct (ok_at (oracle σ) 0); [|done]. destruct (ok_at (oracle σ) 1); [|done].
    destruct (ok_at (oracle σ) 2); [|done]. cbn [negb mem].
    split; [by mlookup|]. split; [by mlookup|].
    cbn [plan_L plan_a plan_M plan_b plan_c plan_p plan_q plan_d derived_plan].
    repeat (split; [done|]). split; [by apply lattice_d_alt|]. done.
Qed.

(** [gabdual_long] checks [R > 0] ([NotPositiveArg]),
    [M ≥ a] ([NotAFrame]) and that [L] is a positive multiple of
    [lcm (a, M)] ([BadArgument]); it then acquires two buffers of [L·R]
    complex elements and runs [wfac], [gabdual_fac] and [iwfac] in that
    order.  Both buffers are released on every path: the heap has the same
    locations afterwards, and is unchanged on failure.  The status is
    [gabdual_long_status]: in the complex regime a failure of [wfac] or of
    [iwfac] is returned unchanged; the status of [gabdual_fac] and, in the
    real regime, of all three sub-steps is dropped. *)
Theorem gabdual_long_contract t L R a M g gd Gin Gd σ :
  fft_in_place → 0 < a →
  mem σ !! g = Some (Lanes Gin) → mem σ !! gd = Some (Lanes Gd) →
  (t = ComplexType → 2 * (L * R) ≤ Z.of_nat (length Gd)) →
  ∃ st σ',
    gabdual_long t (Some g) L R a M (Some gd) σ = Done st σ' ∧
    st = gabdual_long_status t L R a M Gin (oracle σ) ∧
    (R ≤ 0 → st = LTFATERR_NOTPOSARG) ∧
    (0 < R → M < a → st = LTFATERR_NOTAFRAME) ∧
    (0 < R → a ≤ M → L ≤ 0 ∨ Z.rem L (ltfat_lcm a M) ≠ 0 → st = LTFATERR_BADARG) ∧
    dom (mem σ') = dom (mem σ) ∧
    (is_error st = true → mem σ' = mem σ) ∧
    (st = LTFATERR_SUCCESS →
     mem σ' = <[gd := Lanes (gabdual_long_value t L R a M Gin Gd)]> (mem σ) ∧
     ∃ gf gdf plan sb fp,
       trace σ' = trace σ ++ gabdual_long_events t L R a M gf gdf plan sb fp).
Proof.
  intros Hfft Ha Hg Hgd Hlen.
  destruct (gabdual_long_spec t L R a M g gd Gin Gd σ Hfft Ha Hg Hgd Hlen)
    as (σ' & E & Hm & Htr).
  eexists _, σ'. split; [exact E|]. split; [done|].
  split; [|split; [|split; [|split; [|split]]]].
  - intros HR. unfold gabdual_long_status. by destruct (Z.ltb_spec 0 R); [lia|].
  - intros HR HaM. unfold gabdual_long_status.
    destruct (Z.ltb_spec 0 R); [|lia]. by destruct (Z.leb_spec a M); [lia|].
  - intros HR HaM Hbad. unfold gabdual_long_status.
    destruct (Z.ltb_spec 0 R); [|lia]. destruct (Z.leb_spec a M); [|lia]. cbn [negb].
    destruct (Z.ltb_spec 0 L); cbn [andb negb]; [|done].
    by destruct (Z.eqb_spec (Z.rem L (ltfat_lcm a M)) 0); [lia|].
  - rewrite Hm. destruct (is_error _); [done|].
    by apply dom_insert_lookup_L.
  - intros Herr. by rewrite Hm, Herr.
  - intros Hok. rewrite Hm, Hok. split; [done|]. by apply Htr.
Qed.

(** Claim C9.  [gabdual_fir (g, gl, L, a, M, gl, gd)] returns on every
    path with the same heap locations as before and only [gd] possibly
    changed (the length-[L] temporary is released, errors included); for
    [0 < gl ≤ L] and no failing allocation it returns the same status and
    leaves the same heap as the composition
    [long2fir (gabdual_long (fir2long (g, gl, L), L, 1, a, M), L, gl)] run
    with one array per intermediate result, although it runs [gabdual_long]
    in place on the temporary. *)
Theorem gabdual_fir_equals_composition t gl L a M g gd Gin Gd σ :
  fft_in_place → 0 < a →
  mem σ !! g = Some (Lanes Gin) → mem σ !! gd = Some (Lanes Gd) →
  (∃ st σ',
     gabdual_fir t (Some g) gl L a M gl (Some gd) σ = Done st σ' ∧
     dom (mem σ') = dom (mem σ) ∧
     ∀ i, i ≠ gd → mem σ' !! i = mem σ !! i) ∧
  (0 < gl ≤ L → oracle σ = [] →
   ∃ st σ1 σ2,
     gabdual_fir t (Some g) gl L a M gl (Some gd) σ = Done st σ1 ∧
     gabdual_fir_reference t (Some g) gl L a M gl (Some gd) σ = Done st σ2 ∧
     mem σ1 = mem σ2 ∧
     (st = LTFATERR_SUCCESS →
      mem σ1 !! gd = Some (Lanes (gabdual_fir_value t gl L a M gl Gin Gd)))).
Proof.
  intros Hfft Ha Hg Hgd.
  destruct (gabdual_fir_spec t gl L a M gl g gd Gin Gd σ Hfft Ha Hg Hgd)
    as (σ1 & E1 & Hm1).
  split.
  - eexists _, σ1. split; [exact E1|]. rewrite Hm1. split.
    + by apply dom_insert_lookup_L.
    + intros i Hi. by rewrite lookup_insert_ne.
  - intros Hgl Ho.
    destruct (gabdual_fir_reference_spec t gl L a M gl g gd Gin Gd σ
      Hfft Ha Ho Hgl Hgl Hg Hgd) as (σ2 & E2 & Hm2).
    rewrite Ho in E1, Hm1.
    eexists _, σ1, σ2. split; [exact E1|]. split; [exact E2|].
    split; [by rewrite Hm1, Hm2|].
    intros Hok. rewrite Hm1, lookup_insert_eq. do 2 f_equal.
    revert Hok. unfold gabdual_fir_output, gabdual_fir_status. cbv zeta.
    destruct (is_error (gabdual_fir_pre_status t gl L a M gl Gin [])) eqn:Epre; [|done].
    intros Hok. by rewrite Hok in Epre.
Qed.

End Claims.

(** ** The factorisation round trip in exact arithmetic *)

(** *** Finite sums *)

Lemma rsum_ext n f g :
  (∀ i, 0 ≤ i < n → f i = g i) → rsum n f = rsum n g.
Proof.
  unfold rsum. intros H.
  assert (H' : ∀ i, 0 ≤ i < Z.of_nat (Z.to_nat n) → f i = g i) by (intros; apply H; lia).
  clear H. induction (Z.to_nat n) as [|k IH]; [done|].
  simpl. rewrite IH, H'; [done|lia|]. intros; apply H'; lia.
Qed.

Lemma rsum_plus n f g :
  rsum n (λ i, f i + g i)%R = (rsum n f + rsum n g)%R.
Proof.
  unfold rsum. induction (Z.to_nat n) as [|k IH]; simpl; [lra|]. rewrite IH. lra.
Qed.

Lemma rsum_scal n c f : rsum n (λ i, c * f i)%R = (c * rsum n f)%R.
Proof.
  unfold rsum. induction (Z.to_nat n) as [|k IH]; simpl; [lra|]. rewrite IH. lra.
Qed.

Lemma rsum_zero n : rsum n (λ _, 0%R) = 0%R.
Proof. unfold rsum. induction (Z.to_nat n) as [|k IH]; simpl; [done|]. rewrite IH. lra. Qed.

Lemma rsum_swap n m (f : Z → Z → R) :
  rsum n (λ i, rsum m (λ j, f i j)) = rsum m (λ j, rsum n (λ i, f i j)).
Proof.
  unfold rsum at 1 4. induction (Z.to_nat n) as [|k IH]; cbn [rsum_nat].
  - by rewrite rsum_zero.
  - rewrite IH. by rewrite <- rsum_plus.
Qed.

Lemma rsum_delta n j (f : Z → R) :
  0 ≤ j < n → rsum n (λ i, if decide (i = j) then f i else 0%R) = f j.
Proof.
  unfold rsum. intros Hj.
  assert (Hj' : (Z.to_nat j < Z.to_nat n)%nat) by lia.
  assert (E : ∀ k, rsum_nat k (λ i, if decide (i = j) then f i else 0%R)
    = if decide (Z.to_nat j < k)%nat then f j else 0%R).
  { induction k as [|k IH]; cbn [rsum_nat]; [case_decide; [lia|done]|].
    rewrite IH. repeat case_decide; subst; try lra; try lia. }
  rewrite E. by case_decide.
Qed.

Lemma rsum_shift n (f : Z → R) :
  0 ≤ n → rsum n (λ i, f (i + 1)) = (rsum n f - f 0%Z + f n)%R.
Proof.
  unfold rsum. intros Hn. rewrite <- (Z2Nat.id n) at 3 by done.
  induction (Z.to_nat n) as [|k IH]; cbn [rsum_nat].
  { change (Z.of_nat 0) with 0. lra. }
  rewrite IH. replace (Z.of_nat k + 1) with (Z.of_nat (S k)) by lia. lra.
Qed.

Lemma rsum_const n (x : R) : 0 ≤ n → rsum n (λ _, x) = (IZR n * x)%R.
Proof.
  unfold rsum. intros Hn. rewrite <- (Z2Nat.id n) at 2 by done.
  induction (Z.to_nat n) as [|k IH]; [change (Z.of_nat 0) with 0; simpl; lra|].
  cbn [rsum_nat]. rewrite IH, Nat2Z.inj_succ, succ_IZR. lra.
Qed.

Lemma rsum_lin n (a b : R) f g :
  rsum n (λ i, a * f i + b * g i)%R = (a * rsum n f + b * rsum n g)%R.
Proof. by rewrite rsum_plus, !rsum_scal. Qed.

(** *** Roots of unity *)

Lemma cos_sin_2PI_nat (k : nat) :
  cos (2 * PI * INR k) = 1%R ∧ sin (2 * PI * INR k) = 0%R.
Proof.
  replace (2 * PI * INR k)%R with (0 + 2 * INR k * PI)%R by lra.
  rewrite cos_period, sin_period, cos_0, sin_0. done.
Qed.

Lemma cos_sin_2PI (k : Z) :
  cos (2 * PI * IZR k) = 1%R ∧ sin (2 * PI * IZR k) = 0%R.
Proof.
  destruct (Z_le_gt_dec 0 k) as [Hk|Hk].
  - rewrite <- (Z2Nat.id k) by done. rewrite <- INR_IZR_INZ. apply cos_sin_2PI_nat.
  - replace (IZR k) with (- IZR (- k))%R by (rewrite opp_IZR; lra).
    rewrite <- (Z2Nat.id (- k)) by lia. rewrite <- INR_IZR_INZ.
    replace (2 * PI * - INR (Z.to_nat (- k)))%R with (- (2 * PI * INR (Z.to_nat (- k))))%R by lra.
    rewrite cos_neg, sin_neg.
    destruct (cos_sin_2PI_nat (Z.to_nat (- k))) as [-> ->]. split; lra.
Qed.

Lemma cos_lt_1 x : (0 < x < 2 * PI)%R → (cos x < 1)%R.
Proof.
  intros Hx. replace x with (2 * (x / 2))%R by lra. rewrite cos_2a_sin.
  assert (0 < sin (x / 2))%R by (apply sin_gt_0; lra). nra.
Qed.

Lemma dft_angle_succ n s m :
  0 < n → dft_angle n (s + 1) m = (dft_angle n s m + dft_angle n 1 m)%R.
Proof.
  intros Hn. unfold dft_angle. rewrite !mult_IZR, plus_IZR.
  assert (IZR n ≠ 0%R) by (apply not_0_IZR; lia). field. done.
Qed.

Lemma roots_cancel n m :
  0 < n → 0 < m < n →
  rsum n (λ s, cos (dft_angle n s m)) = 0%R ∧ rsum n (λ s, sin (dft_angle n s m)) = 0%R.
Proof.
  intros Hn Hm.
  set (C := rsum n (λ s, cos (dft_angle n s m))).
  set (S := rsum n (λ s, sin (dft_angle n s m))).
  set (α := dft_angle n 1 m).
  assert (Hn0 : IZR n ≠ 0%R) by (apply not_0_IZR; lia).
  assert (Hnpos : (0 < IZR n)%R) by (apply IZR_lt; lia).
  assert (E0 : dft_angle n 0 m = 0%R).
  { unfold dft_angle. rewrite Z.mul_0_l. field. done. }
  assert (En : dft_angle n n m = (2 * PI * IZR m)%R).
  { unfold dft_angle. rewrite mult_IZR. field. done. }
  destruct (cos_sin_2PI m) as [Ec Es].
  assert (HC : C = (C * cos α - S * sin α)%R).
  { transitivity (rsum n (λ s, cos (dft_angle n (s + 1) m))).
    - rewrite (rsum_shift n (λ s, cos (dft_angle n s m))) by lia.
      rewrite E0, En, Ec, cos_0. fold C. lra.
    - rewrite (rsum_ext n _ (λ s, cos α * cos (dft_angle n s m)
                                  + (- sin α) * sin (dft_angle n s m))%R).
      + rewrite rsum_plus, !rsum_scal. fold C S. lra.
      + intros s _. rewrite dft_angle_succ by done. fold α. rewrite cos_plus. lra. }
  assert (HS : S = (S * cos α + C * sin α)%R).
  { transitivity (rsum n (λ s, sin (dft_angle n (s + 1) m))).
    - rewrite (rsum_shift n (λ s, sin (dft_angle n s m))) by lia.
      rewrite E0, En, Es, sin_0. fold S. lra.
    - rewrite (rsum_ext n _ (λ s, cos α * sin (dft_angle n s m)
                                  + sin α * cos (dft_angle n s m))%R).
      + rewrite rsum_plus, !rsum_scal. fold C S. lra.
      + intros s _. rewrite dft_angle_succ by done. fold α. rewrite sin_plus. lra. }
  assert (Hα : (cos α < 1)%R).
  { apply cos_lt_1. unfold α, dft_angle. rewrite Z.mul_1_l.
    assert (0 < IZR m < IZR n)%R by (split; apply IZR_lt; lia).
    pose proof PI_RGT_0.
    split.
    - apply Rdiv_lt_0_compat; [|done]. nra.
    - apply (Rmult_lt_reg_r (IZR n)); [done|]. field_simplify; [|done]. nra. }
  pose proof (sin2_cos2 α) as Hsc. unfold Rsqr in Hsc.
  assert (HCz : (C * (2 - 2 * cos α) = 0)%R) by nra.
  assert (HSz : (S * (2 - 2 * cos α) = 0)%R) by nra.
  split; nra.
Qed.

Lemma roots_sum n m :
  0 < n → - n < m < n →
  rsum n (λ s, cos (dft_angle n s m)) = (if decide (m = 0) then IZR n else 0%R) ∧
  rsum n (λ s, sin (dft_angle n s m)) = 0%R.
Proof.
  intros Hn Hm.
  assert (Hn0 : IZR n ≠ 0%R) by (apply not_0_IZR; lia).
  case_decide as Hz.
  - subst m.
    assert (E : ∀ s, dft_angle n s 0 = 0%R).
    { intros s. unfold dft_angle. rewrite Z.mul_0_r. field. done. }
    rewrite (rsum_ext n _ (λ _, 1%R)), (rsum_ext n (λ s, sin _) (λ _, 0%R)).
    + rewrite rsum_zero, rsum_const by lia. split; lra.
    + intros s _. by rewrite E, sin_0.
    + intros s _. by rewrite E, cos_0.
  - destruct (Z_lt_le_dec 0 m) as [Hpos|Hneg]; [apply roots_cancel; lia|].
    assert (E : ∀ s, dft_angle n s m = (- dft_angle n s (- m))%R).
    { intros s. unfold dft_angle. rewrite Z.mul_opp_r, opp_IZR. field. done. }
    destruct (roots_cancel n (- m) Hn ltac:(lia)) as [HC HS].
    rewrite (rsum_ext n _ (λ s, cos (dft_angle n s (- m)))),
            (rsum_ext n (λ s, sin _) (λ s, (-1) * sin (dft_angle n s (- m)))%R).
    + rewrite rsum_scal, HC, HS. split; lra.
    + intros s _. rewrite E, sin_neg. lra.
    + intros s _. by rewrite E, cos_neg.
Qed.

(** *** The transform and its inverse *)

Lemma lane_bind_seqZ (f : Z → list reals) (n m x i : Z) :
  (∀ y, 0 ≤ y < n → Z.of_nat (length (f y)) = m) →
  0 ≤ x < n → 0 ≤ i < m →
  lane (seqZ 0 n ≫= f) (x * m + i) = lane (f x) i.
Proof. intros. unfold lane. by rewrite (lookup_bind_seqZ f n m). Qed.

Lemma dft_lane_re sign n v j :
  0 ≤ j < n →
  lane (dft sign n v) (2 * j)
  = rsum n (λ s, lane v (2 * s) * cos (dft_angle n s j)
                 - dft_sign sign * lane v (2 * s + 1) * sin (dft_angle n s j))%R.
Proof.
  intros Hj. unfold lane at 1, dft.
  replace (2 * j) with (j * 2 + 0) by lia.
  rewrite (lookup_bind_seqZ _ n 2); [done|done|lia..].
Qed.

Lemma dft_lane_im sign n v j :
  0 ≤ j < n →
  lane (dft sign n v) (2 * j + 1)
  = rsum n (λ s, dft_sign sign * lane v (2 * s) * sin (dft_angle n s j)
                 + lane v (2 * s + 1) * cos (dft_angle n s j))%R.
Proof.
  intros Hj. unfold lane at 1, dft.
  replace (2 * j + 1) with (j * 2 + 1) by lia.
  rewrite (lookup_bind_seqZ _ n 2); [done|done|lia..].
Qed.

Lemma length_dft sign n v : length (dft sign n v) = Z.to_nat (2 * n).
Proof.
  unfold dft. rewrite (length_bind_const _ _ 2) by done.
  rewrite length_seqZ. lia.
Qed.

Lemma dft_in_place : fft_in_place (real := R).
Proof. intros sign n v Hv. simpl. rewrite length_dft. lia. Qed.

Lemma dft_angle_minus n s t j :
  0 < n → (dft_angle n t s - dft_angle n s j)%R = dft_angle n s (t - j).
Proof.
  intros Hn. unfold dft_angle. rewrite !mult_IZR, minus_IZR.
  assert (IZR n ≠ 0%R) by (apply not_0_IZR; lia). field. done.
Qed.

(** Transforming a multiple of a transform in the opposite direction
    gives back [n] times that multiple of the data. *)
Lemma dft_inversion sign n (v w : list R) (κ : R) j :
  0 < n → 0 ≤ j < n →
  (∀ s, 0 ≤ s < n → lane w (2 * s) = (lane (dft sign n v) (2 * s) * κ)%R ∧
                     lane w (2 * s + 1) = (lane (dft sign n v) (2 * s + 1) * κ)%R) →
  lane (dft (opposite sign) n w) (2 * j) = (κ * IZR n * lane v (2 * j))%R ∧
  lane (dft (opposite sign) n w) (2 * j + 1) = (κ * IZR n * lane v (2 * j + 1))%R.
Proof.
  intros Hn Hj Hw.
  rewrite dft_lane_re, dft_lane_im by done.
  set (X t := lane v (2 * t)). set (Y t := lane v (2 * t + 1)).
  set (σ := dft_sign sign).
  assert (Hσ : (σ = 1 ∨ σ = -1)%R) by (unfold σ; destruct sign; simpl; auto).
  assert (Hσ' : dft_sign (opposite sign) = (- σ)%R) by (unfold σ; destruct sign; simpl; lra).
  rewrite Hσ'.
  set (fA s t := (X t * cos (dft_angle n t s) - σ * Y t * sin (dft_angle n t s))%R).
  set (fB s t := (σ * X t * sin (dft_angle n t s) + Y t * cos (dft_angle n t s))%R).
  assert (Hre : ∀ s, 0 ≤ s < n → lane w (2 * s) = (κ * rsum n (fA s))%R).
  { intros s Hs. destruct (Hw s Hs) as [-> _]. rewrite dft_lane_re by done. apply Rmult_comm. }
  assert (Him : ∀ s, 0 ≤ s < n → lane w (2 * s + 1) = (κ * rsum n (fB s))%R).
  { intros s Hs. destruct (Hw s Hs) as [_ ->]. rewrite dft_lane_im by done. apply Rmult_comm. }
  split.
  - rewrite (rsum_ext n _ (λ s, rsum n (λ t,
        (κ * X t) * cos (dft_angle n s (t - j))
        + (- (κ * σ * Y t)) * sin (dft_angle n s (t - j))))%R).
    2:{ intros s Hs. rewrite Hre, Him by done.
        transitivity ((κ * cos (dft_angle n s j)) * rsum n (fA s)
                      + (κ * σ * sin (dft_angle n s j)) * rsum n (fB s))%R; [ring|].
        rewrite <- rsum_lin. apply rsum_ext.
        intros t _. rewrite <- dft_angle_minus, cos_minus, sin_minus by done.
        unfold fA, fB. destruct Hσ as [-> | ->]; ring. }
    rewrite rsum_swap.
    rewrite (rsum_ext n _ (λ t, if decide (t = j) then (κ * IZR n * X t)%R else 0%R)).
    { by rewrite rsum_delta. }
    intros t Ht. rewrite rsum_lin.
    destruct (roots_sum n (t - j) Hn ltac:(lia)) as [-> ->].
    repeat case_decide; try lia; lra.
  - rewrite (rsum_ext n _ (λ s, rsum n (λ t,
        (κ * Y t) * cos (dft_angle n s (t - j))
        + (κ * σ * X t) * sin (dft_angle n s (t - j))))%R).
    2:{ intros s Hs. rewrite Hre, Him by done.
        transitivity ((- (κ * σ * sin (dft_angle n s j))) * rsum n (fA s)
                      + (κ * cos (dft_angle n s j)) * rsum n (fB s))%R; [ring|].
        rewrite <- rsum_lin. apply rsum_ext.
        intros t _. rewrite <- dft_angle_minus, cos_minus, sin_minus by done.
        unfold fA, fB. destruct Hσ as [-> | ->]; ring. }
    rewrite rsum_swap.
    rewrite (rsum_ext n _ (λ t, if decide (t = j) then (κ * IZR n * Y t)%R else 0%R)).
    { by rewrite rsum_delta. }
    intros t Ht. rewrite rsum_lin.
    destruct (roots_sum n (t - j) Hn ltac:(lia)) as [-> ->].
    repeat case_decide; try lia; lra.
Qed.

(** *** The layout of the factor tensor *)

Section FactorLayout.
Variables (L a M R : Z) (κ : reals).
Hypothesis Hlat : lattice L a M.
Hypothesis HR : 0 < R.

Local Abbreviation c := (lat_c a M).
Local Abbreviation p := (lat_p a M).
Local Abbreviation q := (lat_q a M).
Local Abbreviation d := (lat_d L a M).

Lemma wfac_index_out r w l k j :
  0 ≤ j → wfac_index a M L p r w l k j = out_index a M L p r w l k j.
Proof.
  intros Hj. unfold wfac_index, out_index. rewrite iwfac_rem_as_mod by done.
  rewrite Z.add_mod_idemp_l; [done|]. destruct Hlat. lia.
Qed.

Lemma wfac_spec_lane t G r w l k s e :
  0 ≤ r < c → 0 ≤ w < R → 0 ≤ l < q → 0 ≤ k < p → 0 ≤ s < d → 0 ≤ e < 2 →
  lane (wfac_spec κ t L a M R G) (2 * (slot_base p q R r w l k + s * (c * p * q * R)) + e)
  = lane (wfac_sample κ t L a M G r w l k s) e.
Proof.
  intros Hr Hw Hl Hk Hs He.
  destruct (lattice_facts L a M Hlat) as (Hc & Hp & Hq & Hb & Hd0 & Ea & Em & Eb & EL & Hg).
  unfold wfac_spec, range. rewrite !Z.sub_0_r.
  revert Hr Hl Hk Hs Hc Hp Hq Hd0. generalize c, p, q, d. clear Ea Em Eb EL Hg Hb.
  intros c' p' q' d' Hr Hl Hk Hs Hc Hp Hq Hd0.
  assert (B1 : 0 ≤ k * 2 + e < p' * 2) by lia.
  assert (B2 : 0 ≤ l * (p' * 2) + (k * 2 + e) < q' * (p' * 2)) by nia.
  assert (B3 : 0 ≤ w * (q' * (p' * 2)) + (l * (p' * 2) + (k * 2 + e)) < R * (q' * (p' * 2))) by nia.
  assert (B4 : 0 ≤ r * (R * (q' * (p' * 2))) + (w * (q' * (p' * 2)) + (l * (p' * 2) + (k * 2 + e)))
               < c' * (R * (q' * (p' * 2)))) by nia.
  replace (2 * (slot_base p' q' R r w l k + s * (c' * p' * q' * R)) + e)
    with (s * (c' * (R * (q' * (p' * 2))))
          + (r * (R * (q' * (p' * 2)))
             + (w * (q' * (p' * 2)) + (l * (p' * 2) + (k * 2 + e)))))
    by (unfold slot_base; ring).
  assert (Hlen : ∀ s r w l k, Z.of_nat (length (wfac_sample κ t L a M G r w l k s)) = 2) by done.
  rewrite lane_bind_seqZ; [|intros|done..].
  2:{ repeat (apply length_bind_seqZ; [nia|nia|intros]). apply Hlen. }
  rewrite lane_bind_seqZ; [|intros|done..].
  2:{ repeat (apply length_bind_seqZ; [nia|nia|intros]). apply Hlen. }
  rewrite lane_bind_seqZ; [|intros|done..].
  2:{ repeat (apply length_bind_seqZ; [nia|nia|intros]). apply Hlen. }
  rewrite lane_bind_seqZ; [|intros|done..].
  2:{ repeat (apply length_bind_seqZ; [nia|nia|intros]). apply Hlen. }
  rewrite lane_bind_seqZ; [done|intros; apply Hlen|done..].
Qed.

Lemma length_wfac_spec t G : Z.of_nat (length (wfac_spec κ t L a M R G)) = 2 * (L * R).
Proof.
  destruct (lattice_facts L a M Hlat) as (Hc & Hp & Hq & Hb & Hd0 & Ea & Em & Eb & EL & Hg).
  unfold wfac_spec, range. rewrite !Z.sub_0_r.
  rewrite (length_bind_seqZ _ _ (c * (R * (q * (p * 2))))); [|lia|nia|intros].
  - enough (H : ∀ L' c' p' q' d', L' = d' * p' * q' * c' →
      d' * (c' * (R * (q' * (p' * 2)))) = 2 * (L' * R)) by (by apply H).
    intros; subst; ring.
  - repeat (apply length_bind_seqZ; [nia|nia|intros]). done.
Qed.

End FactorLayout.

Lemma factor_column_lane (GF : list reals) base ld3 n (scaling : reals) s e :
  0 ≤ s < n → 0 ≤ e < 2 →
  lane (factor_column GF base ld3 n scaling) (2 * s + e)
  = (lane GF (2 * (base + s * ld3) + e) * scaling)%R.
Proof.
  intros Hs He. unfold factor_column.
  replace (2 * s + e) with (s * 2 + e) by lia.
  rewrite (lane_bind_seqZ _ n 2); [|done..].
  assert (e = 0 ∨ e = 1) as [-> | ->] by lia; [|done].
  by rewrite Z.add_0_r.
Qed.

Section SlotRoundtrip.
Variables (L a M R : Z) (κ : reals).
Hypothesis Hlat : lattice L a M.
Hypothesis HR : 0 < R.
Variables (sb fp : ptr).

Local Abbreviation c := (lat_c a M).
Local Abbreviation p := (lat_p a M).
Local Abbreviation q := (lat_q a M).
Local Abbreviation d := (lat_d L a M).
Local Abbreviation pl := (derived_plan L a M sb fp).

Lemma wfac_column_lane t (G : list reals) r w l k j e :
  0 ≤ j < d → 0 ≤ e < 2 →
  lane (wfac_column t L a M G r w l k) (2 * j + e)
  = lane (window_sample t G (out_index a M L p r w l k j)) e.
Proof.
  intros Hj He. unfold wfac_column, range. rewrite Z.sub_0_r.
  replace (2 * j + e) with (j * 2 + e) by lia.
  rewrite (lane_bind_seqZ _ d 2); [|by destruct t|done..].
  by rewrite wfac_index_out by (done || lia).
Qed.

(** The scaling of [wfac], the scaling of [iwfac] and the factor [d] of
    the transform pair. *)
Lemma scaling_product :
  (κ * (1 / sqrt (IZR M) / IZR d) * IZR d = κ / sqrt (IZR M))%R.
Proof.
  destruct (lattice_facts L a M Hlat) as (Hc & Hp & Hq & Hb & Hd0 & Ea & Em & Eb & EL & Hg).
  assert (0 < IZR M)%R by (apply IZR_lt; destruct Hlat; lia).
  assert (0 < sqrt (IZR M))%R by (by apply sqrt_lt_R0).
  assert (0 < IZR d)%R by (by apply IZR_lt).
  field. split; lra.
Qed.

Lemma slot_out_wfac t (G : list reals) r w l k s e :
  0 ≤ r < c → 0 ≤ w < R → 0 ≤ l < q → 0 ≤ k < p → 0 ≤ s < d → 0 ≤ e < 2 →
  lane (slot_out pl R (wfac_spec κ t L a M R G) r w l k) (2 * s + e)
  = (lane (window_sample t G (out_index a M L p r w l k s)) e * (κ / sqrt (IZR M)))%R.
Proof.
  intros Hr Hw Hl Hk Hs He.
  destruct (lattice_facts L a M Hlat) as (Hc & Hp & Hq & Hb & Hd0 & Ea & Em & Eb & EL & Hg).
  unfold slot_out. cbn [plan_c plan_p plan_q plan_d plan_scaling derived_plan].
  change (fftw_dft FFTW_BACKWARD) with (dft (opposite FFTW_FORWARD)).
  set (κ' := (κ * (1 / sqrt (IZR M) / IZR d))%R).
  destruct (dft_inversion FFTW_FORWARD d (wfac_column t L a M G r w l k)
    (factor_column (wfac_spec κ t L a M R G) (slot_base p q R r w l k) (c * p * q * R) d
       (rdiv (rdiv (rofZ 1) (rsqrt (rofZ M))) (rofZ d))) κ' s Hd0 Hs) as [Hre Him].
  { intros s' Hs'. split.
    - rewrite <- (Z.add_0_r (2 * s')) at 1. rewrite factor_column_lane by (done || lia).
      rewrite (wfac_spec_lane L a M R κ Hlat HR) by (done || lia).
      unfold wfac_sample, κ'. simpl. unfold lane at 1. simpl. lra.
    - rewrite factor_column_lane by (done || lia).
      rewrite (wfac_spec_lane L a M R κ Hlat HR) by (done || lia).
      unfold wfac_sample, κ'. simpl. unfold lane at 1. simpl. lra. }
  assert (e = 0 ∨ e = 1) as [-> | ->] by lia.
  - rewrite Z.add_0_r, Hre. rewrite <- (Z.add_0_r (2 * s)) at 1.
    rewrite wfac_column_lane by (done || lia). unfold κ'.
    rewrite scaling_product. ring.
  - rewrite Him. rewrite wfac_column_lane by (done || lia). unfold κ'.
    rewrite scaling_product. ring.
Qed.

End SlotRoundtrip.

Section WindowRoundtrip.
Variables (L a M R : Z) (κ : reals).
Hypothesis Hlat : lattice L a M.
Hypothesis HR : 0 < R.
Variables (sb fp : ptr).

Local Abbreviation c := (lat_c a M).
Local Abbreviation p := (lat_p a M).
Local Abbreviation q := (lat_q a M).
Local Abbreviation d := (lat_d L a M).
Local Abbreviation pl := (derived_plan L a M sb fp).

Lemma iwfac_wfac_value t (G G0 : list reals) :
  Z.of_nat (length G) = lanes t * (L * R) → length G0 = length G →
  iwfac_value t pl R (wfac_spec κ t L a M R G) G0
  = (λ x, x * (κ / sqrt (IZR M)))%R <$> G.
Proof.
  intros HG HG0. apply list_eq. intros i.
  destruct (decide (i < Z.to_nat (lanes t * (L * R)))%nat) as [Hi|Hi].
  - destruct (all_writes_full L a M R sb fp Hlat t (wfac_spec κ t L a M R G) i HR Hi)
      as (y & Hy & <-).
    rewrite (iwfac_value_lookup L a M R sb fp Hlat) by (done || lia).
    apply all_writes_inv in Hy as (r & w & l & k & s & Hr & Hw & Hl & Hk & Hs & Hy).
    apply (write_at_elem L a M) in Hy as (e & He & Ey & ->).
    rewrite slot_out_wfac by (done || destruct t; simpl in *; lia).
    rewrite list_lookup_fmap. unfold target. rewrite Ey.
    destruct (G !! Z.to_nat (lanes t * out_index a M L p r w l k s + e)) as [x|] eqn:Ex.
    + simpl. f_equal. f_equal. unfold window_sample, lane.
      destruct t; simpl in He.
      * assert (e = 0) as -> by lia. simpl. rewrite Z.mul_1_l, Z.add_0_r in Ex.
        by rewrite Ex.
      * assert (e = 0 ∨ e = 1) as [-> | ->] by lia; simpl in *.
        -- rewrite Z.add_0_r in Ex. by rewrite Ex.
        -- by rewrite Ex.
    + apply lookup_ge_None_1 in Ex. unfold target in Hi. rewrite Ey in Hi. lia.
  - rewrite !lookup_ge_None_2; [done|..].
    + rewrite length_fmap. lia.
    + unfold iwfac_value. rewrite length_apply_writes. lia.
Qed.

End WindowRoundtrip.

Lemma factor_index_decode c p q R d i :
  0 < c → 0 < p → 0 < q → 0 < R → 0 < d →
  0 ≤ i < 2 * (d * (c * p * q * R)) →
  ∃ r w l k s e,
    0 ≤ r < c ∧ 0 ≤ w < R ∧ 0 ≤ l < q ∧ 0 ≤ k < p ∧ 0 ≤ s < d ∧ 0 ≤ e < 2 ∧
    i = 2 * (slot_base p q R r w l k + s * (c * p * q * R)) + e.
Proof.
  intros Hc Hp Hq HR Hd Hi.
  assert (Hld : 0 < c * p * q * R) by nia.
  set (n := i `div` 2). set (m := n `mod` (c * p * q * R)).
  set (m1 := m `div` p). set (m2 := m1 `div` q).
  exists (m2 `div` R), (m2 `mod` R), (m1 `mod` q), (m `mod` p),
    (n `div` (c * p * q * R)), (i `mod` 2).
  pose proof (Z.div_mod i 2 ltac:(lia)) as E1. fold n in E1.
  pose proof (Z.mod_pos_bound i 2 ltac:(lia)) as B1.
  pose proof (Z.div_mod n (c * p * q * R) ltac:(lia)) as E2. fold m in E2.
  pose proof (Z.mod_pos_bound n (c * p * q * R) Hld) as B2. fold m in B2.
  pose proof (Z.div_mod m p ltac:(lia)) as E3. fold m1 in E3.
  pose proof (Z.mod_pos_bound m p Hp) as B3.
  pose proof (Z.div_mod m1 q ltac:(lia)) as E4. fold m2 in E4.
  pose proof (Z.mod_pos_bound m1 q Hq) as B4.
  pose proof (Z.div_mod m2 R ltac:(lia)) as E5.
  pose proof (Z.mod_pos_bound m2 R HR) as B5.
  assert (Hn : 0 ≤ n < d * (c * p * q * R)).
  { unfold n. split; [apply Z.div_pos; lia|apply Z.div_lt_upper_bound; lia]. }
  assert (Hm1 : 0 ≤ m1 < q * (R * c)).
  { unfold m1. split; [apply Z.div_pos; lia|apply Z.div_lt_upper_bound; [lia|]].
    replace (p * (q * (R * c))) with (c * p * q * R) by ring. lia. }
  assert (Hm2 : 0 ≤ m2 < R * c).
  { unfold m2. split; [apply Z.div_pos; lia|apply Z.div_lt_upper_bound; lia]. }
  repeat split; try lia.
  - apply Z.div_pos; lia.
  - apply Z.div_lt_upper_bound; lia.
  - apply Z.div_pos; lia.
  - apply Z.div_lt_upper_bound; [lia|]. lia.
  - unfold slot_base.
    rewrite E1 at 1. f_equal. f_equal. rewrite E2 at 1.
    rewrite Z.add_comm. rewrite (Z.mul_comm (c * p * q * R)). f_equal.
    rewrite E3 at 1. rewrite Z.add_comm. f_equal. f_equal.
    rewrite E4 at 1. rewrite Z.add_comm. f_equal. f_equal.
    rewrite E5 at 1. rewrite Z.add_comm. done.
Qed.

Section FactorRoundtrip.
Variables (L a M R : Z) (κ : reals).
Hypothesis Hlat : lattice L a M.
Hypothesis HR : 0 < R.
Variables (sb fp : ptr).

Local Abbreviation c := (lat_c a M).
Local Abbreviation p := (lat_p a M).
Local Abbreviation q := (lat_q a M).
Local Abbreviation d := (lat_d L a M).
Local Abbreviation pl := (derived_plan L a M sb fp).

Lemma wfac_iwfac_lane (GF G0 : list reals) r w l k s e :
  2 * (L * R) ≤ Z.of_nat (length G0) →
  0 ≤ r < c → 0 ≤ w < R → 0 ≤ l < q → 0 ≤ k < p → 0 ≤ s < d → 0 ≤ e < 2 →
  lane (wfac_sample κ ComplexType L a M (iwfac_value ComplexType pl R GF G0) r w l k s) e
  = (lane GF (2 * (slot_base p q R r w l k + s * (c * p * q * R)) + e)
     * (κ / sqrt (IZR M)))%R.
Proof.
  intros HG0 Hr Hw Hl Hk Hs He.
  destruct (lattice_facts L a M Hlat) as (Hc & Hp & Hq & Hb & Hd0 & Ea & Em & Eb & EL & Hg).
  set (FC := factor_column GF (slot_base p q R r w l k) (c * p * q * R) d
               (rdiv (rdiv (rofZ 1) (rsqrt (rofZ M))) (rofZ d))).
  set (col := wfac_column ComplexType L a M (iwfac_value ComplexType pl R GF G0) r w l k).
  destruct (dft_inversion FFTW_BACKWARD d FC col 1%R s Hd0 Hs) as [Hre Him].
  { assert (Hlane : ∀ j e', 0 ≤ j < d → 0 ≤ e' < 2 →
      lane col (2 * j + e') = lane (dft FFTW_BACKWARD d FC) (2 * j + e')).
    { intros j e' Hj He'. unfold col. rewrite wfac_column_lane by done.
      set (i := out_index a M L p r w l k j).
      assert (Hy : (2 * i + e', lane (dft FFTW_BACKWARD d FC) (2 * j + e'))
                   ∈ all_writes ComplexType pl R GF).
      { apply (all_writes_elem L a M R sb fp ComplexType GF r w l k j); try done.
        unfold write_at. cbn [plan_a plan_M plan_L plan_p derived_plan]. fold i.
        assert (e' = 0 ∨ e' = 1) as [-> | ->] by lia.
        - rewrite !Z.add_0_r. left.
        - right. left. }
      pose proof (iwfac_value_lookup L a M R sb fp Hlat ComplexType GF G0 _ HR
        ltac:(simpl; lia) Hy) as Hv.
      unfold target in Hv. simpl in Hv.
      unfold window_sample, lane at 1.
      assert (e' = 0 ∨ e' = 1) as [-> | ->] by lia; simpl.
      - rewrite Z.add_0_r in Hv. unfold lane at 1. by rewrite Hv, Z.add_0_r.
      - unfold lane at 1. by rewrite Hv. }
    intros s' Hs'. split.
    - rewrite <- (Z.add_0_r (2 * s')). rewrite Hlane by lia. lra.
    - rewrite Hlane by lia. lra. }
  simpl opposite in *. fold col in Hre, Him.
  unfold wfac_sample. fold col.
  assert (0 < IZR M)%R by (apply IZR_lt; destruct Hlat; lia).
  assert (0 < sqrt (IZR M))%R by (by apply sqrt_lt_R0).
  assert (0 < IZR d)%R by (by apply IZR_lt).
  assert (e = 0 ∨ e = 1) as [-> | ->] by lia.
  - unfold lane at 1. simpl. rewrite Hre. rewrite <- (Z.add_0_r (2 * s)) at 1.
    unfold FC. rewrite factor_column_lane by (done || lia). simpl. field. lra.
  - unfold lane at 1. simpl. rewrite Him.
    unfold FC. rewrite factor_column_lane by (done || lia). simpl. field. lra.
Qed.

Lemma wfac_iwfac_value (GF G0 : list reals) :
  Z.of_nat (length GF) = 2 * (L * R) → 2 * (L * R) ≤ Z.of_nat (length G0) →
  wfac_spec κ ComplexType L a M R (iwfac_value ComplexType pl R GF G0)
  = (λ x, x * (κ / sqrt (IZR M)))%R <$> GF.
Proof.
  intros HGF HG0.
  destruct (lattice_facts L a M Hlat) as (Hc & Hp & Hq & Hb & Hd0 & Ea & Em & Eb & EL & Hg).
  assert (EL' : 2 * (L * R) = 2 * (d * (c * p * q * R))).
  { enough (H : ∀ L' c' p' q' d', L' = d' * p' * q' * c' →
      2 * (L' * R) = 2 * (d' * (c' * p' * q' * R))) by (by apply H).
    intros; subst; ring. }
  apply list_eq. intros n.
  destruct (decide (Z.of_nat n < 2 * (L * R))) as [Hn|Hn].
  - destruct (factor_index_decode c p q R d (Z.of_nat n)) as
      (r & w & l & k & s & e & Hr & Hw & Hl & Hk & Hs & He & En); try done; [lia|].
    pose proof (wfac_spec_lane L a M R κ Hlat HR ComplexType
      (iwfac_value ComplexType pl R GF G0) r w l k s e Hr Hw Hl Hk Hs He) as Hlane.
    rewrite wfac_iwfac_lane in Hlane by done. rewrite <- En in Hlane.
    unfold lane in Hlane. rewrite Nat2Z.id in Hlane.
    rewrite list_lookup_fmap.
    destruct (lookup_lt_is_Some_2 GF n ltac:(lia)) as [x Ex].
    destruct (lookup_lt_is_Some_2 (wfac_spec κ ComplexType L a M R
      (iwfac_value ComplexType pl R GF G0)) n) as [x' Ex'].
    { pose proof (length_wfac_spec L a M R κ Hlat HR ComplexType
        (iwfac_value ComplexType pl R GF G0)). lia. }
    rewrite Ex, Ex' in *. simpl in *. by rewrite Hlane.
  - rewrite !lookup_ge_None_2; [done|..].
    + rewrite length_fmap. lia.
    + pose proof (length_wfac_spec L a M R κ Hlat HR ComplexType
        (iwfac_value ComplexType pl R GF G0)). lia.
Qed.

End FactorRoundtrip.

Lemma wfac_scaling_unit M (v : list reals) :
  0 < M → (λ x, x * (wfac_scaling M / sqrt (IZR M)))%R <$> v = v.
Proof.
  intros HM. rewrite <- (list_fmap_id v) at 2. apply list_fmap_ext.
  intros _ x _. unfold wfac_scaling. simpl.
  assert (0 < IZR M)%R by (by apply IZR_lt).
  assert (0 < sqrt (IZR M))%R by (by apply sqrt_lt_R0).
  field. lra.
Qed.

Lemma iwfac_value_state t L a M R gf g (GF G0 : list reals) (σ : @state reals) :
  lattice L a M → 0 < R → gf ≠ g →
  init_status (oracle σ) = LTFATERR_SUCCESS →
  mem σ !! gf = Some (Lanes GF) → 2 * (L * R) ≤ Z.of_nat (length GF) →
  mem σ !! g = Some (Lanes G0) → lanes t * (L * R) ≤ Z.of_nat (length G0) →
  ∃ σ', iwfac t (Some gf) L R a M (Some g) σ = Done LTFATERR_SUCCESS σ' ∧
        mem σ' !! g = Some (Lanes (iwfac_value t (derived_plan L a M None None) R GF G0)).
Proof.
  intros Hlat HR Hne Hok Hgf HGF Hg HG0.
  destruct (iwfac_spec t L a M R gf g GF G0 σ dft_in_place Hlat HR Hgf HGF Hg HG0 Hne)
    as (plan & sb & fp & E).
  rewrite Hok in E. simpl in E. eexists. split; [exact E|].
  simpl. by rewrite lookup_insert_eq.
Qed.

(** Claim C2, amended.  In exact arithmetic, with the unnormalized forward
    and backward length-[d] transforms and with [wfac] scaled by [sqrt M],
    the factorisation round-trips: [iwfac (wfac g) = g] in both regimes;
    [wfac (iwfac gf) = gf] for every factor array in the complex regime
    and, in the real regime, where [iwfac] keeps the real parts only, for
    every [gf] that is the factor of a real window.  The scaling constant
    [1 / (sqrt M · d)] of [iwfac], the scaling [sqrt M] of [wfac] and the
    factor [d] of the transform pair compose to [1]. *)
Theorem factorization_roundtrip L a M R gf g (σ : @state reals) :
  lattice L a M → 0 < R → gf ≠ g →
  init_status (oracle σ) = LTFATERR_SUCCESS →
  (∀ t G G0,
     Z.of_nat (length G) = lanes t * (L * R) → length G0 = length G →
     mem σ !! gf = Some (Lanes (wfac_spec (wfac_scaling M) t L a M R G)) →
     mem σ !! g = Some (Lanes G0) →
     ∃ σ', iwfac t (Some gf) L R a M (Some g) σ = Done LTFATERR_SUCCESS σ' ∧
           mem σ' !! g = Some (Lanes G)) ∧
  (∀ GF G0,
     Z.of_nat (length GF) = 2 * (L * R) → Z.of_nat (length G0) = 2 * (L * R) →
     mem σ !! gf = Some (Lanes GF) → mem σ !! g = Some (Lanes G0) →
     ∃ σ' G', iwfac ComplexType (Some gf) L R a M (Some g) σ = Done LTFATERR_SUCCESS σ' ∧
           mem σ' !! g = Some (Lanes G') ∧
           wfac_spec (wfac_scaling M) ComplexType L a M R G' = GF) ∧
  (∀ G G0,
     Z.of_nat (length G) = L * R → length G0 = length G →
     mem σ !! gf = Some (Lanes (wfac_spec (wfac_scaling M) RealType L a M R G)) →
     mem σ !! g = Some (Lanes G0) →
     ∃ σ' G', iwfac RealType (Some gf) L R a M (Some g) σ = Done LTFATERR_SUCCESS σ' ∧
           mem σ' !! g = Some (Lanes G') ∧
           wfac_spec (wfac_scaling M) RealType L a M R G'
           = wfac_spec (wfac_scaling M) RealType L a M R G) ∧
  (plan_scaling (derived_plan L a M None None) * wfac_scaling M * IZR (lat_d L a M)
   = 1)%R.
Proof.
  intros Hlat HR Hne Hok.
  assert (HM : 0 < M) by apply Hlat.
  assert (Hfst : ∀ t G G0,
     Z.of_nat (length G) = lanes t * (L * R) → length G0 = length G →
     mem σ !! gf = Some (Lanes (wfac_spec (wfac_scaling M) t L a M R G)) →
     mem σ !! g = Some (Lanes G0) →
     ∃ σ', iwfac t (Some gf) L R a M (Some g) σ = Done LTFATERR_SUCCESS σ' ∧
           mem σ' !! g = Some (Lanes G)).
  { intros t G G0 HG HG0 Hgf Hg.
    destruct (iwfac_value_state t L a M R gf g _ G0 σ Hlat HR Hne Hok Hgf) as (σ' & E & Hm);
      [rewrite length_wfac_spec by done; lia|done|lia|].
    exists σ'. split; [done|]. rewrite Hm.
    by rewrite iwfac_wfac_value, wfac_scaling_unit. }
  split; [exact Hfst|]. split; [|split].
  - intros GF G0 HGF HG0 Hgf Hg.
    destruct (iwfac_value_state ComplexType L a M R gf g GF G0 σ Hlat HR Hne Hok Hgf) as (σ' & E & Hm);
      [lia|done|simpl; lia|].
    exists σ', (iwfac_value ComplexType (derived_plan L a M None None) R GF G0).
    split; [done|]. split; [done|].
    rewrite wfac_iwfac_value by (done || lia). by apply wfac_scaling_unit.
  - intros G G0 HG HG0 Hgf Hg.
    destruct (Hfst RealType G G0) as (σ' & E & Hm); [simpl; lia|done..|].
    by exists σ', G.
  - cbn [plan_scaling derived_plan]. simpl. unfold wfac_scaling.
    destruct (lattice_facts L a M Hlat) as (Hc & Hp & Hq & Hb & Hd0 & _).
    assert (0 < IZR M)%R by (by apply IZR_lt).
    assert (0 < sqrt (IZR M))%R by (by apply sqrt_lt_R0).
    assert (0 < IZR (lat_d L a M))%R by (by apply IZR_lt).
    field. split; lra.
Qed.

(** C2 at [(L, a, M) = (2, 1, 1)], [R = 1], on the window [[1; 0]]. *)
Lemma factorization_roundtrip_witness :
  ∃ σ', iwfac ComplexType (Some 1%positive) 2 1 1 1 (Some 2%positive)
          (roundtrip_state (wfac_spec (wfac_scaling 1) ComplexType 2 1 1 1 [1; 0; 0; 0]%R)
             [0; 0; 0; 0]%R)
        = Done LTFATERR_SUCCESS σ' ∧
        mem σ' !! 2%positive = Some (Lanes [1; 0; 0; 0]%R).
Proof.
  assert (Hlat : lattice 2 1 1) by (split; [lia..|reflexivity]).
  destruct (factorization_roundtrip 2 1 1 1 1%positive 2%positive
    (roundtrip_state (wfac_spec (wfac_scaling 1) ComplexType 2 1 1 1 [1; 0; 0; 0]%R)
       [0; 0; 0; 0]%R)
    Hlat ltac:(lia) ltac:(discriminate) ltac:(reflexivity)) as [H _].
  apply (H ComplexType [1; 0; 0; 0]%R [0; 0; 0; 0]%R); reflexivity.
Defined.

(** Against C2 as stated.  With the scaling [sqrt M / d] that the claim
    gives to [wfac], [iwfac (wfac g)] on the window [[1; 0]] of
    [(L, a, M) = (2, 1, 1)] is [[1/2; 0]], not [g], and the three constants
    compose to [1/2]; and in the real regime the factor array [[i]] of
    [(L, a, M) = (1, 1, 1)] is not recovered by [wfac (iwfac gf)], whose
    imaginary part is [0]. *)
Lemma roundtrip_not_identity :
  (∃ σ', iwfac ComplexType (Some 1%positive) 2 1 1 1 (Some 2%positive)
          (roundtrip_state
             (wfac_spec (wfac_scaling_4_3 2 1 1) ComplexType 2 1 1 1 [1; 0; 0; 0]%R)
             [0; 0; 0; 0]%R)
        = Done LTFATERR_SUCCESS σ' ∧
        mem σ' !! 2%positive ≠ Some (Lanes [1; 0; 0; 0]%R)) ∧
  (plan_scaling (derived_plan 2 1 1 None None) * wfac_scaling_4_3 2 1 1
   * IZR (lat_d 2 1 1) ≠ 1)%R ∧
  (∃ σ' G', iwfac RealType (Some 1%positive) 1 1 1 1 (Some 2%positive)
          (roundtrip_state [0; 1]%R [0]%R) = Done LTFATERR_SUCCESS σ' ∧
        mem σ' !! 2%positive = Some (Lanes G') ∧
        wfac_spec (wfac_scaling 1) RealType 1 1 1 1 G' ≠ [0; 1]%R).
Proof.
  assert (Hlat : lattice 2 1 1) by (split; [lia..|reflexivity]).
  assert (Hlat1 : lattice 1 1 1) by (split; [lia..|reflexivity]).
  split; [|split].
  - destruct (iwfac_value_state ComplexType 2 1 1 1 1%positive 2%positive
      (wfac_spec (wfac_scaling_4_3 2 1 1) ComplexType 2 1 1 1 [1; 0; 0; 0]%R)
      [0; 0; 0; 0]%R
      (roundtrip_state
         (wfac_spec (wfac_scaling_4_3 2 1 1) ComplexType 2 1 1 1 [1; 0; 0; 0]%R)
         [0; 0; 0; 0]%R)
      Hlat ltac:(lia) ltac:(discriminate) ltac:(reflexivity) ltac:(reflexivity))
      as (σ' & E & Hm); [rewrite length_wfac_spec by (done || lia); lia|reflexivity|simpl; lia|].
    exists σ'. split; [done|]. intros Hc. unfold loc in *. rewrite Hm in Hc.
    rewrite (iwfac_wfac_value 2 1 1 1 _ Hlat ltac:(lia) None None ComplexType [1; 0; 0; 0]%R)
      in Hc by reflexivity.
    unfold wfac_scaling_4_3 in Hc.
    change (lat_d 2 1 1) with 2 in Hc. simpl in Hc. injection Hc as Hc.
    rewrite sqrt_1 in Hc. lra.
  - cbn [plan_scaling derived_plan]. unfold wfac_scaling_4_3.
    change (lat_d 2 1 1) with 2. simpl. rewrite sqrt_1. lra.
  - destruct (iwfac_value_state RealType 1 1 1 1 1%positive 2%positive
      [0; 1]%R [0]%R (roundtrip_state [0; 1]%R [0]%R)
      Hlat1 ltac:(lia) ltac:(discriminate) ltac:(reflexivity) ltac:(reflexivity))
      as (σ' & E & Hm); [simpl; lia|reflexivity|simpl; lia|].
    exists σ', (iwfac_value RealType (derived_plan 1 1 1 None None) 1 [0; 1]%R [0]%R).
    split; [done|]. split; [exact Hm|].
    intros Hc. apply (f_equal (λ v, lane v 1)) in Hc.
    pose proof (wfac_spec_lane 1 1 1 1 (wfac_scaling 1) Hlat1 ltac:(lia) RealType
      (iwfac_value RealType (derived_plan 1 1 1 None None) 1 [0; 1]%R [0]%R)
      0 0 0 0 0 1) as Hl.
    change (2 * (slot_base (lat_p 1 1) (lat_q 1 1) 1 0 0 0 0
                 + 0 * (lat_c 1 1 * lat_p 1 1 * lat_q 1 1 * 1)) + 1) with 1 in Hl.
    rewrite Hl in Hc by (vm_compute; intuition congruence).
    unfold wfac_sample in Hc. change (lat_d 1 1 1) with 1 in Hc.
    unfold lane at 1 in Hc. simpl in Hc.
    rewrite dft_lane_im in Hc by lia.
    unfold rsum in Hc. change (Z.to_nat 1) with 1%nat in Hc.
    cbn [rsum_nat] in Hc. change (Z.of_nat 0) with 0 in Hc.
    pose proof (wfac_column_lane 1 1 1 Hlat1 RealType
      (iwfac_value RealType (derived_plan 1 1 1 None None) 1 [0; 1]%R [0]%R)
      0 0 0 0 0 1 ltac:(vm_compute; intuition congruence) ltac:(lia)) as Hcol.
    change (2 * 0 + 1) with 1 in Hcol, Hc. change (2 * 0) with 0 in Hc.
    rewrite Hcol in Hc.
    replace (dft_angle 1 0 0) with 0%R in Hc by (unfold dft_angle; change (0 * 0) with 0; field).
    rewrite sin_0, cos_0 in Hc. unfold window_sample in Hc.
    change (lane [_; 0%R] 1) with 0%R in Hc. change (lane [0%R; 1%R] 1) with 1%R in Hc.
    lra.
Qed.

(** ** The loops of [iwfac_execute] at the width of [ltfatInt] *)

Section IntFacts.
Context {real : Type} `{!RealOps real, !FftBackend real, !Collaborators real}.
Context {width : LtfatInt}.
Implicit Types (σ : @state real) (lg : list access).

Lemma bind_ret {A B} (a : A) (k : A → @run real B) σ : bind (ret a) k σ = k a σ.
Proof. done. Qed.

Lemma bind_assoc {A B C} (m : @run real A) (f : A → run B) (h : B → run C) σ :
  bind (bind m f) h σ = bind m (λ x, bind (f x) h) σ.
Proof. unfold bind. by destruct (m σ). Qed.

Lemma in_ltfatInt_spec x :
  in_ltfatInt x = true ↔ - ltfatInt_max - 1 ≤ x ≤ ltfatInt_max.
Proof. unfold in_ltfatInt. rewrite andb_true_iff, !Z.leb_le. done. Qed.

Lemma ltfat_int_ok x :
  - ltfatInt_max - 1 ≤ x ≤ ltfatInt_max → ltfat_int (real := real) x = ret x.
Proof.
  intros Hx. unfold ltfat_int. by rewrite (proj2 (in_ltfatInt_spec x) Hx).
Qed.

Lemma ltfat_int_inv x y σ σ' :
  ltfat_int x σ = Done y σ' → y = x ∧ σ' = σ ∧ in_ltfatInt x = true.
Proof.
  unfold ltfat_int. destruct (in_ltfatInt x); [|done].
  unfold ret. by intros [= <- <-].
Qed.

Lemma ltfat_int_overflow x σ : in_ltfatInt x = false → ltfat_int x σ = Fault.
Proof. unfold ltfat_int. by intros ->. Qed.

Lemma ltfat_ints_ok xs :
  (∀ x, x ∈ xs → - ltfatInt_max - 1 ≤ x ≤ ltfatInt_max) →
  ∀ σ, ltfat_ints xs σ = Done tt σ.
Proof.
  unfold ltfat_ints. induction xs as [|x xs IH]; intros Hxs σ; [done|].
  cbn [for_each]. rewrite ltfat_int_ok by (apply Hxs; left).
  change (for_each xs (λ x _, ltfat_int x;; ret tt) tt σ = Done tt σ).
  apply IH. intros y Hy. apply Hxs. by right.
Qed.

(** A loop whose rounds each append their accesses. *)
Lemma for_each_logged (I : @state real → Prop) (xs : list Z) (step : Z)
    (A : Z → list access) (body : Z → list access → run (list access)) :
  (∀ x, x ∈ xs → - ltfatInt_max - 1 ≤ x + step ≤ ltfatInt_max) →
  (∀ x lg σ, x ∈ xs → I σ → ∃ σ', body x lg σ = Done (lg ++ A x) σ' ∧ I σ') →
  ∀ lg σ, I σ →
  ∃ σ', for_each xs (count_up step body) lg σ = Done (lg ++ (xs ≫= A)) σ' ∧ I σ'.
Proof.
  induction xs as [|x xs IH]; intros Hstep Hbody lg σ HI.
  { exists σ. split; [|done]. simpl. unfold ret. by rewrite app_nil_r. }
  destruct (Hbody x lg σ ltac:(left) HI) as (σ1 & E1 & HI1).
  destruct (IH ltac:(intros y Hy; apply Hstep; by right)
               ltac:(intros y lg' σ' Hy; apply Hbody; by right)
               (lg ++ A x) σ1 HI1) as (σ2 & E2 & HI2).
  exists σ2. split; [|done].
  cbn [for_each]. unfold count_up at 1.
  rewrite bind_assoc, (bind_Done _ _ _ _ _ E1), bind_assoc.
  rewrite ltfat_int_ok by (apply Hstep; left). rewrite !bind_ret.
  rewrite E2. by rewrite bind_cons, app_assoc.
Qed.

(** The same for a loop that also carries the read pointer. *)
Lemma for_each_counted (I : @state real → Prop) (n stride gfp0 : Z)
    (A : Z → list access) (body : Z → Z * list access → run (Z * list access)) :
  n ≤ ltfatInt_max → 0 ≤ ltfatInt_max →
  (∀ i lg σ, 0 ≤ i < n → I σ →
     ∃ σ', body i (gfp0 + stride * i, lg) σ
           = Done (gfp0 + stride * (i + 1), lg ++ A i) σ' ∧ I σ') →
  ∀ lg σ, I σ →
  ∃ σ', for_each (range 0 n) (count_up 1 body) (gfp0, lg) σ
        = Done (gfp0 + stride * Z.max 0 n, lg ++ (range 0 n ≫= A)) σ' ∧ I σ'.
Proof.
  intros Hn Hmax Hbody lg σ HI. unfold range. rewrite Z.sub_0_r.
  destruct (Z.le_gt_cases n 0) as [Hn0|Hn0].
  { rewrite seqZ_nil by done. exists σ. split; [|done]. simpl. unfold ret.
    by rewrite Z.max_l, Z.mul_0_r, Z.add_0_r, app_nil_r by done. }
  rewrite Z.max_r by lia.
  assert (Hind : ∀ m : nat, Z.of_nat m ≤ n →
    ∃ σ', for_each (seqZ 0 (Z.of_nat m)) (count_up 1 body) (gfp0, lg) σ
          = Done (gfp0 + stride * Z.of_nat m, lg ++ (seqZ 0 (Z.of_nat m) ≫= A)) σ'
          ∧ I σ').
  { induction m as [|m IH]; intros Hm.
    - exists σ. split; [|done]. simpl. unfold ret.
      by rewrite Z.mul_0_r, Z.add_0_r, app_nil_r.
    - destruct (IH ltac:(lia)) as (σ1 & E1 & HI1).
      destruct (Hbody (Z.of_nat m) (lg ++ (seqZ 0 (Z.of_nat m) ≫= A)) σ1
                  ltac:(lia) HI1) as (σ2 & E2 & HI2).
      exists σ2. split; [|done].
      rewrite seqZ_S, for_each_app. rewrite (bind_Done _ _ _ _ _ E1).
      cbn [for_each]. unfold count_up at 1.
      rewrite bind_assoc, (bind_Done _ _ _ _ _ E2), bind_assoc.
      rewrite ltfat_int_ok by lia. rewrite !bind_ret. unfold ret.
      rewrite bind_app. simpl. rewrite app_nil_r, app_assoc.
      do 2 f_equal. f_equal. lia. }
  destruct (Hind (Z.to_nat n) ltac:(lia)) as (σ' & E & HI').
  rewrite Z2Nat.id in E by lia. eauto.
Qed.

Lemma lattice_products (L a M c p q d R : Z) :
  0 < c → 0 < p → 0 < q → 0 < d → 0 < R →
  a = p * c → M = q * c → L = d * p * q * c →
  d * (c * p * q * R) = L * R ∧ d * p * M = L ∧ p * M ≤ L ∧ q * a ≤ L ∧
  c * p ≤ L ∧ c * p * q ≤ L ∧ c ≤ L ∧ p ≤ L ∧ q ≤ L ∧ d ≤ L ∧ M ≤ L ∧ a ≤ L ∧
  L ≤ L * R ∧ R ≤ L * R ∧ 0 < c * p * q * R.
Proof.
  intros Hc Hp Hq Hd HR -> -> ->.
  assert (0 < p * c) by nia. assert (0 < q * c) by nia. assert (0 < p * q) by nia.
  assert (0 < p * q * c) by nia. assert (0 < d * p) by nia.
  assert (0 < d * p * q) by nia. assert (0 < d * p * q * c) by nia.
  assert (0 < d * q) by nia. assert (0 < d * c) by nia.
  repeat split; try ring; try nia.
Qed.

Lemma elem_of_range2 x n :
  x ∈ range2 (2 * n) ↔ ∃ i, x = 2 * i ∧ 0 ≤ i < n.
Proof.
  unfold range2.
  replace ((2 * n + 1) `div` 2) with n by (apply Z.div_unique with 1; lia).
  rewrite list_elem_of_fmap. split.
  - intros (i & -> & Hi). apply elem_of_seqZ in Hi. exists i. split; [done|lia].
  - intros (i & -> & Hi). exists i. split; [done|]. apply elem_of_seqZ. lia.
Qed.

Section Layout.
Variables (t : scalar_regime) (L a M R : Z) (plan gf g sb fp : loc).
Hypothesis Hlat : lattice L a M.
Hypothesis HR : 0 < R.
Hypothesis Hfft : fft_in_place.
Hypothesis Hmax : 2 * (L * R) ≤ ltfatInt_max.

Local Abbreviation I := (exec_layout t L a M R plan gf g sb fp).
Local Abbreviation pl := (derived_plan L a M (Some sb) (Some fp)).
Local Abbreviation c := (lat_c a M).
Local Abbreviation p := (lat_p a M).
Local Abbreviation q := (lat_q a M).
Local Abbreviation d := (lat_d L a M).
Local Abbreviation ld3 := (lat_c a M * lat_p a M * lat_q a M * R).

Lemma layout_insert l v v' σ :
  I σ → mem σ !! l = Some (Lanes v) → length v' = length v →
  I (set_mem (<[l := Lanes v']> (mem σ)) σ).
Proof.
  intros [Hpl Hf (SB & Hsb & HSB) (GF & Hgf & HGF) (G & Hg & HG) N1 N2] Hl Hlen.
  split; simpl; try done.
  - rewrite lookup_insert_ne; [done|]. intros ->. congruence.
  - rewrite lookup_insert_ne; [done|]. intros ->. congruence.
  - destruct (decide (l = sb)) as [->|Hne].
    + exists v'. rewrite lookup_insert_eq. split; [done|]. 
      assert (v = SB) by congruence. subst. lia.
    + exists SB. by rewrite lookup_insert_ne.
  - destruct (decide (l = gf)) as [->|Hne].
    + exists v'. rewrite lookup_insert_eq. split; [done|].
      assert (v = GF) by congruence. subst. lia.
    + exists GF. by rewrite lookup_insert_ne.
  - destruct (decide (l = g)) as [->|Hne].
    + exists v'. rewrite lookup_insert_eq. split; [done|].
      assert (v = G) by congruence. subst. lia.
    + exists G. by rewrite lookup_insert_ne.
Qed.

Lemma load_lanes l v i σ :
  mem σ !! l = Some (Lanes v) → 0 ≤ i < Z.of_nat (length v) →
  ∃ x, load (Some l) i σ = Done x σ.
Proof.
  intros Hl Hi. unfold load. rewrite Hl.
  destruct (Z.ltb_spec i 0); [lia|].
  destruct (lookup_lt_is_Some_2 v (Z.to_nat i) ltac:(lia)) as [x ->]. eauto.
Qed.

Lemma store_lanes l v i x σ :
  I σ → mem σ !! l = Some (Lanes v) → 0 ≤ i < Z.of_nat (length v) →
  ∃ σ', store (Some l) i x σ = Done tt σ' ∧ I σ'.
Proof.
  intros HI Hl Hi. unfold store. rewrite Hl.
  destruct (Z.leb_spec 0 i); [|lia].
  destruct (Z.ltb_spec i (Z.of_nat (length v))); [|lia]. simpl.
  eexists. split; [done|]. apply (layout_insert l v); [done..|].
  by rewrite length_insert.
Qed.

Lemma load_gf_layout i σ :
  I σ → 0 ≤ i < 2 * (L * R) → ∃ x, load (Some gf) i σ = Done x σ.
Proof.
  intros HI Hi. destruct (el_gf _ _ _ _ _ _ _ _ _ _ _ HI) as (GF & Hgf & HGF).
  apply (load_lanes gf GF); [done|lia].
Qed.

Lemma load_sb_layout i σ :
  I σ → 0 ≤ i < 2 * d → ∃ x, load (Some sb) i σ = Done x σ.
Proof.
  intros HI Hi. destruct (el_sbuf _ _ _ _ _ _ _ _ _ _ _ HI) as (SB & Hsb & HSB).
  apply (load_lanes sb SB); [done|lia].
Qed.

Lemma store_sb_layout i x σ :
  I σ → 0 ≤ i < 2 * d → ∃ σ', store (Some sb) i x σ = Done tt σ' ∧ I σ'.
Proof.
  intros HI Hi. destruct (el_sbuf _ _ _ _ _ _ _ _ _ _ _ HI) as (SB & Hsb & HSB).
  apply (store_lanes sb SB); [done..|lia].
Qed.

Lemma store_g_layout i x σ :
  I σ → 0 ≤ i < lanes t * (L * R) → ∃ σ', store (Some g) i x σ = Done tt σ' ∧ I σ'.
Proof.
  intros HI Hi. destruct (el_g _ _ _ _ _ _ _ _ _ _ _ HI) as (G & Hg & HG).
  apply (store_lanes g G); [done..|lia].
Qed.

Lemma fftw_execute_layout σ :
  I σ → ∃ σ', fftw_execute (Some fp) σ = Done tt σ' ∧ I σ'.
Proof.
  intros HI. destruct (el_sbuf _ _ _ _ _ _ _ _ _ _ _ HI) as (SB & Hsb & HSB).
  unfold fftw_execute. rewrite (el_fft _ _ _ _ _ _ _ _ _ _ _ HI), Hsb.
  rewrite Hfft, HSB, Z.eqb_refl by done. simpl.
  eexists. split; [done|]. apply (layout_insert sb SB); [done..|].
  apply Nat2Z.inj. by rewrite Hfft.
Qed.

Lemma lattice_sizes :
  (0 < c ∧ 0 < p ∧ 0 < q ∧ 0 < d ∧ 0 < L) ∧
  d * ld3 = L * R ∧ d * p * M = L ∧ p * M ≤ L ∧ q * a ≤ L ∧
  c * p ≤ L ∧ c * p * q ≤ L ∧ c ≤ L ∧ p ≤ L ∧ q ≤ L ∧ d ≤ L ∧ M ≤ L ∧ a ≤ L ∧
  L ≤ L * R ∧ R ≤ L * R ∧ 0 < ld3.
Proof.
  destruct (lattice_facts L a M Hlat) as (Hc & Hp & Hq & Hb & Hd0 & Ea & Em & Eb & EL & Hg).
  split; [repeat (split; [done|]); apply Hlat|].
  by apply (lattice_products L a M c p q d R).
Qed.

Lemma slot_base_bounds r w l k :
  0 ≤ r < c → 0 ≤ w < R → 0 ≤ l < q → 0 ≤ k < p →
  0 ≤ slot_base p q R r w l k < ld3.
Proof.
  intros Hr Hw Hl Hk. unfold slot_base.
  assert (0 ≤ w + R * r < R * c) by nia.
  assert (0 ≤ l + q * (w + R * r) < q * (R * c)) by nia.
  split; [nia|]. replace ld3 with (p * (q * (R * c))) by ring. nia.
Qed.

Lemma iwfac_load_body_int_ok scaling base i lg σ :
  I σ → 0 ≤ base < ld3 → 0 ≤ i < d →
  ∃ σ', iwfac_load_body_int (Some gf) (Some sb) (2 * base) ld3 scaling (2 * i) lg σ
        = Done (lg ++ [ReadGf (2 * base + 2 * i * ld3);
                       ReadGf (2 * base + (2 * i * ld3 + 1))]) σ' ∧ I σ'.
Proof.
  intros HI Hbase Hi.
  destruct lattice_sizes as ((Hc & Hp & Hq & Hd & HL) & Eld & _ & _ & _ & _ & _ & _ & _
    & _ & HdL & _ & _ & HLR & _ & Hld).
  assert (Hi' : i * ld3 ≤ (d - 1) * ld3) by (apply Z.mul_le_mono_nonneg_r; lia).
  assert (0 ≤ i * ld3) by nia.
  unfold iwfac_load_body_int.
  rewrite ltfat_int_ok by lia. rewrite bind_ret.
  destruct (load_gf_layout (2 * base + 2 * i * ld3) σ HI ltac:(lia)) as [x Ex].
  rewrite (bind_Done _ _ _ _ _ Ex).
  destruct (store_sb_layout (2 * i) (rmul x scaling) σ HI ltac:(lia)) as (σ1 & E1 & HI1).
  rewrite (bind_Done _ _ _ _ _ E1).
  rewrite ltfat_int_ok by lia. rewrite bind_ret.
  rewrite ltfat_int_ok by lia. rewrite bind_ret.
  destruct (load_gf_layout (2 * base + (2 * i * ld3 + 1)) σ1 HI1 ltac:(lia)) as [y Ey].
  rewrite (bind_Done _ _ _ _ _ Ey).
  destruct (store_sb_layout (2 * i + 1) (rmul y scaling) σ1 HI1 ltac:(lia))
    as (σ2 & E2 & HI2).
  rewrite (bind_Done _ _ _ _ _ E2). eauto.
Qed.

Lemma iwfac_load_int_ok scaling base lg σ :
  I σ → 0 ≤ base < ld3 →
  ∃ σ', iwfac_load_int (Some gf) (Some sb) (2 * base) ld3 d scaling lg σ
        = Done (lg ++ (range2 (2 * d) ≫= λ s,
                  [ReadGf (2 * base + s * ld3); ReadGf (2 * base + (s * ld3 + 1))])) σ'
          ∧ I σ'.
Proof.
  intros HI Hbase.
  destruct lattice_sizes as ((Hc & Hp & Hq & Hd & HL) & Eld & _ & _ & _ & _ & _ & _ & _
    & _ & HdL & _ & _ & HLR & _ & Hld).
  unfold iwfac_load_int. rewrite ltfat_int_ok by lia. rewrite bind_ret.
  apply (for_each_logged I); [| |done].
  - intros x Hx. apply elem_of_range2 in Hx as (i & -> & Hi). lia.
  - intros x lg' σ' Hx HI'. apply elem_of_range2 in Hx as (i & -> & Hi).
    by apply iwfac_load_body_int_ok.
Qed.

Lemma iwfac_write_body_int_ok r w l k s lg σ :
  I σ → 0 ≤ r < c → 0 ≤ w < R → 0 ≤ l < q → 0 ≤ k < p → 0 ≤ s < d →
  ∃ σ', iwfac_write_body_int t (Some sb) (Some g) r w
          (positiverem (k * M - l * a) L) p M L s lg σ
        = Done (lg ++ [WriteG (out_index a M L p r w l k s)]) σ' ∧ I σ'.
Proof.
  intros HI Hr Hw Hl Hk Hs.
  destruct (lattice_facts L a M Hlat) as (Hc & Hp & Hq & Hb & Hd & Ea & EM & Eb & EL & Hg).
  assert (HL : 0 < L) by apply Hlat.
  pose proof (iwfac_rem_range L a M c p q d Hc Hp Hq Hd Ea EM EL l k s ltac:(lia)) as Hrem.
  pose proof (out_index_range L a M c p q d Hc Hp Hq Hd Ea EM EL R r w l k s
    Hr Hw ltac:(lia)) as Hidx.
  unfold out_index, iwfac_rem in *.
  rewrite positiverem_mod in * by done.
  pose proof (Z.mod_pos_bound (k * M - l * a) L HL) as Hneg.
  destruct lattice_sizes as (_ & Eld & HdpM & HpM & _ & _ & _ & _ & _
    & _ & HdL & _ & _ & HLR & _ & Hld).
  assert (HM : 0 < M) by apply Hlat.
  assert (Hsp : 0 ≤ s * p ≤ (d - 1) * p) by nia.
  assert (HspM : 0 ≤ s * p * M ≤ (d - 1) * p * M) by nia.
  assert (0 < p * M) by nia.
  assert (0 ≤ L * w ≤ L * (R - 1)) by nia.
  unfold iwfac_write_body_int.
  rewrite ltfat_int_ok by nia. rewrite bind_ret.
  rewrite ltfat_int_ok by nia. rewrite bind_ret.
  rewrite ltfat_int_ok by nia. rewrite bind_ret.
  unfold c_rem. destruct (Z.eqb_spec L 0) as [|_]; [lia|]. rewrite bind_ret.
  rewrite ltfat_int_ok by nia. rewrite bind_ret.
  rewrite ltfat_int_ok by nia. rewrite bind_ret.
  rewrite ltfat_int_ok by nia. rewrite bind_ret.
  rewrite ltfat_int_ok by nia. rewrite bind_ret.
  set (i := r + _ + L * w) in *.
  pose proof load_sb_layout as Hload. pose proof store_g_layout as Hstore.
  revert HI Hload Hstore. generalize I. unfold lanes. intros J HJ Hload Hstore.
  destruct t.
  - destruct (Hload (2 * s) σ HJ ltac:(lia)) as [x Ex].
    rewrite (bind_Done _ _ _ _ _ Ex).
    destruct (Hstore i x σ HJ ltac:(lia)) as (σ1 & E1 & HJ1).
    rewrite (bind_Done _ _ _ _ _ E1). eauto.
  - destruct (Hload (2 * s) σ HJ ltac:(lia)) as [x Ex].
    rewrite (bind_Done _ _ _ _ _ Ex).
    destruct (Hstore (2 * i) x σ HJ ltac:(lia)) as (σ1 & E1 & HJ1).
    rewrite (bind_Done _ _ _ _ _ E1).
    rewrite ltfat_int_ok by nia. rewrite bind_ret.
    destruct (Hload (2 * s + 1) σ1 HJ1 ltac:(lia)) as [y Ey].
    rewrite (bind_Done _ _ _ _ _ Ey).
    destruct (Hstore (2 * i + 1) y σ1 HJ1 ltac:(lia)) as (σ2 & E2 & HJ2).
    rewrite (bind_Done _ _ _ _ _ E2). eauto.
Qed.

Lemma iwfac_write_int_ok r w l k lg σ :
  I σ → 0 ≤ r < c → 0 ≤ w < R → 0 ≤ l < q → 0 ≤ k < p →
  ∃ σ', iwfac_write_int t (Some sb) (Some g) r w
          (positiverem (k * M - l * a) L) p M L d lg σ
        = Done (lg ++ (range 0 d ≫= λ s, [WriteG (out_index a M L p r w l k s)])) σ'
          ∧ I σ'.
Proof.
  intros HI Hr Hw Hl Hk.
  destruct lattice_sizes as ((Hc & Hp & Hq & Hd & HL) & Eld & _ & _ & _ & _ & _ & _ & _
    & _ & HdL & _ & _ & HLR & _ & Hld).
  unfold iwfac_write_int. apply (for_each_logged I); [| |done].
  - intros x Hx. unfold range in Hx. apply elem_of_seqZ in Hx. lia.
  - intros x lg' σ' Hx HI'. unfold range in Hx. apply elem_of_seqZ in Hx.
    apply iwfac_write_body_int_ok; (done || lia).
Qed.

Lemma iwfac_slot_int_ok r w l k lg σ :
  I σ → 0 ≤ r < c → 0 ≤ w < R → 0 ≤ l < q → 0 ≤ k < p →
  ∃ σ', iwfac_slot_int t pl (Some gf) (Some g) ld3 r w l k
          (2 * slot_base p q R r w l k, lg) σ
        = Done (2 * slot_base p q R r w l k + 2, lg ++ slot_accesses L a M R r w l k) σ'
          ∧ I σ'.
Proof.
  intros HI Hr Hw Hl Hk.
  destruct lattice_sizes as ((Hc & Hp & Hq & Hd & HL) & Eld & _ & HpM & Hqa & _ & _ & _ & _
    & _ & HdL & _ & _ & HLR & _ & Hld).
  assert (HM : 0 < M) by apply Hlat. assert (Ha : 0 < a) by apply Hlat.
  assert (0 ≤ k * M ≤ (p - 1) * M) by nia.
  assert (0 ≤ l * a ≤ (q - 1) * a) by nia.
  unfold iwfac_slot_int.
  cbn [plan_L plan_M plan_a plan_c plan_p plan_q plan_d plan_sbuf plan_p_before
       plan_scaling derived_plan fst snd].
  rewrite ltfat_int_ok by nia. rewrite bind_ret.
  rewrite ltfat_int_ok by nia. rewrite bind_ret.
  rewrite ltfat_int_ok by nia. rewrite bind_ret.
  destruct (Z.eqb_spec L 0) as [|_]; [lia|]. rewrite bind_ret.
  destruct (iwfac_load_int_ok (rdiv (rdiv (rofZ 1) (rsqrt (rofZ M))) (rofZ d))
    (slot_base p q R r w l k) lg σ HI (slot_base_bounds r w l k Hr Hw Hl Hk))
    as (σ1 & E1 & HI1).
  rewrite (bind_Done _ _ _ _ _ E1).
  destruct (fftw_execute_layout σ1 HI1) as (σ2 & E2 & HI2).
  rewrite (bind_Done _ _ _ _ _ E2).
  destruct (iwfac_write_int_ok r w l k
    (lg ++ (range2 (2 * d) ≫= λ s,
       [ReadGf (2 * slot_base p q R r w l k + s * ld3);
        ReadGf (2 * slot_base p q R r w l k + (s * ld3 + 1))])) σ2 HI2 Hr Hw Hl Hk)
    as (σ3 & E3 & HI3).
  rewrite (bind_Done _ _ _ _ _ E3).
  exists σ3. split; [|done]. unfold ret, slot_accesses. by rewrite <- app_assoc.
Qed.

(** Under [2·L·R ≤ ltfatInt_max] no expression of [iwfac_execute] overflows
    and no access leaves its array: the run returns [Success] after the
    accesses [accesses L a M R]. *)
Lemma iwfac_execute_int_ok σ :
  I σ →
  ∃ σ', iwfac_execute_int t (Some plan) (Some gf) R (Some g) σ
        = Done (LTFATERR_SUCCESS, accesses L a M R) σ' ∧ I σ'.
Proof.
  intros HI.
  destruct lattice_sizes as ((Hc & Hp & Hq & Hd & HL) & Eld & _ & HpM & Hqa & Hcp & Hcpq
    & HcL & HpL & HqL & HdL & HML & HaL & HLR & HRL & Hld).
  assert (HM : 0 < M) by apply Hlat. assert (Ha : 0 < a) by apply Hlat.
  assert (0 < c * p) by nia. assert (0 < c * p * q) by nia.
  unfold iwfac_execute_int.
  destruct (Z.ltb_spec 0 R) as [_|]; [|lia]. cbn [negb].
  assert (Epl : read_plan (Some plan) σ = Done pl σ).
  { unfold read_plan. by rewrite (el_plan _ _ _ _ _ _ _ _ _ _ _ HI). }
  rewrite (bind_Done _ _ _ _ _ Epl).
  cbn [plan_L plan_M plan_a plan_c plan_p plan_q plan_d derived_plan].
  erewrite (bind_Done (ltfat_ints _)); cycle 1.
  { apply ltfat_ints_ok.
    intros x Hx. repeat (apply elem_of_cons in Hx as [->|Hx]; [lia|]).
    by apply elem_of_nil in Hx. }
  rewrite ltfat_int_ok by lia. rewrite bind_ret.
  rewrite ltfat_int_ok by lia. rewrite bind_ret.
  rewrite ltfat_int_ok by nia. rewrite bind_ret.
  destruct (for_each_counted I c (2 * (p * q * R)) 0
    (λ r, range 0 R ≫= λ w, range 0 q ≫= λ l, range 0 p ≫= λ k,
       slot_accesses L a M R r w l k)
    (λ r, for_each (range 0 R) (count_up 1 (λ w,
       for_each (range 0 q) (count_up 1 (λ l,
         for_each (range 0 p) (count_up 1 (λ k,
           iwfac_slot_int t pl (Some gf) (Some g) ld3 r w l k)))))))
    ltac:(lia) ltac:(lia)) with (lg := @nil access) (σ := σ) as (σ' & E & HI'); [|done|].
  2:{ rewrite (bind_Done _ _ _ _ _ E). exists σ'. split; [|done]. done. }
  intros r lg1 σ1 Hr HI1.
  replace (0 + 2 * (p * q * R) * r) with (2 * slot_base p q R r 0 0 0)
    by (unfold slot_base; ring).
  replace (0 + 2 * (p * q * R) * (r + 1)) with (2 * slot_base p q R r 0 0 0 + 2 * (p * q) * Z.max 0 R)
    by (rewrite Z.max_r by lia; unfold slot_base; ring).
  apply (for_each_counted I R (2 * (p * q))); [lia|lia| |done].
  intros w lg2 σ2 Hw HI2.
  replace (2 * slot_base p q R r 0 0 0 + 2 * (p * q) * w) with (2 * slot_base p q R r w 0 0)
    by (unfold slot_base; ring).
  replace (2 * slot_base p q R r 0 0 0 + 2 * (p * q) * (w + 1))
    with (2 * slot_base p q R r w 0 0 + 2 * p * Z.max 0 q)
    by (rewrite Z.max_r by lia; unfold slot_base; ring).
  apply (for_each_counted I q (2 * p)); [lia|lia| |done].
  intros l lg3 σ3 Hl HI3.
  replace (2 * slot_base p q R r w 0 0 + 2 * p * l) with (2 * slot_base p q R r w l 0)
    by (unfold slot_base; ring).
  replace (2 * slot_base p q R r w 0 0 + 2 * p * (l + 1))
    with (2 * slot_base p q R r w l 0 + 2 * Z.max 0 p)
    by (rewrite Z.max_r by lia; unfold slot_base; ring).
  apply (for_each_counted I p 2); [lia|lia| |done].
  intros k lg4 σ4 Hk HI4.
  replace (2 * slot_base p q R r w l 0 + 2 * k) with (2 * slot_base p q R r w l k)
    by (unfold slot_base; ring).
  replace (2 * slot_base p q R r w l 0 + 2 * (k + 1))
    with (2 * slot_base p q R r w l k + 2) by (unfold slot_base; ring).
  by apply iwfac_slot_int_ok.
Qed.

End Layout.
End IntFacts.

(** ** The accesses of one call *)

Lemma write_indices_app lg1 lg2 :
  write_indices (lg1 ++ lg2) = write_indices lg1 ++ write_indices lg2.
Proof. unfold write_indices. apply bind_app. Qed.

Lemma read_lanes_app lg1 lg2 :
  read_lanes (lg1 ++ lg2) = read_lanes lg1 ++ read_lanes lg2.
Proof. unfold read_lanes. apply bind_app. Qed.

Lemma write_indices_bind {A} (xs : list A) (f : A → list access) :
  write_indices (xs ≫= f) = xs ≫= λ x, write_indices (f x).
Proof.
  induction xs as [|x xs IH]; [done|].
  by rewrite !bind_cons, write_indices_app, IH.
Qed.

Lemma read_lanes_bind {A} (xs : list A) (f : A → list access) :
  read_lanes (xs ≫= f) = xs ≫= λ x, read_lanes (f x).
Proof.
  induction xs as [|x xs IH]; [done|].
  by rewrite !bind_cons, read_lanes_app, IH.
Qed.

Lemma bind_nil_const {A B} (xs : list A) (f : A → list B) :
  (∀ x, f x = []) → xs ≫= f = [].
Proof.
  intros Hf. induction xs as [|x xs IH]; [done|]. by rewrite bind_cons, Hf, IH.
Qed.

Lemma bind_ext_in {A B} (xs : list A) (f h : A → list B) :
  (∀ x, x ∈ xs → f x = h x) → xs ≫= f = xs ≫= h.
Proof.
  induction xs as [|x xs IH]; intros Hf; [done|].
  rewrite !bind_cons, Hf by left. f_equal. apply IH. intros y Hy. apply Hf. by right.
Qed.

Lemma fmap_bind_list {A B C} (h : B → C) (xs : list A) (f : A → list B) :
  h <$> (xs ≫= f) = xs ≫= λ x, h <$> f x.
Proof.
  induction xs as [|x xs IH]; [done|]. by rewrite !bind_cons, fmap_app, IH.
Qed.

Lemma write_indices_slot L a M R r w l k :
  write_indices (slot_accesses L a M R r w l k)
  = range 0 (lat_d L a M) ≫= λ s, [out_index a M L (lat_p a M) r w l k s].
Proof.
  unfold slot_accesses. rewrite write_indices_app, !write_indices_bind.
  rewrite (bind_nil_const (range2 _)) by done. done.
Qed.

Lemma read_lanes_slot L a M R r w l k :
  read_lanes (slot_accesses L a M R r w l k)
  = range2 (2 * lat_d L a M) ≫= λ s,
      [2 * slot_base (lat_p a M) (lat_q a M) R r w l k
       + s * (lat_c a M * lat_p a M * lat_q a M * R);
       2 * slot_base (lat_p a M) (lat_q a M) R r w l k
       + (s * (lat_c a M * lat_p a M * lat_q a M * R) + 1)].
Proof.
  unfold slot_accesses. rewrite read_lanes_app, !read_lanes_bind.
  rewrite (bind_nil_const (range 0 _)) by done. by rewrite app_nil_r.
Qed.

(** The indices written are those of the residues, shifted by [r] and
    [L·w], in loop order. *)
Lemma write_indices_residues L a M R :
  write_indices (accesses L a M R)
  = range 0 (lat_c a M) ≫= λ r, range 0 R ≫= λ w,
      (λ rem, r + rem + L * w) <$> residues L a M.
Proof.
  unfold accesses, residues. rewrite write_indices_bind.
  apply bind_ext_in. intros r _. rewrite write_indices_bind.
  apply bind_ext_in. intros w _. rewrite write_indices_bind, fmap_bind_list.
  apply bind_ext_in. intros l _. rewrite write_indices_bind, fmap_bind_list.
  apply bind_ext_in. intros k _. rewrite write_indices_slot, fmap_bind_list.
  done.
Qed.

Lemma perm_of_NoDup (l : list Z) (N : Z) :
  NoDup l → (∀ n, n ∈ l → 0 ≤ n < N) → Z.of_nat (length l) = N → l ≡ₚ seqZ 0 N.
Proof.
  intros Hnd Hin Hlen.
  apply submseteq_length_Permutation.
  - apply NoDup_submseteq; [done|]. intros n Hn. apply elem_of_seqZ.
    specialize (Hin n Hn). lia.
  - rewrite length_seqZ. lia.
Qed.

Lemma perm_of_full (l : list Z) (N : Z) :
  (∀ n, 0 ≤ n < N → n ∈ l) → Z.of_nat (length l) = N → l ≡ₚ seqZ 0 N.
Proof.
  intros Hin Hlen. symmetry.
  apply submseteq_length_Permutation.
  - apply NoDup_submseteq; [apply NoDup_seqZ|]. intros n Hn.
    apply elem_of_seqZ in Hn. apply Hin. lia.
  - rewrite length_seqZ. lia.
Qed.

Section Accesses.
Context {real : Type} `{!RealOps real, !FftBackend real, !Collaborators real}.
Variables (L a M R : Z).
Hypothesis Hlat : lattice L a M.
Hypothesis HR : 0 < R.

Lemma write_indices_all_writes (sb fp : ptr) (GF : list real) :
  write_indices (accesses L a M R)
  = fst <$> all_writes RealType (derived_plan L a M sb fp) R GF.
Proof.
  unfold accesses, all_writes, slot_writes.
  cbn [plan_c plan_p plan_q plan_d derived_plan].
  rewrite write_indices_bind, fmap_bind_list.
  apply bind_ext_in. intros r _. rewrite write_indices_bind, fmap_bind_list.
  apply bind_ext_in. intros w _. rewrite write_indices_bind, fmap_bind_list.
  apply bind_ext_in. intros l _. rewrite write_indices_bind, fmap_bind_list.
  apply bind_ext_in. intros k _. rewrite write_indices_slot, fmap_bind_list.
  done.
Qed.

Lemma write_indices_NoDup : NoDup (write_indices (accesses L a M R)).
Proof.
  rewrite (write_indices_all_writes None None []).
  apply (NoDup_fmap_1 Z.to_nat). rewrite <- list_fmap_compose.
  apply (all_writes_NoDup L a M R None None Hlat RealType []).
Qed.

Lemma write_indices_range i :
  i ∈ write_indices (accesses L a M R) → 0 ≤ i < L * R.
Proof.
  rewrite (write_indices_all_writes None None []). intros Hi.
  apply list_elem_of_fmap in Hi as (y & -> & Hy).
  apply (all_writes_range L a M R None None Hlat RealType []) in Hy; [|done].
  simpl in Hy. lia.
Qed.

Lemma length_write_indices :
  Z.of_nat (length (write_indices (accesses L a M R))) = L * R.
Proof.
  rewrite (write_indices_all_writes None None []), length_fmap.
  rewrite (length_all_writes L a M R None None Hlat RealType []) by done.
  destruct Hlat. simpl. nia.
Qed.

(** Every index in [[0, L·R)] is written at exactly once. *)
Lemma write_indices_perm : write_indices (accesses L a M R) ≡ₚ seqZ 0 (L * R).
Proof.
  apply perm_of_NoDup;
    [apply write_indices_NoDup|apply write_indices_range|apply length_write_indices].
Qed.

Lemma write_indices_inv i :
  i ∈ write_indices (accesses L a M R) →
  ∃ r w l k s,
    0 ≤ r < lat_c a M ∧ 0 ≤ w < R ∧ 0 ≤ l < lat_q a M ∧ 0 ≤ k < lat_p a M ∧
    0 ≤ s < lat_d L a M ∧ i = out_index a M L (lat_p a M) r w l k s.
Proof.
  unfold accesses. rewrite !write_indices_bind. intros Hi.
  apply list_elem_of_bind in Hi as (r & Hi & Hr). rewrite write_indices_bind in Hi.
  apply list_elem_of_bind in Hi as (w & Hi & Hw). rewrite write_indices_bind in Hi.
  apply list_elem_of_bind in Hi as (l & Hi & Hl). rewrite write_indices_bind in Hi.
  apply list_elem_of_bind in Hi as (k & Hi & Hk). rewrite write_indices_slot in Hi.
  apply list_elem_of_bind in Hi as (s & Hi & Hs).
  apply list_elem_of_singleton in Hi.
  unfold range in *. apply elem_of_seqZ in Hr, Hw, Hl, Hk, Hs.
  exists r, w, l, k, s. repeat split; (done || lia).
Qed.

Lemma read_lanes_elem r w l k i e :
  0 ≤ r < lat_c a M → 0 ≤ w < R → 0 ≤ l < lat_q a M → 0 ≤ k < lat_p a M →
  0 ≤ i < lat_d L a M → 0 ≤ e < 2 →
  2 * (slot_base (lat_p a M) (lat_q a M) R r w l k
       + i * (lat_c a M * lat_p a M * lat_q a M * R)) + e
  ∈ read_lanes (accesses L a M R).
Proof.
  intros Hr Hw Hl Hk Hi He. unfold accesses. rewrite read_lanes_bind.
  apply list_elem_of_bind. exists r. split; [|apply elem_of_seqZ; lia].
  rewrite read_lanes_bind.
  apply list_elem_of_bind. exists w. split; [|apply elem_of_seqZ; lia].
  rewrite read_lanes_bind.
  apply list_elem_of_bind. exists l. split; [|apply elem_of_seqZ; lia].
  rewrite read_lanes_bind.
  apply list_elem_of_bind. exists k. split; [|apply elem_of_seqZ; lia].
  rewrite read_lanes_slot.
  apply list_elem_of_bind. exists (2 * i). split; [|apply elem_of_range2; eauto].
  assert (e = 0 ∨ e = 1) as [-> | ->] by lia.
  - replace (_ + 0) with (2 * slot_base (lat_p a M) (lat_q a M) R r w l k
      + 2 * i * (lat_c a M * lat_p a M * lat_q a M * R)) by ring. left.
  - replace (2 * (_ + _) + 1) with (2 * slot_base (lat_p a M) (lat_q a M) R r w l k
      + (2 * i * (lat_c a M * lat_p a M * lat_q a M * R) + 1)) by ring.
    right. left.
Qed.

Lemma length_read_lanes :
  Z.of_nat (length (read_lanes (accesses L a M R))) = 2 * (L * R).
Proof.
  destruct (lattice_facts L a M Hlat) as (Hc & Hp & Hq & Hb & Hd0 & Ea & Em & Eb & EL & Hg).
  destruct (lattice_products L a M _ _ _ _ R Hc Hp Hq Hd0 HR Ea Em EL) as (Eld & _).
  unfold accesses. rewrite read_lanes_bind.
  unfold range. rewrite !Z.sub_0_r.
  rewrite (length_bind_seqZ _ _ (R * (lat_q a M * (lat_p a M * (2 * lat_d L a M)))));
    [|lia|nia|].
  { rewrite <- Eld. ring. }
  intros r Hr. rewrite read_lanes_bind.
  apply length_bind_seqZ; [lia|nia|]. intros w Hw. rewrite read_lanes_bind.
  apply length_bind_seqZ; [lia|nia|]. intros l Hl. rewrite read_lanes_bind.
  apply length_bind_seqZ; [lia|nia|]. intros k Hk. rewrite read_lanes_slot.
  unfold range2.
  replace ((2 * lat_d L a M + 1) `div` 2) with (lat_d L a M)
    by (apply Z.div_unique with 1; lia).
  rewrite (length_bind_const _ _ 2) by done.
  rewrite length_fmap, length_seqZ. lia.
Qed.

(** Every lane of the [L·R] complex factor samples is read exactly once. *)
Lemma read_lanes_perm : read_lanes (accesses L a M R) ≡ₚ seqZ 0 (2 * (L * R)).
Proof.
  destruct (lattice_facts L a M Hlat) as (Hc & Hp & Hq & Hb & Hd0 & Ea & Em & Eb & EL & Hg).
  destruct (lattice_products L a M _ _ _ _ R Hc Hp Hq Hd0 HR Ea Em EL) as (Eld & _).
  apply perm_of_full; [|apply length_read_lanes].
  intros n Hn.
  destruct (factor_index_decode (lat_c a M) (lat_p a M) (lat_q a M) R (lat_d L a M) n)
    as (r & w & l & k & s & e & Hr & Hw & Hl & Hk & Hs & He & ->); try done; [lia|].
  by apply read_lanes_elem.
Qed.

End Accesses.

(** ** Overflow, and the run without the width *)

Section IntRefine.
Context {real : Type} `{!RealOps real, !FftBackend real, !Collaborators real}.
Context {width : LtfatInt}.
Implicit Types (σ : @state real) (lg : list access).

Lemma bind_Fault_r {A B} (m : @run real A) (k : A → run B) σ :
  (∀ x σ', m σ = Done x σ' → k x σ' = Fault) → bind m k σ = Fault.
Proof. unfold bind. destruct (m σ) as [x σ'|]; [|done]. intros Hk. by apply Hk. Qed.

Lemma for_each_Fault {S} (xs : list Z) (body : Z → S → @run real S) x :
  x ∈ xs → (∀ s σ, body x s σ = Fault) → ∀ s σ, for_each xs body s σ = Fault.
Proof.
  intros Hx Hbody. induction xs as [|y xs IH]; intros s σ.
  { by apply elem_of_nil in Hx. }
  cbn [for_each]. apply elem_of_cons in Hx as [<-|Hx].
  - unfold bind. by rewrite Hbody.
  - apply bind_Fault_r. intros s' σ' _. by apply IH.
Qed.

Lemma count_up_Fault {S} step (body : Z → S → @run real S) x :
  (∀ s σ, body x s σ = Fault) → ∀ s σ, count_up step body x s σ = Fault.
Proof. intros Hbody s σ. unfold count_up, bind. by rewrite Hbody. Qed.

(** When the last lane offset [(2 d − 2)·ld3] of the load loop is not an
    [ltfatInt], no call on a plan for [(L, a, M)] has a defined outcome,
    whatever the arrays are. *)
Lemma iwfac_execute_int_overflow t L a M R plan gf g sb fp σ :
  lattice L a M → 0 < R →
  mem σ !! plan = Some (PlanObj (derived_plan L a M sb fp)) →
  ltfatInt_max < (2 * lat_d L a M - 2) * (lat_c a M * lat_p a M * lat_q a M * R) →
  iwfac_execute_int t (Some plan) (Some gf) R (Some g) σ = Fault.
Proof.
  intros Hlat HR Hpl Hbig.
  destruct (lattice_facts L a M Hlat) as (Hc & Hp & Hq & Hb & Hd0 & Ea & Em & Eb & EL & Hg).
  unfold iwfac_execute_int.
  destruct (Z.ltb_spec 0 R) as [_|]; [|lia]. cbn [negb].
  assert (Epl : read_plan (Some plan) σ = Done (derived_plan L a M sb fp) σ).
  { unfold read_plan. by rewrite Hpl. }
  rewrite (bind_Done _ _ _ _ _ Epl).
  cbn [plan_L plan_M plan_a plan_c plan_p plan_q plan_d derived_plan].
  apply bind_Fault_r. intros [] σ1 _.
  apply bind_Fault_r. intros cp σ2 E. apply ltfat_int_inv in E as (Ecp & _ & _).
  apply bind_Fault_r. intros cpq σ3 E. apply ltfat_int_inv in E as (Ecpq & _ & _).
  apply bind_Fault_r. intros ld3 σ4 E. apply ltfat_int_inv in E as (Eld3 & _ & _).
  subst cp cpq ld3.
  apply bind_Fault_r. intros out σo E. exfalso. revert E.
  rewrite (for_each_Fault _ _ 0); [done|apply elem_of_seqZ; lia|].
  apply count_up_Fault. apply (for_each_Fault _ _ 0); [apply elem_of_seqZ; lia|].
  apply count_up_Fault. apply (for_each_Fault _ _ 0); [apply elem_of_seqZ; lia|].
  apply count_up_Fault. apply (for_each_Fault _ _ 0); [apply elem_of_seqZ; lia|].
  apply count_up_Fault. intros acc σ5. unfold iwfac_slot_int.
  cbn [plan_L plan_M plan_a plan_c plan_p plan_q plan_d plan_sbuf plan_scaling
       derived_plan].
  apply bind_Fault_r. intros kM σ6 _.
  apply bind_Fault_r. intros la σ7 _.
  apply bind_Fault_r. intros df σ8 _.
  apply bind_Fault_r. intros [] σ9 _.
  apply bind_Fault_r. intros lg' σ10 E. exfalso. revert E.
  unfold iwfac_load_int.
  rewrite bind_Fault_r; [done|]. intros n σ11 E. apply ltfat_int_inv in E as (-> & _ & _).
  apply (for_each_Fault _ _ (2 * (lat_d L a M - 1))).
  { apply elem_of_range2. exists (lat_d L a M - 1). split; [done|lia]. }
  apply count_up_Fault. intros lg'' σ12. unfold iwfac_load_body_int.
  apply bind_Fault, ltfat_int_overflow.
  apply not_true_is_false. rewrite in_ltfatInt_spec. lia.
Qed.

(** Dropping the width checks and the record of accesses gives the loops
    of [iwfac_execute]. *)
Lemma for_each_erase {S S'} (π : S' → S) (xs : list Z) step
    (body' : Z → S' → @run real S') (body : Z → S → run S) :
  (∀ x s' σ r σ', body' x s' σ = Done r σ' → body x (π s') σ = Done (π r) σ') →
  ∀ s' σ r σ', for_each xs (count_up step body') s' σ = Done r σ' →
               for_each xs body (π s') σ = Done (π r) σ'.
Proof.
  intros Hbody. induction xs as [|x xs IH]; intros s' σ r σ' E.
  { simpl in *. unfold ret in *. by injection E as <- <-. }
  cbn [for_each] in *.
  apply bind_inv in E as (s1 & σ1 & E1 & E2).
  unfold count_up in E1.
  apply bind_inv in E1 as (s2 & σ2 & E1 & E3).
  apply bind_inv in E3 as (y & σ3 & [-> [-> _]]%ltfat_int_inv & E3).
  unfold ret in E3. injection E3 as <- <-.
  rewrite (bind_Done _ _ _ _ _ (Hbody _ _ _ _ _ E1)). by apply IH.
Qed.

Ltac inv_int E :=
  let y := fresh "y" in let σ := fresh "σ" in
  apply bind_inv in E as (y & σ & [-> [-> _]]%ltfat_int_inv & E).

Lemma iwfac_load_body_int_erase gf sbuf gfp ld3 scaling s lg σ lg' σ' :
  iwfac_load_body_int gf sbuf gfp ld3 scaling s lg σ = Done lg' σ' →
  iwfac_load_body gf sbuf gfp ld3 scaling s σ = Done tt σ'.
Proof.
  unfold iwfac_load_body_int, iwfac_load_body. intros E.
  inv_int E.
  apply bind_inv in E as (x & σ1 & E1 & E). rewrite (bind_Done _ _ _ _ _ E1).
  apply bind_inv in E as ([] & σ2 & E2 & E). rewrite (bind_Done _ _ _ _ _ E2).
  inv_int E. inv_int E.
  apply bind_inv in E as (y & σ3 & E3 & E). rewrite (bind_Done _ _ _ _ _ E3).
  apply bind_inv in E as ([] & σ4 & E4 & E).
  unfold ret in E. injection E as _ <-. done.
Qed.

Lemma iwfac_write_body_int_erase t sbuf g r w negrem p M L s lg σ lg' σ' :
  iwfac_write_body_int t sbuf g r w negrem p M L s lg σ = Done lg' σ' →
  iwfac_write_body t sbuf g r w negrem p M L s σ = Done tt σ'.
Proof.
  unfold iwfac_write_body_int, iwfac_write_body. intros E.
  inv_int E. inv_int E. inv_int E.
  apply bind_inv in E as (rem & σ1 & E1 & E). rewrite (bind_Done _ _ _ _ _ E1).
  inv_int E. inv_int E. inv_int E. inv_int E.
  destruct t.
  - apply bind_inv in E as (x & σ2 & E2 & E). rewrite (bind_Done _ _ _ _ _ E2).
    apply bind_inv in E as ([] & σ3 & E3 & E).
    unfold ret in E. injection E as _ <-. done.
  - apply bind_inv in E as (x & σ2 & E2 & E). rewrite (bind_Done _ _ _ _ _ E2).
    apply bind_inv in E as ([] & σ3 & E3 & E). rewrite (bind_Done _ _ _ _ _ E3).
    inv_int E.
    apply bind_inv in E as (y & σ4 & E4 & E). rewrite (bind_Done _ _ _ _ _ E4).
    apply bind_inv in E as ([] & σ5 & E5 & E).
    unfold ret in E. injection E as _ <-. done.
Qed.

Lemma iwfac_slot_int_erase t pl gf g R r w l k acc σ acc' σ' :
  iwfac_slot_int t pl gf g (plan_c pl * plan_p pl * plan_q pl * R) r w l k acc σ
  = Done acc' σ' →
  iwfac_slot t pl gf g R r w l k acc.1 σ = Done acc'.1 σ'.
Proof.
  unfold iwfac_slot_int, iwfac_slot. intros E.
  inv_int E. inv_int E. inv_int E.
  apply bind_inv in E as ([] & σ1 & E1 & E). rewrite (bind_Done _ _ _ _ _ E1).
  apply bind_inv in E as (lg1 & σ2 & E2 & E).
  unfold iwfac_load_int in E2. inv_int E2.
  apply (for_each_erase (λ _, tt) _ _ _
    (λ s _, iwfac_load_body gf (plan_sbuf pl) acc.1
       (plan_c pl * plan_p pl * plan_q pl * R) (plan_scaling pl) s)) in E2;
    [|intros; by eapply iwfac_load_body_int_erase].
  unfold iwfac_load. rewrite (bind_Done _ _ _ _ _ E2).
  apply bind_inv in E as ([] & σ3 & E3 & E). rewrite (bind_Done _ _ _ _ _ E3).
  apply bind_inv in E as (lg2 & σ4 & E4 & E).
  unfold iwfac_write_int in E4.
  apply (for_each_erase (λ _, tt) _ _ _
    (λ s _, iwfac_write_body t (plan_sbuf pl) g r w
       (positiverem (k * plan_M pl - l * plan_a pl) (plan_L pl))
       (plan_p pl) (plan_M pl) (plan_L pl) s)) in E4;
    [|intros; by eapply iwfac_write_body_int_erase].
  unfold iwfac_write. rewrite (bind_Done _ _ _ _ _ E4).
  unfold ret in *. by injection E as <- <-.
Qed.

Lemma ltfat_ints_inv xs σ u σ' : ltfat_ints xs σ = Done u σ' → σ' = σ.
Proof.
  unfold ltfat_ints.
  enough (Hgen : ∀ u0, for_each xs (λ x _, ltfat_int x;; ret tt) u0 σ = Done u σ' → σ' = σ)
    by apply Hgen.
  revert σ. induction xs as [|x xs IH]; intros σ u0 E.
  - simpl in E. unfold ret in E. by injection E.
  - cbn [for_each] in E. apply bind_inv in E as ([] & σ3 & E3 & E).
    inv_int E3. unfold ret in E3. injection E3 as <-. by eapply IH.
Qed.

(** Whatever [iwfac_execute] returns at the width of [ltfatInt], it returns
    with unbounded integers, in the same state. *)
Lemma iwfac_execute_int_erase t plan gf R g σ st lg σ' :
  iwfac_execute_int t plan gf R g σ = Done (st, lg) σ' →
  iwfac_execute t plan gf R g σ = Done st σ'.
Proof.
  unfold iwfac_execute_int, iwfac_execute.
  destruct plan as [lp|]; [|by intros [= <- <- <-]].
  destruct g as [lg0|]; [|by intros [= <- <- <-]].
  destruct gf as [lgf|]; [|by intros [= <- <- <-]].
  destruct (negb (0 <? R)); [by intros [= <- <- <-]|]. intros E.
  apply bind_inv in E as (pl & σ1 & E1 & E). rewrite (bind_Done _ _ _ _ _ E1).
  apply bind_inv in E as ([] & σ2 & E2 & E).
  apply ltfat_ints_inv in E2 as ->.
  inv_int E. inv_int E. inv_int E.
  apply bind_inv in E as (out & σ3 & E3 & E).
  apply (for_each_erase fst _ _ _
    (λ r, for_each (range 0 R) (λ w, for_each (range 0 (plan_q pl)) (λ l,
       for_each (range 0 (plan_p pl)) (λ k, iwfac_slot t pl (Some lgf) (Some lg0) R r w l k)))))
    in E3.
  - simpl in E3. rewrite (bind_Done _ _ _ _ _ E3).
    unfold ret in *. by injection E as <- _ <-.
  - intros r acc σa acc' σa'. apply for_each_erase.
    intros w acc2 σb acc2' σb'. apply for_each_erase.
    intros l acc3 σc acc3' σc'. apply for_each_erase.
    intros k acc4 σd acc4' σd'. apply iwfac_slot_int_erase.
Qed.

Lemma exec_ready_layout t L a M R plan gf g sb fp GF G σ :
  exec_ready t L a M R plan gf g sb fp GF G σ →
  exec_layout t L a M R plan gf g sb fp σ.
Proof. intros []. split; eauto. Qed.

End IntRefine.

(** ** The claims on the accesses of [iwfac_execute] *)

Section ClaimsInt.
Context {real : Type} `{!RealOps real, !FftBackend real, !Collaborators real}.
Context {width : LtfatInt}.
Implicit Types (σ : @state real) (lg : list access).

Lemma residues_range L a M x :
  lattice L a M → x ∈ residues L a M → (lat_c a M | x) ∧ 0 ≤ x < L.
Proof.
  intros Hlat Hx.
  destruct (lattice_facts L a M Hlat) as (Hc & Hp & Hq & Hb & Hd0 & Ea & Em & Eb & EL & Hg).
  unfold residues in Hx.
  repeat match goal with
  | H : _ ∈ _ ≫= _ |- _ => apply list_elem_of_bind in H as (? & H & ?)
  | H : _ ∈ [_] |- _ => apply list_elem_of_singleton in H
  | H : _ ∈ range 0 _ |- _ => unfold range in H; apply elem_of_seqZ in H
  end. subst x. split.
  - apply (iwfac_rem_divide L a M (lat_c a M) (lat_p a M) (lat_q a M) (lat_d L a M));
      (done || lia).
  - match goal with |- context [iwfac_rem a M L _ ?l ?k ?s] =>
      pose proof (iwfac_rem_range L a M (lat_c a M) (lat_p a M) (lat_q a M)
        (lat_d L a M) Hc Hp Hq Hd0 Ea Em EL l k s ltac:(lia)) end. lia.
Qed.

(** Claim C4, amended.  On a plan made for a validated lattice [(L, a, M)],
    for [R > 0] and as long as [2·L·R] is a value of [ltfatInt], a call of
    [iwfac_execute] overflows in no integer expression and returns
    [Success]; every index it forms for a store into [g] is
    [r + rem + L·w] with [r < c], [w < R] and
    [rem = ((k·M − l·a) mod L + s·p·M) mod L] in [[0, L)], and lies in
    [[0, L·R)]; every store is inside the array (a store outside is a
    fault of the run), and the arrays keep their sizes. *)
Theorem iwfac_index_in_bounds t L a M R plan gf g sb fp σ :
  lattice L a M → 0 < R → fft_in_place →
  2 * (L * R) ≤ ltfatInt_max →
  exec_layout t L a M R plan gf g sb fp σ →
  ∃ lg σ',
    iwfac_execute_int t (Some plan) (Some gf) R (Some g) σ
    = Done (LTFATERR_SUCCESS, lg) σ' ∧
    exec_layout t L a M R plan gf g sb fp σ' ∧
    ∀ i, i ∈ write_indices lg →
      0 ≤ i < L * R ∧
      ∃ r w l k s rem,
        0 ≤ r < lat_c a M ∧ 0 ≤ w < R ∧ 0 ≤ l < lat_q a M ∧ 0 ≤ k < lat_p a M ∧
        0 ≤ s < lat_d L a M ∧
        rem = ((k * M - l * a) `mod` L + s * lat_p a M * M) `mod` L ∧
        0 ≤ rem < L ∧ i = r + rem + L * w.
Proof.
  intros Hlat HR Hfft Hmax HI.
  destruct (iwfac_execute_int_ok t L a M R plan gf g sb fp Hlat HR Hfft Hmax σ HI)
    as (σ' & E & HI').
  exists (accesses L a M R), σ'. split; [done|]. split; [done|].
  intros i Hi. split; [by apply (write_indices_range (real := real) L a M R)|].
  apply write_indices_inv in Hi as (r & w & l & k & s & Hr & Hw & Hl & Hk & Hs & ->).
  destruct (lattice_facts L a M Hlat) as (Hc & Hp & Hq & Hb & Hd0 & Ea & Em & Eb & EL & Hg).
  pose proof (iwfac_rem_range L a M (lat_c a M) (lat_p a M) (lat_q a M) (lat_d L a M)
    Hc Hp Hq Hd0 Ea Em EL l k s ltac:(lia)) as Hrem.
  exists r, w, l, k, s, (iwfac_rem a M L (lat_p a M) l k s).
  repeat (split; [done|]).
  split; [apply (iwfac_rem_as_mod L a M); (done || lia)|]. split; [lia|done].
Qed.

(** Claim C3, amended.  In a call of [iwfac_execute] on a plan for a valid
    lattice, with [2·L·R] a value of [ltfatInt], the indices written at
    are, pair [(r, w)] after pair, [r + rem + L·w] for the residues [rem]
    of the [(l, k, s)] iterations.  These residues are pairwise distinct;
    there are [L / c] of them (not [L]), each a multiple of [c] in
    [[0, L)].  No index is written at twice, and the indices written at
    are exactly [0, …, L·R − 1]: every sample of [g] is written once. *)
Theorem iwfac_writes_distinct t L a M R plan gf g sb fp σ :
  lattice L a M → 0 < R → fft_in_place →
  2 * (L * R) ≤ ltfatInt_max →
  exec_layout t L a M R plan gf g sb fp σ →
  ∃ lg σ',
    iwfac_execute_int t (Some plan) (Some gf) R (Some g) σ
    = Done (LTFATERR_SUCCESS, lg) σ' ∧
    write_indices lg
    = (range 0 (lat_c a M) ≫= λ r, range 0 R ≫= λ w,
         (λ rem, r + rem + L * w) <$> residues L a M) ∧
    NoDup (residues L a M) ∧
    Z.of_nat (length (residues L a M)) * lat_c a M = L ∧
    (∀ x, x ∈ residues L a M → (lat_c a M | x) ∧ 0 ≤ x < L) ∧
    NoDup (write_indices lg) ∧
    write_indices lg ≡ₚ seqZ 0 (L * R).
Proof.
  intros Hlat HR Hfft Hmax HI.
  destruct (iwfac_execute_int_ok t L a M R plan gf g sb fp Hlat HR Hfft Hmax σ HI)
    as (σ' & E & HI').
  exists (accesses L a M R), σ'. split; [done|].
  split; [apply write_indices_residues|].
  split; [by apply residues_NoDup|]. split; [|split; [|split]].
  - rewrite length_residues by done.
    destruct (lattice_facts L a M Hlat) as (Hc & Hp & Hq & Hb & Hd0 & Ea & Em & Eb & EL & Hg).
    enough (H : ∀ L' d' p' q' c', L' = d' * p' * q' * c' → q' * p' * d' * c' = L')
      by (by apply H).
    intros; subst; ring.
  - intros x Hx. by apply residues_range.
  - by apply (write_indices_NoDup (real := real)).
  - by apply (write_indices_perm (real := real)).
Qed.

(** Claim C6, amended.  [iwfac_execute] returns [NullArg] when [plan], [gf]
    or [g] is null; with the three pointers non-null and [R ≤ 0] it returns
    [NotPositiveArg] (not [BadArgument]); in both cases nothing is read or
    written.  On a plan made by [iwfac_init] for [(L, a, M)], with [R > 0],
    arrays [gf] and [g] of [L·R] samples outside the plan's buffer (they
    may be the same array) and [2·L·R] a value of [ltfatInt], it returns
    [Success]: no integer overflows and no access leaves its array.  The
    same statuses are returned with unbounded integers. *)
Theorem iwfac_execute_status t plan gf R g σ :
  (plan = None ∨ gf = None ∨ g = None →
   iwfac_execute_int t plan gf R g σ = Done (LTFATERR_NULLPOINTER, []) σ ∧
   iwfac_execute t plan gf R g σ = Done LTFATERR_NULLPOINTER σ) ∧
  (plan ≠ None → gf ≠ None → g ≠ None → R ≤ 0 →
   iwfac_execute_int t plan gf R g σ = Done (LTFATERR_NOTPOSARG, []) σ ∧
   iwfac_execute t plan gf R g σ = Done LTFATERR_NOTPOSARG σ) ∧
  (∀ L a M pl gfl gl sb fp,
     plan = Some pl → gf = Some gfl → g = Some gl →
     lattice L a M → 0 < R → fft_in_place →
     2 * (L * R) ≤ ltfatInt_max →
     exec_layout t L a M R pl gfl gl sb fp σ →
     ∃ lg σ',
       iwfac_execute_int t plan gf R g σ = Done (LTFATERR_SUCCESS, lg) σ' ∧
       iwfac_execute t plan gf R g σ = Done LTFATERR_SUCCESS σ').
Proof.
  split; [|split].
  - intros H. unfold iwfac_execute_int, iwfac_execute.
    destruct plan, g, gf; try done. destruct H as [H|[H|H]]; discriminate.
  - intros Hp Hgf Hg HR. unfold iwfac_execute_int, iwfac_execute.
    destruct plan; [|done]. destruct g; [|done]. destruct gf; [|done].
    by destruct (Z.ltb_spec 0 R); [lia|].
  - intros L a M pl gfl gl sb fp -> -> -> Hlat HR Hfft Hmax HI.
    destruct (iwfac_execute_int_ok t L a M R pl gfl gl sb fp Hlat HR Hfft Hmax σ HI)
      as (σ' & E & HI').
    exists (accesses L a M R), σ'. split; [done|]. by eapply iwfac_execute_int_erase.
Qed.

(** In a call of [iwfac_execute] on a plan for a valid lattice, with
    [2·L·R] a value of [ltfatInt], the lanes of [gf] that are read are
    exactly the [2·L·R] lanes of its [L·R] complex samples, each one read
    once. *)
Theorem iwfac_reads_each_factor_once t L a M R plan gf g sb fp σ :
  lattice L a M → 0 < R → fft_in_place →
  2 * (L * R) ≤ ltfatInt_max →
  exec_layout t L a M R plan gf g sb fp σ →
  ∃ lg σ',
    iwfac_execute_int t (Some plan) (Some gf) R (Some g) σ
    = Done (LTFATERR_SUCCESS, lg) σ' ∧
    read_lanes lg ≡ₚ seqZ 0 (2 * (L * R)) ∧
    NoDup (read_lanes lg) ∧
    ∀ n, n ∈ read_lanes lg ↔ 0 ≤ n < 2 * (L * R).
Proof.
  intros Hlat HR Hfft Hmax HI.
  destruct (iwfac_execute_int_ok t L a M R plan gf g sb fp Hlat HR Hfft Hmax σ HI)
    as (σ' & E & HI').
  exists (accesses L a M R), σ'. split; [done|].
  pose proof (read_lanes_perm L a M R Hlat HR) as Hperm.
  split; [done|]. split.
  - rewrite Hperm. apply NoDup_seqZ.
  - intros n. rewrite Hperm, elem_of_seqZ. lia.
Qed.

End ClaimsInt.

(** ** The claims on the rational instance *)

Lemma Q_fft_in_place : fft_in_place (real := Q).
Proof.
  intros sign n v Hv. cbn [fftw_dft Q_fft]. unfold Qdft.
  case_bool_decide as Hn; [|done].
  rewrite (length_bind_const _ _ 2) by done. rewrite length_seqZ. lia.
Qed.

Lemma lattice_2_1_1 : lattice 2 1 1.
Proof. split; [lia..|reflexivity]. Qed.

Lemma ready_state_ready v1 v2 :
  length v1 = 4%nat → length v2 = 4%nat →
  exec_ready ComplexType 2 1 1 1 3%positive 1%positive 2%positive 4%positive 5%positive
    v1 v2 (ready_state v1 v2).
Proof.
  intros H1 H2.
  split; [apply lattice_2_1_1|lia|reflexivity|reflexivity|by exists [0; 0; 0; 0]%Q
         |reflexivity|rewrite H1; simpl; lia|reflexivity|rewrite H2; simpl; lia
         |done|done|done].
Qed.

(** *** Concrete runs *)


Lemma ready_state_layout v1 v2 :
  length v1 = 4%nat → length v2 = 4%nat →
  exec_layout ComplexType 2 1 1 1 3%positive 1%positive 2%positive 4%positive 5%positive
    (ready_state v1 v2).
Proof. intros H1 H2. eapply exec_ready_layout. by apply ready_state_ready. Qed.

Lemma lattice_big : lattice (2 ^ 30 + 2) 1 2.
Proof. split; [lia..|reflexivity]. Qed.

(** On a 32-bit [ltfatInt] no call for the valid lattice
    [(L, a, M) = (2^30 + 2, 1, 2)], [R = 1] has a defined outcome: the lane
    offset [s * ld3] of the load loop reaches [2^31]. *)
Lemma iwfac_execute_int32_overflow t plan gf g sb fp (σ : @state Q) :
  mem σ !! plan = Some (PlanObj (derived_plan (2 ^ 30 + 2) 1 2 sb fp)) →
  iwfac_execute_int (width := Int32) t (Some plan) (Some gf) 1 (Some g) σ = Fault.
Proof.
  intros Hpl.
  apply (iwfac_execute_int_overflow t (2 ^ 30 + 2) 1 2 1 plan gf g sb fp σ lattice_big);
    [lia|done|]. by vm_compute.
Qed.

(** C4 on the plan for [(L, a, M) = (2, 1, 1)], [R = 1], with a 32-bit
    [ltfatInt]. *)
Lemma iwfac_index_in_bounds_witness :
  ∃ lg σ',
    iwfac_execute_int (width := Int32) ComplexType (Some 3%positive) (Some 1%positive) 1
      (Some 2%positive) (ready_state [1; 2; 3; 4]%Q [0; 0; 0; 0]%Q)
    = Done (LTFATERR_SUCCESS, lg) σ' ∧
    ∀ i, i ∈ write_indices lg → 0 ≤ i < 2 * 1.
Proof.
  destruct (iwfac_index_in_bounds (width := Int32) ComplexType 2 1 1 1 3%positive
    1%positive 2%positive 4%positive 5%positive
    (ready_state [1; 2; 3; 4]%Q [0; 0; 0; 0]%Q) lattice_2_1_1 ltac:(lia)
    Q_fft_in_place ltac:(by vm_compute)
    (ready_state_layout [1; 2; 3; 4]%Q [0; 0; 0; 0]%Q eq_refl eq_refl))
    as (lg & σ' & E & _ & H).
  exists lg, σ'. split; [exact E|]. intros i Hi. exact (proj1 (H i Hi)).
Defined.

(** Against C4 as stated: on the valid lattice [(2^30 + 2, 1, 2)] with
    [R = 1] and a 32-bit [ltfatInt], the sum [negrem + s·p·M] of iteration
    [(l, k, s) = (1, 0, 2^29)] is [2^31 + 1], not a value of the type, and
    no call has a defined outcome. *)
Lemma iwfac_index_overflows :
  lattice (2 ^ 30 + 2) 1 2 ∧
  positiverem (0 * 2 - 1 * 1) (2 ^ 30 + 2) + 2 ^ 29 * lat_p 1 2 * 2 = 2 ^ 31 + 1 ∧
  in_ltfatInt (width := Int32) (2 ^ 31 + 1) = false ∧
  ∀ t plan gf g sb fp (σ : @state Q),
    mem σ !! plan = Some (PlanObj (derived_plan (2 ^ 30 + 2) 1 2 sb fp)) →
    iwfac_execute_int (width := Int32) t (Some plan) (Some gf) 1 (Some g) σ = Fault.
Proof.
  split; [apply lattice_big|]. split; [by vm_compute|]. split; [by vm_compute|].
  intros t plan gf g sb fp σ Hpl. exact (iwfac_execute_int32_overflow t plan gf g sb fp σ Hpl).
Qed.

(** C3 on the plan for [(L, a, M) = (2, 1, 1)], [R = 1], with a 32-bit
    [ltfatInt]. *)
Lemma iwfac_writes_distinct_witness :
  ∃ lg σ',
    iwfac_execute_int (width := Int32) ComplexType (Some 3%positive) (Some 1%positive) 1
      (Some 2%positive) (ready_state [1; 2; 3; 4]%Q [0; 0; 0; 0]%Q)
    = Done (LTFATERR_SUCCESS, lg) σ' ∧
    NoDup (write_indices lg) ∧ write_indices lg ≡ₚ seqZ 0 (2 * 1).
Proof.
  destruct (iwfac_writes_distinct (width := Int32) ComplexType 2 1 1 1 3%positive
    1%positive 2%positive 4%positive 5%positive
    (ready_state [1; 2; 3; 4]%Q [0; 0; 0; 0]%Q) lattice_2_1_1 ltac:(lia)
    Q_fft_in_place ltac:(by vm_compute)
    (ready_state_layout [1; 2; 3; 4]%Q [0; 0; 0; 0]%Q eq_refl eq_refl))
    as (lg & σ' & E & _ & _ & _ & _ & Hnd & Hperm).
  exists lg, σ'. split; [exact E|]. split; [exact Hnd|exact Hperm].
Defined.

(** Against C3 as stated: for [(L, a, M) = (2, 2, 2)] a pair [(r, w)] goes
    through one residue, not [L = 2]; and on a 32-bit [ltfatInt] the valid
    lattice [(2^30 + 2, 1, 2)] has no defined run at all. *)
Lemma residues_not_all_of_L :
  lattice 2 2 2 ∧ residues 2 2 2 = [0] ∧ Z.of_nat (length (residues 2 2 2)) ≠ 2 ∧
  lattice (2 ^ 30 + 2) 1 2 ∧
  ∀ t plan gf g sb fp (σ : @state Q),
    mem σ !! plan = Some (PlanObj (derived_plan (2 ^ 30 + 2) 1 2 sb fp)) →
    iwfac_execute_int (width := Int32) t (Some plan) (Some gf) 1 (Some g) σ = Fault.
Proof.
  split; [split; [lia..|reflexivity]|]. split; [reflexivity|].
  split; [vm_compute; discriminate|]. split; [apply lattice_big|].
  intros t plan gf g sb fp σ Hpl. exact (iwfac_execute_int32_overflow t plan gf g sb fp σ Hpl).
Qed.

(** C6: a null plan, [R = -1], and a run that succeeds, with a 32-bit
    [ltfatInt]. *)
Lemma iwfac_execute_status_witness :
  iwfac_execute_int (width := Int32) ComplexType None (Some 1%positive) 1 (Some 2%positive)
    (ready_state [1; 2; 3; 4]%Q [0; 0; 0; 0]%Q)
  = Done (LTFATERR_NULLPOINTER, []) (ready_state [1; 2; 3; 4]%Q [0; 0; 0; 0]%Q) ∧
  iwfac_execute_int (width := Int32) ComplexType (Some 3%positive) (Some 1%positive) (-1)
    (Some 2%positive) (ready_state [1; 2; 3; 4]%Q [0; 0; 0; 0]%Q)
  = Done (LTFATERR_NOTPOSARG, []) (ready_state [1; 2; 3; 4]%Q [0; 0; 0; 0]%Q) ∧
  ∃ lg σ',
    iwfac_execute_int (width := Int32) ComplexType (Some 3%positive) (Some 1%positive) 1
      (Some 2%positive) (ready_state [1; 2; 3; 4]%Q [0; 0; 0; 0]%Q)
    = Done (LTFATERR_SUCCESS, lg) σ'.
Proof.
  split; [|split].
  - apply (iwfac_execute_status (width := Int32) ComplexType None (Some 1%positive) 1
             (Some 2%positive)). by left.
  - apply (iwfac_execute_status (width := Int32) ComplexType (Some 3%positive)
             (Some 1%positive) (-1) (Some 2%positive)); (done || lia).
  - destruct (proj2 (proj2 (iwfac_execute_status (width := Int32) ComplexType
             (Some 3%positive) (Some 1%positive) 1 (Some 2%positive)
             (ready_state [1; 2; 3; 4]%Q [0; 0; 0; 0]%Q)))
             2 1 1 3%positive 1%positive 2%positive 4%positive 5%positive
             eq_refl eq_refl eq_refl lattice_2_1_1 ltac:(lia) Q_fft_in_place
             ltac:(by vm_compute)
             (ready_state_layout [1; 2; 3; 4]%Q [0; 0; 0; 0]%Q eq_refl eq_refl))
      as (lg & σ' & E & _).
    by exists lg, σ'.
Defined.

(** Against C6 as stated: [R = 0] gives [NotPositiveArg], not
    [BadArgument]; and on a 32-bit [ltfatInt] a call on the plan of the
    valid lattice [(2^30 + 2, 1, 2)] with [R = 1] does not return
    [Success]: it overflows. *)
Lemma iwfac_execute_R0_notposarg :
  iwfac_execute ComplexType (Some 3%positive) (Some 1%positive) 0 (Some 2%positive)
    (ready_state [1; 2; 3; 4]%Q [0; 0; 0; 0]%Q)
  = Done LTFATERR_NOTPOSARG (ready_state [1; 2; 3; 4]%Q [0; 0; 0; 0]%Q) ∧
  LTFATERR_NOTPOSARG ≠ LTFATERR_BADARG ∧
  lattice (2 ^ 30 + 2) 1 2 ∧
  ∀ t plan gf g sb fp (σ : @state Q),
    mem σ !! plan = Some (PlanObj (derived_plan (2 ^ 30 + 2) 1 2 sb fp)) →
    iwfac_execute_int (width := Int32) t (Some plan) (Some gf) 1 (Some g) σ = Fault.
Proof.
  split; [reflexivity|]. split; [discriminate|]. split; [apply lattice_big|].
  intros t plan gf g sb fp σ Hpl. exact (iwfac_execute_int32_overflow t plan gf g sb fp σ Hpl).
Qed.

(** C10 on the plan of [ready_state]. *)
Lemma iwfac_done_nulls_handle_witness :
  ∃ σ',
    iwfac_done (Some 6%positive) (ready_state [1; 2; 3; 4]%Q [0; 0; 0; 0]%Q)
    = Done LTFATERR_SUCCESS σ' ∧
    mem σ' !! 6%positive = Some (Handle None) ∧
    iwfac_done (Some 6%positive) σ' = Done LTFATERR_NULLPOINTER σ'.
Proof.
  destruct (iwfac_done_nulls_handle 6%positive 3%positive
    (derived_plan 2 1 1 (Some 4%positive) (Some 5%positive)) 4%positive 5%positive
    FFTW_BACKWARD 2 4%positive [0; 0; 0; 0]%Q
    (ready_state [1; 2; 3; 4]%Q [0; 0; 0; 0]%Q)
    eq_refl eq_refl eq_refl eq_refl eq_refl eq_refl)
    as (σ' & E & Hh & _ & _ & _ & _ & _ & E2).
  by exists σ'.
Defined.

(** C5: the three calls of the claim, the last one with [L = 5]. *)
Lemma iwfac_error_surfaces_witness :
  iwfac ComplexType (Some 1%positive) 7 0 2 3 (Some 2%positive) (two_arrays [] [])
  = Done LTFATERR_BADARG (two_arrays [] []) ∧
  iwfac ComplexType (Some 1%positive) 5 1 2 3 (Some 2%positive) (two_arrays [] [])
  = Done LTFATERR_BADARG (two_arrays [] []) ∧
  iwfac ComplexType (Some 1%positive) 5 1 3 2 (Some 2%positive) (two_arrays [] [])
  = Done LTFATERR_BADARG (two_arrays [] []).
Proof.
  split; [|split].
  - exact (proj1 (iwfac_error_surfaces ComplexType (Some 1%positive) 0 0 (Some 2%positive)
                    (two_arrays [] []))).
  - exact (proj1 (proj2 (iwfac_error_surfaces ComplexType (Some 1%positive) 0 1
                           (Some 2%positive) (two_arrays [] [])))).
  - apply (proj1 (proj2 (proj2 (iwfac_error_surfaces ComplexType (Some 1%positive) 5 1
                                  (Some 2%positive) (two_arrays [] []))))).
    intros [_ H]. vm_compute in H. discriminate.
Defined.

(** Against C5 as stated: [R = 0], [L = 7], [a = 2], [M = 3] gives
    [BadArgument], not [NotPositiveArg]; and [M = 2], [a = 3] with [L = 6],
    [R = 1] succeeds instead of giving [NotAFrame]. *)
Lemma iwfac_R0_L7_badarg :
  iwfac ComplexType (Some 1%positive) 7 0 2 3 (Some 2%positive) (two_arrays [] [])
  = Done LTFATERR_BADARG (two_arrays [] []) ∧
  LTFATERR_BADARG ≠ LTFATERR_NOTPOSARG ∧
  result_of (iwfac ComplexType (Some 1%positive) 6 1 3 2 (Some 2%positive)
     (two_arrays [1; 2; 3; 4; 5; 6; 7; 8; 9; 10; 11; 12]%Q
                 [0; 0; 0; 0; 0; 0; 0; 0; 0; 0; 0; 0]%Q))
  = Some LTFATERR_SUCCESS.
Proof.
  split; [|split; [discriminate|]].
  - apply iwfac_invalid; [lia..|]. vm_compute. intros [_ ?]. discriminate.
  - vm_compute. reflexivity.
Qed.

(** C7: the plan [iwfac_init] makes for [(L, a, M) = (12, 2, 3)]. *)
Lemma lattice_validation_witness :
  ∃ σ' plan pl,
    iwfac_init 12 2 3 FFTW_MEASURE (Some 6%positive) (ready_state [] [])
    = Done LTFATERR_SUCCESS σ' ∧
    mem σ' !! 6%positive = Some (Handle (Some plan)) ∧
    mem σ' !! plan = Some (PlanObj pl) ∧
    plan_b pl = 4 ∧ plan_c pl = 1 ∧ plan_p pl = 2 ∧ plan_q pl = 3 ∧ plan_d pl = 2.
Proof.
  assert (Hlat : lattice 12 2 3) by (split; [lia..|reflexivity]).
  destruct (lattice_validation ComplexType 12 2 3 1 FFTW_MEASURE 6%positive
    (Some 3%positive) None None (ready_state [] []) eq_refl)
    as (_ & _ & _ & _ & H).
  destruct (H Hlat) as (σ' & E & Hok).
  destruct (Hok eq_refl) as (plan & pl & Hh & Hpl & _ & _ & _ & Hb & Hc & Hp & Hq & Hd & _).
  exists σ', plan, pl. split; [exact E|]. split; [exact Hh|]. split; [exact Hpl|].
  rewrite Hd, Hq, Hp, Hc, Hb. by vm_compute.
Defined.

(** Against C7 as stated: [a = 0] gives [NotPositiveArg], not
    [BadArgument]; and [iwfac_init] accepts [M = 2 < a = 3]. *)
Lemma iwfac_init_nonpositive_a :
  result_of (iwfac_init 1 0 1 FFTW_MEASURE (Some 6%positive) (ready_state [] []))
  = Some LTFATERR_NOTPOSARG ∧
  LTFATERR_NOTPOSARG ≠ LTFATERR_BADARG ∧
  result_of (iwfac_init 6 3 2 FFTW_MEASURE (Some 6%positive) (ready_state [] []))
  = Some LTFATERR_SUCCESS.
Proof. split; [by vm_compute|]. split; [discriminate|by vm_compute]. Qed.

(** [gabdual_long] on [(L, R, a, M) = (2, 1, 1, 1)], complex regime. *)
Lemma gabdual_long_contract_witness :
  ∃ σ',
    gabdual_long ComplexType (Some 1%positive) 2 1 1 1 (Some 2%positive)
      (two_arrays [1; 2; 3; 4]%Q [0; 0; 0; 0]%Q) = Done LTFATERR_SUCCESS σ' ∧
    dom (mem σ') = dom (mem (two_arrays [1; 2; 3; 4]%Q [0; 0; 0; 0]%Q)).
Proof.
  destruct (gabdual_long_contract ComplexType 2 1 1 1 1%positive 2%positive
    [1; 2; 3; 4]%Q [0; 0; 0; 0]%Q (two_arrays [1; 2; 3; 4]%Q [0; 0; 0; 0]%Q)
    Q_fft_in_place ltac:(lia) eq_refl eq_refl ltac:(intros _; vm_compute; discriminate))
    as (st & σ' & E & Hst & _ & _ & _ & Hdom & _).
  assert (st = LTFATERR_SUCCESS) as -> by (rewrite Hst; by vm_compute).
  exists σ'. split; [exact E|exact Hdom].
Defined.

(** Claim C8, at the input on which the code departs from it.  In the real
    regime a null window [g] makes the first sub-step, [wfacreal], report
    [NullArg], and [gabdual_long] still returns [Success]: the three calls
    of the real branch are made without [CHECKSTATUS].  In the complex
    regime the same call returns the [NullArg] of [wfac]. *)
Theorem gabdual_long_drops_substep_status :
  result_of (call_ext (wfacreal_ext 2 1 1 1) None (Some 2%positive)
               (two_arrays [] [0; 0]%Q))
  = Some LTFATERR_NULLPOINTER ∧
  result_of (gabdual_long RealType None 2 1 1 1 (Some 2%positive)
               (two_arrays [] [0; 0]%Q))
  = Some LTFATERR_SUCCESS ∧
  result_of (gabdual_long ComplexType None 2 1 1 1 (Some 2%positive)
               (two_arrays [] [0; 0; 0; 0]%Q))
  = Some LTFATERR_NULLPOINTER.
Proof. split; [|split]; vm_compute; reflexivity. Qed.

(** C9 on [gl = L = 2], [a = M = 1], complex regime. *)
Lemma gabdual_fir_equals_composition_witness :
  ∃ st σ1 σ2,
    gabdual_fir ComplexType (Some 1%positive) 2 2 1 1 2 (Some 2%positive)
      (two_arrays [1; 2; 3; 4]%Q [0; 0; 0; 0]%Q) = Done st σ1 ∧
    gabdual_fir_reference ComplexType (Some 1%positive) 2 2 1 1 2 (Some 2%positive)
      (two_arrays [1; 2; 3; 4]%Q [0; 0; 0; 0]%Q) = Done st σ2 ∧
    mem σ1 = mem σ2.
Proof.
  destruct (gabdual_fir_equals_composition ComplexType 2 2 1 1 1%positive 2%positive
    [1; 2; 3; 4]%Q [0; 0; 0; 0]%Q (two_arrays [1; 2; 3; 4]%Q [0; 0; 0; 0]%Q)
    Q_fft_in_place ltac:(lia) eq_refl eq_refl) as [_ H].
  destruct (H ltac:(lia) eq_refl) as (st & σ1 & σ2 & E1 & E2 & Hm & _).
  exists st, σ1, σ2. split; [exact E1|]. split; [exact E2|exact Hm].
Defined.

(** ** Further properties of [iwfac.c] and [gabdual.c] *)

Section Further.
Context {real : Type} `{!RealOps real, !FftBackend real, !Collaborators real}.
Implicit Types (σ : @state real) (v SB G GF out Gin Gd : list real) (m : gmap loc (@block real)).

Lemma lattice_dec L a M :
  a ≤ 0 ∨ M ≤ 0 ∨ (0 < a ∧ 0 < M ∧ ¬ (0 < L ∧ Z.rem L (ltfat_lcm a M) = 0)) ∨ lattice L a M.
Proof.
  destruct (Z.le_gt_cases a 0); [auto|]. destruct (Z.le_gt_cases M 0); [auto|].
  destruct (Z.le_gt_cases L 0).
  { right; right; left. split; [lia|]. split; [lia|]. intros [? _]. lia. }
  destruct (Z.eq_dec (Z.rem L (ltfat_lcm a M)) 0); [right; right; right; by split|].
  right; right; left. split; [lia|]. split; [lia|]. by intros [_ ?].
Qed.

(** With a live handle [iwfac_init] always returns.  When it fails, the
    status is [NotPositiveArg], [BadArgument], [AllocationFailed] or
    [PlanCreation], the handle is null and the heap is otherwise as before:
    whatever was acquired (the plan struct, the scratch buffer) has been
    released.  It succeeds only on a valid lattice. *)
Theorem iwfac_init_releases_on_failure L a M fl h x σ :
  mem σ !! h = Some (Handle x) →
  ∃ st σ',
    iwfac_init L a M fl (Some h) σ = Done st σ' ∧
    (st = LTFATERR_SUCCESS → lattice L a M) ∧
    (st ≠ LTFATERR_SUCCESS →
     st ∈ [LTFATERR_NOTPOSARG; LTFATERR_BADARG; LTFATERR_NOMEM; LTFATERR_INITFAILED] ∧
     mem σ' = <[h := Handle None]> (mem σ) ∧
     ∃ plan sb,
       trace σ' = trace σ ∨
       trace σ' = trace σ ++ [EvCalloc plan; EvFree plan] ∨
       trace σ' = trace σ ++ [EvCalloc plan; EvMalloc sb (2 * lat_d L a M);
                              EvFree sb; EvFree plan]).
Proof.
  intros Hh.
  destruct (lattice_dec L a M) as [Ha|[HM|[(Ha & HM & Hbad)|Hlat]]].
  - eexists _, _. split; [by eapply iwfac_init_notpos; eauto|].
    split; [done|]. intros _. split; [set_solver|]. split; [done|].
    exists h, h. by left.
  - eexists _, _. split; [by eapply iwfac_init_notpos; eauto|].
    split; [done|]. intros _. split; [set_solver|]. split; [done|].
    exists h, h. by left.
  - eexists _, _. split; [by eapply iwfac_init_badarg; eauto|].
    split; [done|]. intros _. split; [set_solver|]. split; [done|].
    exists h, h. by left.
  - destruct (iwfac_init_lattice L a M fl h x σ Hh Hlat)
      as (plan & sb & fp & _ & _ & _ & _ & _ & _ & E).
    eexists _, _. split; [exact E|]. split; [done|].
    unfold init_status, init_state.
    destruct (ok_at (oracle σ) 0); cbn [negb].
    2:{ intros _. split; [set_solver|]. split; [done|]. exists plan, sb. by left. }
    destruct (ok_at (oracle σ) 1); cbn [negb].
    2:{ intros _. split; [set_solver|]. split; [done|]. exists plan, sb. right. by left. }
    destruct (ok_at (oracle σ) 2); cbn [negb]; [done|].
    intros _. split; [set_solver|]. split; [done|]. exists plan, sb. right. by right.
Qed.


(** [iwfac_init] followed by [iwfac_done] on the same handle leaves the heap
    as it was, with the handle null: the three acquisitions of the plan are
    released, in reverse order. *)
Theorem iwfac_init_done_roundtrip L a M fl h x σ :
  mem σ !! h = Some (Handle x) → lattice L a M →
  init_status (oracle σ) = LTFATERR_SUCCESS →
  ∃ σ1 σ2 plan sb fp,
    iwfac_init L a M fl (Some h) σ = Done LTFATERR_SUCCESS σ1 ∧
    iwfac_done (Some h) σ1 = Done LTFATERR_SUCCESS σ2 ∧
    mem σ2 = <[h := Handle None]> (mem σ) ∧
    trace σ2 = trace σ ++ [EvCalloc plan; EvMalloc sb (2 * lat_d L a M); EvPlanCreate fp;
                           EvPlanDestroy fp; EvFree sb; EvFree plan].
Proof.
  intros Hh Hlat Hok.
  destruct (iwfac_init_lattice L a M fl h x σ Hh Hlat)
    as (plan & sb & fp & Hplan & Hsb & Hfp & Hps & Hpf & Hsf & E).
  rewrite Hok in E. revert E Hok. unfold init_status, init_state.
  destruct (ok_at (oracle σ) 0); cbn [negb]; [|done].
  destruct (ok_at (oracle σ) 1); cbn [negb]; [|done].
  destruct (ok_at (oracle σ) 2); cbn [negb]; [|done]. intros E _.
  assert (h ≠ plan) by congruence. assert (h ≠ sb) by congruence.
  assert (h ≠ fp) by congruence.
  eexists _, _, plan, sb, fp. split; [exact E|].
  split.
  { eapply iwfac_done_spec;
      [by mlookup|by mlookup|reflexivity|reflexivity|by mlookup|by mlookup]. }
  cbn [mem trace]. split; [|by rewrite <- app_assoc].
  apply map_eq. intros i.
  destruct (decide (i = h)) as [->|]; [by mlookup|].
  destruct (decide (i = plan)) as [->|]; [by mlookup|].
  destruct (decide (i = sb)) as [->|]; [by mlookup|].
  destruct (decide (i = fp)) as [->|]; by mlookup.
Qed.


(** On a valid lattice [iwfac] finds a null [gf] or [g] ([NullArg]) or
    [R ≤ 0] ([NotPositiveArg]) only after making the plan, which it then
    destroys: the heap is unchanged, the events are those of a full plan
    life cycle. *)
Theorem iwfac_rejects_after_init t L a M R gf g σ :
  lattice L a M → init_status (oracle σ) = LTFATERR_SUCCESS →
  gf = None ∨ g = None ∨ R ≤ 0 →
  ∃ plan sb fp σ',
    iwfac t gf L R a M g σ
    = Done (match gf, g with
            | Some _, Some _ => LTFATERR_NOTPOSARG
            | _, _ => LTFATERR_NULLPOINTER
            end) σ' ∧
    mem σ' = mem σ ∧
    trace σ' = trace σ ++ [EvCalloc plan; EvMalloc sb (2 * lat_d L a M); EvPlanCreate fp;
                           EvPlanDestroy fp; EvFree sb; EvFree plan].
Proof.
  intros Hlat Hok Hbad.
  destruct σ as [m o tr]. cbn [mem oracle trace] in *.
  pose proof (fresh_None m) as Hh. set (h := fresh (dom m)) in Hh.
  destruct (iwfac_init_lattice L a M FFTW_MEASURE h None
    {| mem := <[h := Handle None]> m; oracle := o; trace := tr |})
    as (plan & sb & fp & Hplan & Hsb & Hfp & Hps & Hpf & Hsf & E);
    [by cbn; mlookup|done|].
  cbn [mem oracle] in Hplan, Hsb, Hfp, E.
  assert (h ≠ plan) by (intros <-; by rewrite lookup_insert_eq in Hplan).
  assert (h ≠ sb) by (intros <-; by rewrite lookup_insert_eq in Hsb).
  assert (h ≠ fp) by (intros <-; by rewrite lookup_insert_eq in Hfp).
  rewrite lookup_insert_ne in Hplan, Hsb, Hfp by done.
  exists plan, sb, fp.
  revert E Hok. unfold init_status, init_state. cbn [mem oracle trace].
  destruct (ok_at o 0); cbn [negb]; [|done].
  destruct (ok_at o 1); cbn [negb]; [|done].
  destruct (ok_at o 2); cbn [negb]; [|done]. intros E _.
  match type of E with _ = Done _ ?s => set (σi := s) in * end.
  assert (Ex : iwfac_execute t (Some plan) gf R g σi
    = Done (match gf, g with
            | Some _, Some _ => LTFATERR_NOTPOSARG
            | _, _ => LTFATERR_NULLPOINTER
            end) σi).
  { unfold iwfac_execute. destruct gf as [gf|], g as [g|]; try reflexivity.
    destruct Hbad as [?|[?|HR]]; try discriminate.
    by destruct (Z.ltb_spec 0 R); [lia|]. }
  eexists. split.
  { unfold iwfac. step ltac:(apply push_handle_spec). fold h.
    step ltac:(exact E). cbn [is_error].
    step ltac:(step ltac:(unfold σi; eapply read_handle_spec; by mlookup); exact Ex).
    unfold σi. step ltac:(eapply read_handle_spec; by mlookup). cbv beta iota.
    step ltac:(step ltac:(eapply iwfac_done_spec;
      [by mlookup|by mlookup|reflexivity|reflexivity|by mlookup|by mlookup]); reflexivity).
    step ltac:(eapply pop_handle_spec; by mlookup).
    reflexivity. }
  cbn [mem trace]. split; [|by rewrite <- app_assoc].
  apply map_eq. intros i.
  destruct (decide (i = h)) as [->|]; [by mlookup|].
  destruct (decide (i = plan)) as [->|]; [by mlookup|].
  destruct (decide (i = sb)) as [->|]; [by mlookup|].
  destruct (decide (i = fp)) as [->|]; by mlookup.
Qed.






(** [gabdual_fir] returns [NullArg] on a null [g] or [gd], then
    [NotPositiveArg] when [gl], [L] or [gdl] is not positive, then
    [BadArgument] when [L < gl] or [L < gdl]; nothing is acquired or
    changed. *)
Theorem gabdual_fir_checks_arguments t g gl L a M gdl gd σ :
  (g = None ∨ gd = None →
   gabdual_fir t g gl L a M gdl gd σ = Done LTFATERR_NULLPOINTER σ) ∧
  (g ≠ None → gd ≠ None → gl ≤ 0 ∨ L ≤ 0 ∨ gdl ≤ 0 →
   gabdual_fir t g gl L a M gdl gd σ = Done LTFATERR_NOTPOSARG σ) ∧
  (g ≠ None → gd ≠ None → 0 < gl → 0 < L → 0 < gdl → L < gl ∨ L < gdl →
   gabdual_fir t g gl L a M gdl gd σ = Done LTFATERR_BADARG σ).
Proof.
  split; [|split].
  - intros H. unfold gabdual_fir. destruct g, gd; try reflexivity.
    destruct H; discriminate.
  - intros Hg Hgd H. unfold gabdual_fir. destruct g; [|done]. destruct gd; [|done].
    destruct (Z.ltb_spec 0 gl); [|reflexivity].
    destruct (Z.ltb_spec 0 L); [|reflexivity].
    destruct (Z.ltb_spec 0 gdl); [|reflexivity]. lia.
  - intros Hg Hgd Hgl HL Hgdl H. unfold gabdual_fir.
    destruct g; [|done]. destruct gd; [|done].
    destruct (Z.ltb_spec 0 gl); [|lia].
    destruct (Z.ltb_spec 0 L); [|lia].
    destruct (Z.ltb_spec 0 gdl); [|lia]. cbn [negb].
    destruct (Z.leb_spec gl L); destruct (Z.leb_spec gdl L); try reflexivity. lia.
Qed.

(** [gabdual_long] does not check [a]: with [a = 0], [R > 0], [M ≥ 0] and
    [L > 0] the test [L % lcm (a, M)] divides by zero. *)
Theorem gabdual_long_zero_shift t g gd L R M σ :
  0 < R → 0 ≤ M → 0 < L →
  gabdual_long t g L R 0 M gd σ = Fault.
Proof.
  intros HR HM HL. unfold gabdual_long.
  destruct (Z.ltb_spec 0 R); [|lia]. destruct (Z.leb_spec 0 M); [|lia]. cbn [negb].
  destruct (Z.ltb_spec 0 L); [|lia].
  unfold ltfat_lcm. rewrite Z.lcm_0_l. reflexivity.
Qed.

(** With a null handle [iwfac_init] does not return [NullArg]: the error
    epilogue stores through the handle.  [iwfac_done] returns [NullArg]. *)
Theorem iwfac_init_null_handle L a M fl σ :
  iwfac_init L a M fl None σ = Fault ∧
  iwfac_done None σ = Done LTFATERR_NULLPOINTER σ.
Proof. split; reflexivity. Qed.

(** With valid lengths [gabdual_fir] returns [AllocationFailed] when the
    temporary cannot be acquired, the status of [fir2long] when that fails,
    and the status of [gabdual_long] ([NotAFrame] for [M < a], [BadArgument]
    when [L] is not a multiple of [lcm (a, M)]) when that fails, each time
    with the heap unchanged. *)
Theorem gabdual_fir_surfaces_failures t gl L a M gdl g gd Gin Gd σ :
  fft_in_place → 0 < a →
  mem σ !! g = Some (Lanes Gin) → mem σ !! gd = Some (Lanes Gd) →
  0 < gl ≤ L → 0 < gdl ≤ L →
  ∃ st σ',
    gabdual_fir t (Some g) gl L a M gdl (Some gd) σ = Done st σ' ∧
    (ok_at (oracle σ) 0 = false → st = LTFATERR_NOMEM ∧ mem σ' = mem σ) ∧
    (ok_at (oracle σ) 0 = true → is_error (fir2long_ext t gl L Gin).1 = true →
     st = (fir2long_ext t gl L Gin).1 ∧ mem σ' = mem σ) ∧
    (ok_at (oracle σ) 0 = true → is_error (fir2long_ext t gl L Gin).1 = false →
     (M < a → st = LTFATERR_NOTAFRAME ∧ mem σ' = mem σ) ∧
     (a ≤ M → Z.rem L (ltfat_lcm a M) ≠ 0 → st = LTFATERR_BADARG ∧ mem σ' = mem σ) ∧
     (st = LTFATERR_SUCCESS →
      mem σ' = <[gd := Lanes (gabdual_fir_value t gl L a M gdl Gin Gd)]> (mem σ))).
Proof.
  intros Hfft Ha Hg Hgd Hgl Hgdl.
  destruct (gabdual_fir_spec t gl L a M gdl g gd Gin Gd σ Hfft Ha Hg Hgd)
    as (σ' & E & Hm).
  eexists _, σ'. split; [exact E|]. rewrite Hm.
  assert (Hid : <[gd := Lanes Gd]> (mem σ) = mem σ) by (by apply insert_id).
  unfold gabdual_fir_output, gabdual_fir_status, gabdual_fir_pre_status. cbv zeta.
  destruct (Z.ltb_spec 0 gl); [|lia]. destruct (Z.ltb_spec 0 L); [|lia].
  destruct (Z.ltb_spec 0 gdl); [|lia].
  destruct (Z.leb_spec gl L); [|lia]. destruct (Z.leb_spec gdl L); [|lia].
  cbn [negb andb].
  split; [|split].
  - intros ->. by cbn.
  - intros -> Herr. cbn [negb]. by rewrite !Herr.
  - intros -> Hok. cbn [negb]. rewrite !Hok.
    split; [|split].
    + intros HaM. unfold gabdual_long_status. cbn.
      destruct (Z.leb_spec a M); [lia|]. by cbn.
    + intros HaM Hrem. unfold gabdual_long_status. cbn.
      destruct (Z.leb_spec a M); [|lia]. cbn [negb].
      destruct (Z.ltb_spec 0 L); [|lia].
      destruct (Z.eqb_spec (Z.rem L (ltfat_lcm a M)) 0); [done|]. by cbn.
    + destruct (is_error (gabdual_long_status _ _ _ _ _ _ _)) eqn:Est; [|done].
      intros Hst. by rewrite Hst in Est.
Qed.

(** For every dual length [gdl ≤ L], [gabdual_fir] gives the status and the
    heap of the composition [long2fir (gabdual_long (fir2long g))] run on
    separate arrays, and keeps the length of [gd]. *)
Theorem gabdual_fir_any_dual_length t gl L a M gdl g gd Gin Gd σ :
  fft_in_place → 0 < a →
  mem σ !! g = Some (Lanes Gin) → mem σ !! gd = Some (Lanes Gd) →
  0 < gl ≤ L → 0 < gdl ≤ L → oracle σ = [] →
  ∃ st σ1 σ2,
    gabdual_fir t (Some g) gl L a M gdl (Some gd) σ = Done st σ1 ∧
    gabdual_fir_reference t (Some g) gl L a M gdl (Some gd) σ = Done st σ2 ∧
    mem σ1 = mem σ2 ∧
    (st = LTFATERR_SUCCESS →
     mem σ1 !! gd = Some (Lanes (gabdual_fir_value t gl L a M gdl Gin Gd)) ∧
     length (gabdual_fir_value t gl L a M gdl Gin Gd) = length Gd).
Proof.
  intros Hfft Ha Hg Hgd Hgl Hgdl Ho.
  destruct (gabdual_fir_spec t gl L a M gdl g gd Gin Gd σ Hfft Ha Hg Hgd)
    as (σ1 & E1 & Hm1).
  destruct (gabdual_fir_reference_spec t gl L a M gdl g gd Gin Gd σ
    Hfft Ha Ho Hgl Hgdl Hg Hgd) as (σ2 & E2 & Hm2).
  rewrite Ho in E1, Hm1.
  eexists _, σ1, σ2. split; [exact E1|]. split; [exact E2|].
  split; [by rewrite Hm1, Hm2|].
  intros Hok. split.
  - rewrite Hm1, lookup_insert_eq. do 2 f_equal.
    revert Hok. unfold gabdual_fir_output, gabdual_fir_status. cbv zeta.
    destruct (is_error (gabdual_fir_pre_status t gl L a M gdl Gin [])) eqn:Epre; [|done].
    intros Hok. by rewrite Hok in Epre.
  - unfold gabdual_fir_value. by rewrite length_resize.
Qed.

(** [gabdual_long] may be run in place: with [gd = g] it returns the same
    status and leaves in [g] the samples that the call with a separate [gd]
    leaves in [gd] (which keeps [g] as it was). *)
Theorem gabdual_long_in_place t L R a M g gd Gin Gd σ :
  fft_in_place → 0 < a → g ≠ gd →
  mem σ !! g = Some (Lanes Gin) → mem σ !! gd = Some (Lanes Gd) →
  Z.of_nat (length Gin) = lanes t * (L * R) → length Gd = length Gin →
  ∃ st σa σb,
    gabdual_long t (Some g) L R a M (Some gd) σ = Done st σa ∧
    gabdual_long t (Some g) L R a M (Some g) σ = Done st σb ∧
    (st = LTFATERR_SUCCESS →
     ∃ Gout, mem σa !! gd = Some (Lanes Gout) ∧ mem σb !! g = Some (Lanes Gout) ∧
             mem σa !! g = Some (Lanes Gin) ∧ length Gout = length Gin).
Proof.
  intros Hfft Ha Hne Hg Hgd HGin HGd.
  destruct (gabdual_long_spec t L R a M g gd Gin Gd σ Hfft Ha Hg Hgd)
    as (σa & Ea & Hma & _).
  { intros ->. cbn [lanes] in HGin. lia. }
  destruct (gabdual_long_spec t L R a M g g Gin Gin σ Hfft Ha Hg Hg)
    as (σb & Eb & Hmb & _).
  { intros ->. cbn [lanes] in HGin. lia. }
  eexists _, σa, σb. split; [exact Ea|]. split; [exact Eb|].
  intros Hok. rewrite Hma, Hmb, Hok. cbn [is_error].
  destruct (gabdual_long_status_lattice t L R a M Gin (oracle σ) Ha) as [Hlat HR].
  { by rewrite Hok. }
  exists (gabdual_long_value t L R a M Gin Gin).
  split; [|split; [|split]].
  - rewrite lookup_insert_eq. do 2 f_equal.
    apply gabdual_long_value_indep; try done. lia.
  - by rewrite lookup_insert_eq.
  - by rewrite lookup_insert_ne.
  - apply length_gabdual_long_value.
Qed.

End Further.

(** *** Concrete runs of the further properties *)

(** The scratch buffer cannot be acquired. *)
Lemma iwfac_init_releases_on_failure_witness :
  ∃ σ',
    iwfac_init 2 1 1 FFTW_MEASURE (Some 6%positive)
      (with_oracle [true; false] (ready_state [] [])) = Done LTFATERR_NOMEM σ' ∧
    mem σ' = <[6%positive := Handle None]> (mem (ready_state [] [])).
Proof.
  destruct (iwfac_init_releases_on_failure 2 1 1 FFTW_MEASURE 6%positive (Some 3%positive)
    (with_oracle [true; false] (ready_state [] [])) eq_refl) as (st & σ' & E & _ & H).
  assert (Est : result_of (iwfac_init 2 1 1 FFTW_MEASURE (Some 6%positive)
      (with_oracle [true; false] (ready_state [] []))) = Some LTFATERR_NOMEM)
    by (vm_compute; reflexivity).
  assert (Hst : Some st = Some LTFATERR_NOMEM)
    by exact (eq_trans (eq_sym (f_equal result_of E)) Est).
  injection Hst as ->.
  destruct (H ltac:(discriminate)) as (_ & Hm & _).
  exists σ'. split; [exact E|exact Hm].
Defined.


Lemma iwfac_init_done_roundtrip_witness :
  ∃ σ1 σ2,
    iwfac_init 2 1 1 FFTW_MEASURE (Some 6%positive) (ready_state [] [])
    = Done LTFATERR_SUCCESS σ1 ∧
    iwfac_done (Some 6%positive) σ1 = Done LTFATERR_SUCCESS σ2 ∧
    mem σ2 = <[6%positive := Handle None]> (mem (ready_state [] [])).
Proof.
  destruct (iwfac_init_done_roundtrip 2 1 1 FFTW_MEASURE 6%positive (Some 3%positive)
    (ready_state [] []) eq_refl lattice_2_1_1 eq_refl)
    as (σ1 & σ2 & plan & sb & fp & E1 & E2 & Hm & _).
  exists σ1, σ2. split; [exact E1|]. split; [exact E2|exact Hm].
Defined.


Lemma iwfac_rejects_after_init_witness :
  ∃ σ',
    iwfac ComplexType (Some 1%positive) 2 0 1 1 (Some 2%positive)
      (two_arrays [1; 2; 3; 4]%Q [0; 0; 0; 0]%Q) = Done LTFATERR_NOTPOSARG σ' ∧
    mem σ' = mem (two_arrays [1; 2; 3; 4]%Q [0; 0; 0; 0]%Q).
Proof.
  destruct (iwfac_rejects_after_init ComplexType 2 1 1 0 (Some 1%positive) (Some 2%positive)
    (two_arrays [1; 2; 3; 4]%Q [0; 0; 0; 0]%Q) lattice_2_1_1 eq_refl
    ltac:(right; right; lia)) as (plan & sb & fp & σ' & E & Hm & _).
  exists σ'. split; [exact E|exact Hm].
Defined.



(** The lanes read on the plan for [(L, a, M) = (2, 1, 1)], [R = 1]. *)
Lemma iwfac_reads_each_factor_once_witness :
  ∃ lg σ',
    iwfac_execute_int (width := Int32) ComplexType (Some 3%positive) (Some 1%positive) 1
      (Some 2%positive) (ready_state [1; 2; 3; 4]%Q [0; 0; 0; 0]%Q)
    = Done (LTFATERR_SUCCESS, lg) σ' ∧
    read_lanes lg ≡ₚ seqZ 0 (2 * (2 * 1)).
Proof.
  destruct (iwfac_reads_each_factor_once (width := Int32) ComplexType 2 1 1 1 3%positive
    1%positive 2%positive 4%positive 5%positive
    (ready_state [1; 2; 3; 4]%Q [0; 0; 0; 0]%Q) lattice_2_1_1 ltac:(lia)
    Q_fft_in_place ltac:(by vm_compute)
    (ready_state_layout [1; 2; 3; 4]%Q [0; 0; 0; 0]%Q eq_refl eq_refl))
    as (lg & σ' & E & Hperm & _).
  exists lg, σ'. split; [exact E|exact Hperm].
Defined.

Lemma gabdual_fir_surfaces_failures_witness :
  ∃ st σ',
    gabdual_fir ComplexType (Some 1%positive) 2 2 2 1 2 (Some 2%positive)
      (two_arrays [1; 2; 3; 4]%Q [0; 0; 0; 0]%Q) = Done st σ' ∧
    st = LTFATERR_NOTAFRAME ∧
    mem σ' = mem (two_arrays [1; 2; 3; 4]%Q [0; 0; 0; 0]%Q).
Proof.
  destruct (gabdual_fir_surfaces_failures ComplexType 2 2 2 1 2 1%positive 2%positive
    [1; 2; 3; 4]%Q [0; 0; 0; 0]%Q (two_arrays [1; 2; 3; 4]%Q [0; 0; 0; 0]%Q)
    Q_fft_in_place ltac:(lia) eq_refl eq_refl ltac:(lia) ltac:(lia))
    as (st & σ' & E & _ & _ & H).
  destruct (H eq_refl eq_refl) as (H1 & _).
  destruct (H1 ltac:(lia)) as [Hst Hm].
  exists st, σ'. split; [exact E|]. split; [exact Hst|exact Hm].
Defined.

Lemma gabdual_fir_any_dual_length_witness :
  ∃ st σ1 σ2,
    gabdual_fir ComplexType (Some 1%positive) 2 2 1 1 1 (Some 2%positive)
      (two_arrays [1; 2; 3; 4]%Q [0; 0]%Q) = Done st σ1 ∧
    gabdual_fir_reference ComplexType (Some 1%positive) 2 2 1 1 1 (Some 2%positive)
      (two_arrays [1; 2; 3; 4]%Q [0; 0]%Q) = Done st σ2 ∧
    mem σ1 = mem σ2.
Proof.
  destruct (gabdual_fir_any_dual_length ComplexType 2 2 1 1 1 1%positive 2%positive
    [1; 2; 3; 4]%Q [0; 0]%Q (two_arrays [1; 2; 3; 4]%Q [0; 0]%Q)
    Q_fft_in_place ltac:(lia) eq_refl eq_refl ltac:(lia) ltac:(lia) eq_refl)
    as (st & σ1 & σ2 & E1 & E2 & Hm & _).
  exists st, σ1, σ2. split; [exact E1|]. split; [exact E2|exact Hm].
Defined.

Lemma gabdual_long_in_place_witness :
  ∃ st σa σb,
    gabdual_long ComplexType (Some 1%positive) 2 1 1 1 (Some 2%positive)
      (two_arrays [1; 2; 3; 4]%Q [0; 0; 0; 0]%Q) = Done st σa ∧
    gabdual_long ComplexType (Some 1%positive) 2 1 1 1 (Some 1%positive)
      (two_arrays [1; 2; 3; 4]%Q [0; 0; 0; 0]%Q) = Done st σb.
Proof.
  destruct (gabdual_long_in_place ComplexType 2 1 1 1 1%positive 2%positive
    [1; 2; 3; 4]%Q [0; 0; 0; 0]%Q (two_arrays [1; 2; 3; 4]%Q [0; 0; 0; 0]%Q)
    Q_fft_in_place ltac:(lia) ltac:(discriminate) eq_refl eq_refl eq_refl eq_refl)
    as (st & σa & σb & Ea & Eb & _).
  exists st, σa, σb. split; [exact Ea|exact Eb].
Defined.

Lemma gabdual_long_zero_shift_witness :
  gabdual_long ComplexType (Some 1%positive) 1 1 0 1 (Some 2%positive)
    (two_arrays [1; 2]%Q [0; 0]%Q) = Fault.
Proof.
  apply (gabdual_long_zero_shift ComplexType (Some 1%positive) (Some 2%positive) 1 1 1
           (two_arrays [1; 2]%Q [0; 0]%Q)); lia.
Defined.
